(** * web-mapviewer: KML/GPX import pipeline and elevation profile statistics

    A shallow embedding of
    - [src/api/profile.api.js] (ProfilePoint, GeoAdminProfile, profile),
    - [src/utils/kmlUtils.js] (icon URL grammar, style normalisation,
      feature deserialisation, extent computation),
    - the file sniffing and dispatching part of
      [addPrimitiveLayer-mixins.js] (isKml, isGpx, handleFileContent),
    followed by the properties of these functions.

    Conventions of the embedding.
    - A JavaScript Number is a value of a type [N] carrying the operations
      of the class [JsNumber].  Two instances are given: [float], the
      IEEE 754 binary64 numbers that the JavaScript engine really uses, and
      [xnum], the same number line (NaN, the two infinities, the finite
      values) computed without rounding over the rationals.
    - A JavaScript string is a list of characters ([jsstring]).
    - [null] and [undefined] are [None].
    - A function that logs, dispatches or throws runs in the monad [Eff]:
      it threads the trace of observable events and ends in [Ok v] or in
      [Throw e]. *)

From Stdlib Require Import ZArith QArith Qround Qabs Qminmax Lqa Lia.
From Stdlib Require Import Bool Ascii String Floats.
From Stdlib Require Import List Sorted.
Import ListNotations.

Set Implicit Arguments.
Set Warnings "-register-all".

(* ================================================================== *)
(** * Part I. Definitions *)
(* ================================================================== *)

(** ** JavaScript strings *)

Definition jsstring := list ascii.

Definition str (s : string) : jsstring := list_ascii_of_string s.

Definition ascii_eqb (a b : ascii) : bool := Ascii.eqb a b.

Fixpoint jsstring_eqb (a b : jsstring) : bool :=
  match a, b with
  | [], [] => true
  | x :: a', y :: b' => ascii_eqb x y && jsstring_eqb a' b'
  | _, _ => false
  end.

(** [String.prototype.toUpperCase] on the characters this model has. *)
Definition upper_char (c : ascii) : ascii :=
  let n := nat_of_ascii c in
  if (97 <=? n)%nat && (n <=? 122)%nat then ascii_of_nat (n - 32) else c.

Definition toUpperCase (s : jsstring) : jsstring := map upper_char s.

(** ** JavaScript numbers *)

(** The operations the embedded code performs on Numbers. *)
Class JsNumber (N : Type) : Type := {
  num_lit : Q -> N;               (* a numeric literal of the source text  *)
  num_add : N -> N -> N;          (* a + b                                 *)
  num_sub : N -> N -> N;          (* a - b                                 *)
  num_mul : N -> N -> N;          (* a * b                                 *)
  num_div : N -> N -> N;          (* a / b                                 *)
  num_ltb : N -> N -> bool;       (* a < b   (a > b is [num_ltb b a])      *)
  num_eqb : N -> N -> bool;       (* a === b                               *)
  num_truthy : N -> bool;         (* ToBoolean: false on 0 and on NaN      *)
  num_max : N -> N -> N;          (* Math.max(a, b)                        *)
  num_min : N -> N -> N;          (* Math.min(a, b)                        *)
  num_abs : N -> N;               (* Math.abs(a)                           *)
  num_infinity : N;               (* Infinity                              *)
  num_neg_infinity : N            (* -Infinity                             *)
}.

(** [Math.pow] with an array index as exponent, and [Math.round]. *)
Class JsMath (N : Type) {JN : JsNumber N} : Type := {
  num_pow : N -> nat -> N;
  num_round : N -> N
}.

Arguments JsMath N {_}.

(** *** binary64 *)

Definition float_of_Z (z : Z) : float :=
  match z with
  | Z0 => PrimFloat.zero
  | Zpos _ => PrimFloat.of_uint63 (Uint63.of_Z z)
  | Zneg p => PrimFloat.opp (PrimFloat.of_uint63 (Uint63.of_Z (Zpos p)))
  end.

(** A literal [n/d] with [|n|] and [d] below 2^53: both are exact and the
    division rounds once, to the double nearest to the literal. *)
Definition float_lit (q : Q) : float :=
  PrimFloat.div (float_of_Z (Qnum q)) (float_of_Z (Zpos (Qden q))).

Definition float_truthy (x : float) : bool :=
  negb (PrimFloat.is_zero x || PrimFloat.is_nan x).

Definition float_max (a b : float) : float :=
  if PrimFloat.is_nan a || PrimFloat.is_nan b then PrimFloat.nan
  else if PrimFloat.ltb a b then b
  else if PrimFloat.ltb b a then a
  else if PrimFloat.get_sign a then b else a.

Definition float_min (a b : float) : float :=
  if PrimFloat.is_nan a || PrimFloat.is_nan b then PrimFloat.nan
  else if PrimFloat.ltb a b then a
  else if PrimFloat.ltb b a then b
  else if PrimFloat.get_sign a then a else b.

#[export] Instance float_number : JsNumber float := {
  num_lit := float_lit;
  num_add := PrimFloat.add;
  num_sub := PrimFloat.sub;
  num_mul := PrimFloat.mul;
  num_div := PrimFloat.div;
  num_ltb := PrimFloat.ltb;
  num_eqb := PrimFloat.eqb;
  num_truthy := float_truthy;
  num_max := float_max;
  num_min := float_min;
  num_abs := PrimFloat.abs;
  num_infinity := PrimFloat.infinity;
  num_neg_infinity := PrimFloat.neg_infinity
}.

(** *** The same number line without rounding *)

Inductive xnum : Type :=
| XNaN
| XNegInf
| XPosInf
| XFin (q : Q).

Definition Qzerob (q : Q) : bool := Qeq_bool q 0.
Definition Qltb (a b : Q) : bool := negb (Qle_bool b a).

Definition xneg (a : xnum) : xnum :=
  match a with
  | XNaN => XNaN
  | XNegInf => XPosInf
  | XPosInf => XNegInf
  | XFin q => XFin (- q)
  end.

Definition xadd (a b : xnum) : xnum :=
  match a, b with
  | XNaN, _ | _, XNaN => XNaN
  | XPosInf, XNegInf | XNegInf, XPosInf => XNaN
  | XPosInf, _ | _, XPosInf => XPosInf
  | XNegInf, _ | _, XNegInf => XNegInf
  | XFin p, XFin q => XFin (p + q)
  end.

Definition xsub (a b : xnum) : xnum := xadd a (xneg b).

(** The sign of a product or quotient with an infinite operand. *)
Definition xinf_signed (negative : bool) : xnum :=
  if negative then XNegInf else XPosInf.

Definition xinf_times (negative : bool) (q : Q) : xnum :=
  if Qzerob q then XNaN else xinf_signed (xorb negative (Qltb q 0)).

Definition xmul (a b : xnum) : xnum :=
  match a, b with
  | XNaN, _ | _, XNaN => XNaN
  | XPosInf, XPosInf | XNegInf, XNegInf => XPosInf
  | XPosInf, XNegInf | XNegInf, XPosInf => XNegInf
  | XPosInf, XFin q | XFin q, XPosInf => xinf_times false q
  | XNegInf, XFin q | XFin q, XNegInf => xinf_times true q
  | XFin p, XFin q => XFin (p * q)
  end.

Definition xdiv (a b : xnum) : xnum :=
  match a, b with
  | XNaN, _ | _, XNaN => XNaN
  | (XPosInf | XNegInf), (XPosInf | XNegInf) => XNaN
  | XPosInf, XFin q => xinf_signed (Qltb q 0)
  | XNegInf, XFin q => xinf_signed (negb (Qltb q 0))
  | XFin _, (XPosInf | XNegInf) => XFin 0
  | XFin p, XFin q =>
      if Qzerob q then
        (if Qzerob p then XNaN else xinf_signed (Qltb p 0))
      else XFin (p / q)
  end.

Definition xltb (a b : xnum) : bool :=
  match a, b with
  | XNaN, _ | _, XNaN => false
  | _, XNegInf => false
  | XNegInf, _ => true
  | XPosInf, _ => false
  | XFin _, XPosInf => true
  | XFin p, XFin q => Qltb p q
  end.

Definition xeqb (a b : xnum) : bool :=
  match a, b with
  | XNegInf, XNegInf | XPosInf, XPosInf => true
  | XFin p, XFin q => Qeq_bool p q
  | _, _ => false
  end.

Definition xtruthy (a : xnum) : bool :=
  match a with
  | XNaN => false
  | XFin q => negb (Qzerob q)
  | _ => true
  end.

Definition xis_nan (a : xnum) : bool :=
  match a with XNaN => true | _ => false end.

Definition xmax (a b : xnum) : xnum :=
  if xis_nan a || xis_nan b then XNaN else if xltb a b then b else a.

Definition xmin (a b : xnum) : xnum :=
  if xis_nan a || xis_nan b then XNaN else if xltb b a then b else a.

Definition xabs (a : xnum) : xnum :=
  match a with
  | XNaN => XNaN
  | XNegInf | XPosInf => XPosInf
  | XFin q => XFin (Qabs q)
  end.

Fixpoint xpow (a : xnum) (n : nat) : xnum :=
  match n with
  | O => XFin 1
  | S n' => xmul a (xpow a n')
  end.

(** [Math.round]: the nearest integer, a tie going up. *)
Definition xround (a : xnum) : xnum :=
  match a with
  | XFin q => XFin (inject_Z (Qfloor (q + (1 # 2))))
  | _ => a
  end.

#[export] Instance xnum_number : JsNumber xnum := {
  num_lit := XFin;
  num_add := xadd;
  num_sub := xsub;
  num_mul := xmul;
  num_div := xdiv;
  num_ltb := xltb;
  num_eqb := xeqb;
  num_truthy := xtruthy;
  num_max := xmax;
  num_min := xmin;
  num_abs := xabs;
  num_infinity := XPosInf;
  num_neg_infinity := XNegInf
}.

#[export] Instance xnum_math : JsMath xnum := {
  num_pow := xpow;
  num_round := xround
}.

(** Numeric equality of two [xnum]: the values coincide (a fraction is not
    kept in lowest terms, so this is coarser than [=]). *)
Definition xeq (a b : xnum) : Prop :=
  match a, b with
  | XNaN, XNaN | XNegInf, XNegInf | XPosInf, XPosInf => True
  | XFin p, XFin q => p == q
  | _, _ => False
  end.

Definition xfinite (a : xnum) : Prop :=
  match a with XFin _ => True | _ => False end.

(** ** Exceptions, logs and the effect monad *)

Inductive JsError : Type :=
| TypeError (msg : string)
| SyntaxError (msg : string)
| EmptyKMLError
| OutOfBoundsError (msg : string)
| GenericError (msg : string).

Inductive Outcome (A : Type) : Type :=
| Ok (a : A)
| Throw (e : JsError).

Arguments Ok {A} a.
Arguments Throw {A} e.

Inductive LogEntry : Type :=
| LogError (msg : string)
| LogWarn (msg : string).

(** A computation over a trace of events of type [E]. *)
Definition Eff (E A : Type) : Type := list E -> Outcome A * list E.

Definition ret {E A} (a : A) : Eff E A := fun tr => (Ok a, tr).

Definition throw {E A} (e : JsError) : Eff E A := fun tr => (Throw e, tr).

Definition bind {E A B} (m : Eff E A) (k : A -> Eff E B) : Eff E B :=
  fun tr =>
    match m tr with
    | (Ok a, tr') => k a tr'
    | (Throw e, tr') => (Throw e, tr')
    end.

Definition emit {E} (e : E) : Eff E unit := fun tr => (Ok tt, tr ++ [e]).

(** [try { body } catch (error) { handler }] *)
Definition try_catch {E A} (body : Eff E A) (handler : JsError -> Eff E A)
  : Eff E A :=
  fun tr =>
    match body tr with
    | (Ok a, tr') => (Ok a, tr')
    | (Throw e, tr') => handler e tr'
    end.

Definition lift {E A} (o : Outcome A) : Eff E A := fun tr => (o, tr).

Declare Scope eff_scope.
Delimit Scope eff_scope with eff.
Notation "x <- m ;; k" := (bind m (fun x => k))
  (at level 61, m at next level, right associativity) : eff_scope.
Notation "m ;;; k" := (bind m (fun _ => k))
  (at level 61, right associativity) : eff_scope.

(** Run a computation from the empty trace. *)
Definition run {E A} (m : Eff E A) : Outcome A * list E := m [].

(** ** Arrays *)

(** [Array.prototype.map] with the three-argument callback
    [(element, index, array)]. *)
Fixpoint map_indexed {A B} (f : A -> nat -> list A -> B) (arr : list A)
  (index : nat) (rest : list A) : list B :=
  match rest with
  | [] => []
  | x :: rest' => f x index arr :: map_indexed f arr (S index) rest'
  end.

Definition array_map {A B} (f : A -> nat -> list A -> B) (arr : list A)
  : list B := map_indexed f arr 0 arr.

(** [Array.prototype.reduce] with an initial value and the four-argument
    callback [(accumulator, element, index, array)]. *)
Fixpoint reduce_indexed {A B} (f : B -> A -> nat -> list A -> B)
  (arr : list A) (index : nat) (rest : list A) (acc : B) : B :=
  match rest with
  | [] => acc
  | x :: rest' => reduce_indexed f arr (S index) rest' (f acc x index arr)
  end.

Definition array_reduce {A B} (f : B -> A -> nat -> list A -> B)
  (arr : list A) (init : B) : B := reduce_indexed f arr 0 arr init.

(** [Array.prototype.reduce] without an initial value: the first element
    starts the accumulation; on an empty array JavaScript throws. *)
Definition array_reduce1 {A} (f : A -> A -> A) (arr : list A) : Outcome A :=
  match arr with
  | [] => Throw (TypeError "Reduce of empty array with no initial value")
  | x :: rest => Ok (fold_left f rest x)
  end.

(** [Array.prototype.forEach] with the callback [(element, index)], run on
    a local variable that the callback updates. *)
Fixpoint forEach_indexed {A St} (f : St -> A -> nat -> St) (index : nat)
  (rest : list A) (s : St) : St :=
  match rest with
  | [] => s
  | x :: rest' => forEach_indexed f (S index) rest' (f s x index)
  end.

(* ------------------------------------------------------------------ *)
(** ** src/api/profile.api.js *)
(* ------------------------------------------------------------------ *)

Record ProfilePoint (N : Type) : Type := {
  dist : N;
  coordinate : N * N;
  elevation : N
}.

(** Constants of the formula (schweizmobil). *)
Definition arrConstants : list Q := [
  14.271; 3.6991; 2.5922; -1.4384; 0.32105; 0.81542; -0.090261; -0.20757;
  0.010192; 0.028588; -0.00057466; -0.0021842; 1.5176e-5; 8.6894e-5;
  -1.3584e-7; -1.4026e-6 ]%Q.

Section GeoAdminProfile.

Context {N : Type} {JN : JsNumber N}.

(** A [GeoAdminProfile] is its array of points. *)
Definition GeoAdminProfile : Type := list (ProfilePoint N).

Definition profile_length (points : GeoAdminProfile) : nat := length points.

Definition hasData (points : GeoAdminProfile) : bool :=
  (2 <=? profile_length points)%nat.

(** [points[i]], read where the surrounding guard keeps [i] in range;
    [fallback] stands for the out-of-range case that the guard excludes. *)
Definition point_at (points : GeoAdminProfile) (i : nat)
  (fallback : ProfilePoint N) : ProfilePoint N := nth i points fallback.

Definition elevationDifference (points : GeoAdminProfile) : N :=
  if negb (hasData points) then num_lit 0
  else
    match points with
    | [] => num_lit 0
    | first :: _ =>
        num_sub (elevation (point_at points (profile_length points - 1) first))
                (elevation first)
    end.

Definition totalAscent (points : GeoAdminProfile) : N :=
  array_reduce
    (fun totalAscent currentPoint currentIndex points =>
       if (currentIndex =? 0)%nat then totalAscent
       else
         num_add totalAscent
           (num_max
              (num_sub (elevation currentPoint)
                 (elevation (point_at points (currentIndex - 1) currentPoint)))
              (num_lit 0)))
    points (num_lit 0).

Definition totalDescent (points : GeoAdminProfile) : N :=
  num_abs
    (array_reduce
       (fun totalDescent currentPoint currentIndex points =>
          if (currentIndex =? 0)%nat then totalDescent
          else
            num_sub totalDescent
              (num_min
                 (num_sub (elevation currentPoint)
                    (elevation
                       (point_at points (currentIndex - 1) currentPoint)))
                 (num_lit 0)))
       points (num_lit 0)).

Context {JM : JsMath N}.

(** The body of the [map] callback of [hikingTime]. *)
Definition hikingTime_segment (currentPoint : ProfilePoint N) (index : nat)
  (points : GeoAdminProfile) : N :=
  if (Z.of_nat index <? Z.of_nat (length points) - 2)%Z then
    let nextPoint := point_at points (index + 1) currentPoint in
    let distanceDelta := num_sub (dist nextPoint) (dist currentPoint) in
    if negb (num_truthy distanceDelta) then num_lit 0
    else
      let elevationDelta :=
        num_sub (elevation nextPoint) (elevation currentPoint) in
      let slope :=
        num_div (num_mul elevationDelta (num_lit 10)) distanceDelta in
      let minutesPerKilometer :=
        if num_ltb (num_lit (-4)) slope && num_ltb slope (num_lit 4) then
          forEach_indexed
            (fun minutesPerKilometer constants i =>
               num_add minutesPerKilometer
                 (num_mul (num_lit constants) (num_pow slope i)))
            0 arrConstants (num_lit 0)
        else if num_ltb (num_lit 0) slope then num_mul (num_lit 17) slope
        else num_mul (num_lit (-9)) slope in
      num_div (num_mul distanceDelta minutesPerKilometer) (num_lit 1000)
  else num_lit 0.

Definition hikingTime (points : GeoAdminProfile) : Outcome N :=
  if negb (hasData points) then Ok (num_lit 0)
  else
    match array_reduce1 num_add (array_map hikingTime_segment points) with
    | Ok total => Ok (num_round total)
    | Throw e => Throw e
    end.

(** *** The hiking time as the specification words it *)






End GeoAdminProfile.

(* ------------------------------------------------------------------ *)
(** ** Regular expressions *)
(* ------------------------------------------------------------------ *)

(** The fragment of ECMAScript regular expressions that the source files
    write down, matched the way the language defines it: by backtracking,
    leftmost start first, a greedy quantifier trying the longest run first
    and a lazy one the shortest. *)

Inductive regex : Type :=
| RLit (text : jsstring)                 (* literal characters            *)
| RMany (lazy atleast1 : bool) (cls : ascii -> bool)
                                         (* c*  c+  c+?  on a class c     *)
| RSeq (r1 r2 : regex)
| RNamed (name : string) (r : regex)     (* (?<name>r)                    *)
| RGroup (r : regex)                     (* (r), its capture never read   *)
| ROpt (r : regex)                       (* r?                            *)
| REnd.                                  (* $                             *)

Definition rseq (rs : list regex) : regex := fold_right RSeq (RLit []) rs.

(** Character classes. *)
Definition code_between (lo hi : nat) (c : ascii) : bool :=
  let n := nat_of_ascii c in ((lo <=? n) && (n <=? hi))%nat.

Definition is_digit (c : ascii) : bool := code_between 48 57 c.

Definition is_word (c : ascii) : bool :=
  code_between 48 57 c || code_between 65 90 c || code_between 97 122 c
  || ascii_eqb c "_".

Definition not_slash (c : ascii) : bool := negb (ascii_eqb c "/").

(** [.] matches everything but a line terminator. *)
Definition any_char (c : ascii) : bool :=
  negb (ascii_eqb c "010" || ascii_eqb c "013").

Definition is_space (c : ascii) : bool :=
  code_between 9 13 c || ascii_eqb c " " || ascii_eqb c "160".

Definition Captures : Type := list (string * jsstring).

(** [match.groups.name]: [None] is [undefined]. *)
Fixpoint group (caps : Captures) (name : string) : option jsstring :=
  match caps with
  | [] => None
  | (n, text) :: caps' => if String.eqb n name then Some text else group caps' name
  end.

Fixpoint strip_prefix (text s : jsstring) : option jsstring :=
  match text, s with
  | [], _ => Some s
  | t :: text', c :: s' => if ascii_eqb t c then strip_prefix text' s' else None
  | _ :: _, [] => None
  end.

Section Matcher.

Variable R : Type.

Fixpoint many_greedy (cls : ascii -> bool) (s : jsstring)
  (k : jsstring -> option R) : option R :=
  match s with
  | c :: s' =>
      if cls c then
        match many_greedy cls s' k with
        | Some r => Some r
        | None => k s
        end
      else k s
  | [] => k s
  end.

Fixpoint many_lazy (cls : ascii -> bool) (s : jsstring)
  (k : jsstring -> option R) : option R :=
  match k s with
  | Some r => Some r
  | None =>
      match s with
      | c :: s' => if cls c then many_lazy cls s' k else None
      | [] => None
      end
  end.

Definition many (lazy atleast1 : bool) (cls : ascii -> bool) (s : jsstring)
  (k : jsstring -> option R) : option R :=
  let rest := if lazy then many_lazy else many_greedy in
  if atleast1 then
    match s with
    | c :: s' => if cls c then rest cls s' k else None
    | [] => None
    end
  else rest cls s k.

Fixpoint rmatch (r : regex) (s : jsstring) (caps : Captures)
  (k : jsstring -> Captures -> option R) : option R :=
  match r with
  | RLit text =>
      match strip_prefix text s with
      | Some s' => k s' caps
      | None => None
      end
  | RMany lazy atleast1 cls => many lazy atleast1 cls s (fun s' => k s' caps)
  | RSeq r1 r2 => rmatch r1 s caps (fun s1 caps1 => rmatch r2 s1 caps1 k)
  | RNamed name r1 =>
      rmatch r1 s caps
        (fun s' caps' =>
           k s' ((name, firstn (length s - length s') s) :: caps'))
  | RGroup r1 => rmatch r1 s caps k
  | ROpt r1 =>
      match rmatch r1 s caps k with
      | Some res => Some res
      | None => k s caps
      end
  | REnd =>
      match s with
      | [] => k s caps
      | _ :: _ => None
      end
  end.

End Matcher.

(** [regex.exec(s)]: the captures of the leftmost match, [None] for null. *)
Fixpoint regex_exec (r : regex) (s : jsstring) : option Captures :=
  match rmatch r s [] (fun _ caps => Some caps) with
  | Some caps => Some caps
  | None =>
      match s with
      | [] => None
      | _ :: s' => regex_exec r s'
      end
  end.

(** [regex.test(s)] *)
Definition regex_test (r : regex) (s : jsstring) : bool :=
  match regex_exec r s with Some _ => true | None => false end.

(** *** What a match is, without the search order *)

(** [matches r s s' caps caps']: [r] can consume the front of [s], leaving
    [s'], and turns the captures [caps] into [caps']. *)
Fixpoint matches (r : regex) (s s' : jsstring) (caps caps' : Captures)
  : Prop :=
  match r with
  | RLit text => s = text ++ s' /\ caps' = caps
  | RMany _ atleast1 cls =>
      exists w, s = w ++ s' /\ forallb cls w = true
                /\ (atleast1 = true -> w <> []) /\ caps' = caps
  | RSeq r1 r2 =>
      exists s1 caps1, matches r1 s s1 caps caps1 /\ matches r2 s1 s' caps1 caps'
  | RNamed name r1 =>
      exists caps1, matches r1 s s' caps caps1
                    /\ caps' = (name, firstn (length s - length s') s) :: caps1
  | RGroup r1 => matches r1 s s' caps caps'
  | ROpt r1 => matches r1 s s' caps caps' \/ (s' = s /\ caps' = caps)
  | REnd => s = [] /\ s' = [] /\ caps' = caps
  end.

(* ------------------------------------------------------------------ *)
(** ** The objects kmlUtils.js works on *)
(* ------------------------------------------------------------------ *)

(** An OpenLayers object is the record of what its getters return. *)

(** A coordinate structure: a number, or an array of structures
    ([x, y] is an array of two numbers, a line an array of those, ...). *)
Inductive Coords (N : Type) : Type :=
| CNum (n : N)
| CArr (items : list (Coords N)).

Arguments CNum {N} n.
Arguments CArr {N} items.

(** [ol/extent]: the array [minx, miny, maxx, maxy]. *)
Record Extent (N : Type) : Type := {
  minx : N; miny : N; maxx : N; maxy : N
}.

Record Geometry (N : Type) : Type := {
  geom_type : jsstring;                 (* getType()        *)
  geom_coordinates : Coords N;          (* getCoordinates() *)
  geom_extent : Extent N                (* getExtent()      *)
}.

(** An OpenLayers colour: a CSS string or an array of channels. *)
Inductive OlColor (N : Type) : Type :=
| ColorString (css : jsstring)
| ColorArray (channels : list N).

Arguments ColorString {N} css.
Arguments ColorArray {N} channels.

Record IconStyle (N : Type) : Type := {
  icon_src : option jsstring;           (* getSrc()    *)
  icon_scale : N;                       (* getScale()  *)
  icon_size : option (N * N);           (* getSize(), null until known   *)
  icon_anchor : option (N * N);         (* getAnchor(), null until known *)
  icon_displacement : N * N
}.

(** [style.getImage()]: an [ol/style/Icon] or another image style. *)
Inductive ImageStyle (N : Type) : Type :=
| ImageIcon (icon : IconStyle N)
| ImageOther (scale : N).

Arguments ImageOther {N} scale.

Record Style (N : Type) : Type := {
  style_text_scale : option (option N); (* getText(), then its getScale() *)
  style_image : option (ImageStyle N);  (* getImage()                     *)
  style_stroke : option (OlColor N);    (* getStroke(), then getColor()   *)
  style_fill : option (OlColor N)       (* getFill(), then getColor()     *)
}.

Record Feature (N : Type) : Type := {
  feat_id : option jsstring;                    (* getId()            *)
  feat_properties : list (string * jsstring);   (* get(key)           *)
  feat_geometry : Geometry N;                   (* getGeometry()      *)
  feat_style : option (Style N)                 (* what getStyle(feature)
                                                   resolves, or null  *)
}.

Fixpoint feature_get (props : list (string * jsstring)) (key : string)
  : option jsstring :=
  match props with
  | [] => None
  | (k, v) :: props' =>
      if String.eqb k key then Some v else feature_get props' key
  end.

(** What a caller may hand over where an [ol/Feature] is expected. *)
Inductive FeatureArg (N : Type) : Type :=
| NotAnObject                      (* null or undefined                    *)
| PlainObject                      (* an object without Feature's methods  *)
| FeatureLike (f : Feature N)      (* answers the methods, is not an
                                      instance of ol/Feature               *)
| IsFeature (f : Feature N).       (* an instance of ol/Feature            *)

Arguments NotAnObject {N}.
Arguments PlainObject {N}.

(** Modelled from the spec: the enumeration [EditableFeatureTypes] of
    EditableFeature.class.js, which is not part of the sources: "one of
    MARKER, ANNOTATION, LINEPOLYGON, MEASURE". *)
Inductive EditableFeatureTypes : Type :=
| MARKER | ANNOTATION | LINEPOLYGON | MEASURE.

Definition type_value (t : EditableFeatureTypes) : jsstring :=
  match t with
  | MARKER => str "MARKER"
  | ANNOTATION => str "ANNOTATION"
  | LINEPOLYGON => str "LINEPOLYGON"
  | MEASURE => str "MEASURE"
  end.

Definition EditableFeatureTypes_values : list EditableFeatureTypes :=
  [MARKER; ANNOTATION; LINEPOLYGON; MEASURE].

(** Modelled from the spec: the size and colour presets of
    featureStyleUtils.js, which is not part of the sources. *)
Record FeatureStyleSize (N : Type) : Type := {
  size_label : string;
  size_textScale : N;
  size_iconScale : N
}.

Record FeatureStyleColor : Type := {
  color_name : string;
  color_fill : jsstring
}.

(** Modelled from the spec: [DrawingIcon] and [DrawingIconSet] of
    icon.api.js, which is not part of the sources: "set name + icon name +
    rendering URLs + anchor point". *)
Record DrawingIcon (N : Type) : Type := {
  di_name : jsstring;
  di_imageURL : jsstring;
  di_imageTemplateURL : jsstring;
  di_iconSetName : jsstring;
  di_anchor : N * N
}.

Record DrawingIconSet (N : Type) : Type := {
  dis_name : jsstring;
  dis_icons : list (DrawingIcon N)
}.

Record IconColorArg : Type := { r : Z; g : Z; b : Z }.

Record IconArgs : Type := {
  set : jsstring;
  name : jsstring;
  color : IconColorArg;
  isLegacy : bool
}.

(** The GeoJSON geometry object that [writeGeometryObject] produces. *)
Record GeoJsonGeometry (N : Type) : Type := {
  gj_type : jsstring;
  gj_coordinates : Coords N
}.

(** Modelled from the spec: the record that [EditableFeature.newFeature]
    builds (EditableFeature.class.js is not part of the sources).  Every
    field is nullable, as a JavaScript property is. *)
Record EditableFeature (N : Type) : Type := {
  ef_id : option jsstring;
  ef_featureType : option EditableFeatureTypes;
  ef_title : option jsstring;
  ef_description : option jsstring;
  ef_coordinates : option (Coords N);
  ef_geometry : option (GeoJsonGeometry N);
  ef_textColor : option FeatureStyleColor;
  ef_textSize : option (FeatureStyleSize N);
  ef_fillColor : option FeatureStyleColor;
  ef_icon : option (DrawingIcon N);
  ef_iconSize : option (FeatureStyleSize N)
}.

(** A coordinate system, as far as the sources read it. *)
Record CoordinateSystem : Type := { epsg : jsstring }.

(** Modelled from the spec: [getMetadata] result of the GPX reader. *)
Record GpxMetadata : Type := { gpx_name : option jsstring }.

(** What the embedded code imports from modules outside the sources
    (OpenLayers, featureStyleUtils, extentUtils, the GPX readers, the
    configuration) and from the JavaScript runtime. *)
Class Externals (N : Type) : Type := {
  (* new KML().readFeatures(content, {dataProjection, featureProjection}) *)
  kml_readFeatures : jsstring -> jsstring -> jsstring -> list (Feature N);
  (* getDefaultStyle()?.getText()?.getScale() *)
  default_text_scale : option N;
  (* getDefaultStyle()?.getImage()?.getSrc() *)
  default_icon_src : option jsstring;
  WGS84 : CoordinateSystem;
  allStylingSizes : list (FeatureStyleSize N);
  SMALL : FeatureStyleSize N;
  RED : FeatureStyleColor;
  getFeatureStyleColor : OlColor N -> FeatureStyleColor;
  getTextColor : Style N -> FeatureStyleColor;
  getTextSize : option N -> FeatureStyleSize N;
  (* new RegExp(pattern): its [test] method, or the SyntaxError *)
  RegExp_new : jsstring -> Outcome (jsstring -> bool);
  getExtentForProjection : CoordinateSystem -> Extent N -> option (Extent N);
  (* new GPX().readMetadata(content) *)
  gpx_readMetadata : jsstring -> GpxMetadata;
  (* bbox(gpxToGeoJSON(new DOMParser().parseFromString(content, 'text/xml'))) *)
  gpx_bbox : jsstring -> Extent N;
  API_SERVICE_ALTI_BASE_URL : jsstring;
  LV95_epsgNumber : Z
}.

(** [a ?? b] *)
Definition nullish {A} (a : option A) (b : A) : A :=
  match a with Some v => v | None => b end.

Definition nullish_opt {A} (a b : option A) : option A :=
  match a with Some v => Some v | None => b end.

Definition is_some {A} (a : option A) : bool :=
  match a with Some _ => true | None => false end.

(** [a === b] on two strings that may be undefined. *)
Definition option_string_eqb (a b : option jsstring) : bool :=
  match a, b with
  | Some x, Some y => jsstring_eqb x y
  | None, None => true
  | _, _ => false
  end.

(** The value of a run of decimal digits ([Number] on what [\d+] captures). *)
Definition digit_value (c : ascii) : Z := Z.of_nat (nat_of_ascii c) - 48.

Definition decimal_value (digits : jsstring) : Z :=
  fold_left (fun acc c => acc * 10 + digit_value c)%Z digits 0%Z.

(** The argument of [parseRGBColor]: captured text, or a number. *)
Inductive ChannelInput : Type :=
| ChannelText (text : jsstring)
| ChannelNumber (value : Z).

(** Modelled from the spec: [parseRGBColor] of utils.js, which is not part
    of the sources: "Color channel values are parsed as small integers in
    [0,255]; out-of-range or non-numeric values are a hard input-validation
    failure for that channel (reported, not silently clamped)". *)
Definition parseRGBColor (channel : ChannelInput) (label : string)
  : Outcome Z :=
  let checked (v : Z) :=
    if ((0 <=? v) && (v <=? 255))%Z then Ok v
    else Throw (GenericError ("Invalid color channel " ++ label)) in
  match channel with
  | ChannelNumber v => checked v
  | ChannelText text =>
      match text with
      | [] => Throw (GenericError ("Invalid color channel " ++ label))
      | _ :: _ =>
          if forallb is_digit text then checked (decimal_value text)
          else Throw (GenericError ("Invalid color channel " ++ label))
      end
  end.

(* ------------------------------------------------------------------ *)
(** ** src/utils/kmlUtils.js: the icon URL grammar *)
(* ------------------------------------------------------------------ *)

Definition digits1 : regex := RMany false true is_digit.          (* \d+ *)

(** [/color\/(?<r>\d+),(?<g>\d+),(?<b>\d+)\/(?<name>[^/]+)-(?<size>\d+)@(?<scale>\d+)x\.png$/] *)
Definition legacyDefault_regex : regex :=
  rseq [ RLit (str "color/");
         RNamed "r" digits1; RLit (str ",");
         RNamed "g" digits1; RLit (str ",");
         RNamed "b" digits1; RLit (str "/");
         RNamed "name" (RMany false true not_slash); RLit (str "-");
         RNamed "size" digits1; RLit (str "@");
         RNamed "scale" digits1; RLit (str "x.png");
         REnd ].

(** [/images\/(?<set>\w+)\/(?<name>[^/]+)\.png$/] *)
Definition legacySet_regex : regex :=
  rseq [ RLit (str "images/");
         RNamed "set" (RMany false true is_word); RLit (str "/");
         RNamed "name" (RMany false true not_slash); RLit (str ".png");
         REnd ].

(** [/api\/icons\/sets\/(?<set>\w+)\/icons\/(?<name>.+?)(@(?<scale>\d+(\.\d+)?)x-(?<r>\d+),(?<g>\d+),(?<b>\d+))\.png/] *)
Definition set_regex : regex :=
  rseq [ RLit (str "api/icons/sets/");
         RNamed "set" (RMany false true is_word); RLit (str "/icons/");
         RNamed "name" (RMany true true any_char);
         RGroup
           (rseq [ RLit (str "@");
                   RNamed "scale"
                     (rseq [ digits1;
                             ROpt (RGroup (rseq [ RLit (str "."); digits1 ])) ]);
                   RLit (str "x-");
                   RNamed "r" digits1; RLit (str ",");
                   RNamed "g" digits1; RLit (str ",");
                   RNamed "b" digits1 ]);
         RLit (str ".png") ].

Definition channel_or (captured : option jsstring) (default : Z)
  : ChannelInput :=
  match captured with
  | Some text => ChannelText text
  | None => ChannelNumber default
  end.

Definition parseIconUrl (url : jsstring) : Eff LogEntry (option IconArgs) :=
  let legacyDefaultMatch := regex_exec legacyDefault_regex url in
  let legacySetMatch := regex_exec legacySet_regex url in
  let setMatch := regex_exec set_regex url in
  let match_ := nullish_opt legacyDefaultMatch (nullish_opt legacySetMatch setMatch) in
  match match_ with
  | None =>
      (emit (LogWarn "Could not retrieve icon infos from URL") ;;;
       ret None)%eff
  | Some groups =>
      let setName := nullish (group groups "set") (str "default") in
      let name := nullish (group groups "name") (str "unknown") in
      let isLegacy := is_some legacyDefaultMatch || is_some legacySetMatch in
      (r <- lift (parseRGBColor (channel_or (group groups "r") 255) "R") ;;
       g <- lift (parseRGBColor (channel_or (group groups "g") 0) "B") ;;
       b <- lift (parseRGBColor (channel_or (group groups "b") 0) "G") ;;
       ret (Some {| set := setName; name := name;
                    color := {| r := r; g := g; b := b |};
                    isLegacy := isLegacy |}))%eff
  end.

(* ------------------------------------------------------------------ *)
(** ** src/utils/kmlUtils.js: styles, icons, features *)
(* ------------------------------------------------------------------ *)

Section KmlUtils.

Context {N : Type} {JN : JsNumber N} {EX : Externals N}.

Definition LEGACY_ICON_XML_SCALE_FACTOR : N := num_lit 1.5.

(** [ol/extent], as OpenLayers defines [createEmpty], [extend] and
    [isEmpty]. *)
Definition emptyExtent : Extent N :=
  {| minx := num_infinity; miny := num_infinity;
     maxx := num_neg_infinity; maxy := num_neg_infinity |}.

Definition extendExtent (extent1 extent2 : Extent N) : Extent N :=
  {| minx := if num_ltb (minx extent2) (minx extent1)
             then minx extent2 else minx extent1;
     miny := if num_ltb (miny extent2) (miny extent1)
             then miny extent2 else miny extent1;
     maxx := if num_ltb (maxx extent1) (maxx extent2)
             then maxx extent2 else maxx extent1;
     maxy := if num_ltb (maxy extent1) (maxy extent2)
             then maxy extent2 else maxy extent1 |}.

Definition isExtentEmpty (extent : Extent N) : bool :=
  num_ltb (maxx extent) (minx extent) || num_ltb (maxy extent) (miny extent).

Definition getKmlExtent (content : jsstring) : option (Extent N) :=
  let features := kml_readFeatures content (epsg WGS84) (epsg WGS84) in
  let extent :=
    fold_left
      (fun extent feature =>
         extendExtent extent (geom_extent (feat_geometry feature)))
      features emptyExtent in
  if isExtentEmpty extent then None else Some extent.

(** Modelled from the spec: [getStyle] of featureStyleUtils.js, which is
    not part of the sources: the style the feature resolves to, or null
    ("the raw feature has no resolvable style"). *)
Definition getStyle (feature : Feature N) : option (Style N) :=
  feat_style feature.

(** Calling a method of [kmlFeature]: a TypeError unless it is an object
    that has the method. *)
Definition receiver (kmlFeature : FeatureArg N) : Eff LogEntry (Feature N) :=
  match kmlFeature with
  | NotAnObject =>
      throw (TypeError "Cannot read properties of null or undefined")
  | PlainObject => throw (TypeError "kmlFeature.get is not a function")
  | FeatureLike f => ret f
  | IsFeature f => ret f
  end.

(** [kmlFeature instanceof Feature] *)
Definition instanceof_Feature (kmlFeature : FeatureArg N) : bool :=
  match kmlFeature with IsFeature _ => true | _ => false end.

Definition image_scale (image : ImageStyle N) : N :=
  match image with
  | ImageIcon icon => icon_scale icon
  | ImageOther scale => scale
  end.

Definition getFeatureType (kmlFeature : FeatureArg N)
  : Eff LogEntry EditableFeatureTypes :=
  (feature <- receiver kmlFeature ;;
   let featureType :=
     option_map toUpperCase (feature_get (feat_properties feature) "type") in
   match
     find (fun t => option_string_eqb featureType (Some (type_value t)))
       EditableFeatureTypes_values
   with
   | Some t => ret t
   | None =>
       emit (LogError
         "Type of feature in kml not recognized, guessing it from geometry") ;;;
       let style := getStyle feature in
       let geometryType := geom_type (feat_geometry feature) in
       if jsstring_eqb geometryType (str "Point") then
         match option_map image_scale
                 (match style with
                  | Some s => style_image s
                  | None => None
                  end)
         with
         | Some scale =>
             if num_ltb (num_lit 0) scale then ret MARKER else ret ANNOTATION
         | None => ret ANNOTATION
         end
       else if jsstring_eqb geometryType (str "LineString") then
         ret LINEPOLYGON
       else if jsstring_eqb geometryType (str "Polygon") then
         ret LINEPOLYGON
       else
         emit (LogError
           "Could not guess the feature type, fallback to marker") ;;;
         ret MARKER
   end)%eff.

Definition getTextScale (style : Style N) : option N :=
  let textScale :=
    match style_text_scale style with
    | Some (Some scale) => Some scale
    | _ => None
    end in
  match textScale, default_text_scale with
  | Some scale, Some default_scale =>
      if num_eqb scale default_scale then Some (num_lit 1) else textScale
  | _, _ => textScale
  end.

Definition getIconStyle (style : option (Style N)) : option (IconStyle N) :=
  match style with
  | None => None
  | Some style =>
      match style_image style with
      | Some (ImageIcon icon) =>
          if match icon_src icon with
             | Some src => regex_test (RLit (str "google")) src
             | None => false
             end
             || option_string_eqb (icon_src icon) default_icon_src
          then None
          else Some icon
      | _ => None
      end
  end.

(** [anchor[0]], [anchor[1]] of an array that may be null. *)
Definition components (array : option (N * N)) : Eff LogEntry (N * N) :=
  match array with
  | Some xy => ret xy
  | None => throw (TypeError "Cannot read properties of null")
  end.

Definition jsstring_truthy (s : option jsstring) : bool :=
  match s with
  | Some (_ :: _) => true
  | _ => false
  end.

Definition generateIconFromStyle (iconStyle : option (IconStyle N))
  (iconArgs : option IconArgs) : Eff LogEntry (option (DrawingIcon N)) :=
  match iconStyle, iconArgs with
  | Some iconStyle, Some iconArgs =>
      (* iconStyle.setDisplacement([0, 0]) *)
      let iconStyle :=
        {| icon_src := icon_src iconStyle;
           icon_scale := icon_scale iconStyle;
           icon_size := icon_size iconStyle;
           icon_anchor := icon_anchor iconStyle;
           icon_displacement := (num_lit 0, num_lit 0) |} in
      let url := icon_src iconStyle in
      let size := icon_size iconStyle in
      let anchor := icon_anchor iconStyle in
      (anchor <-
         try_catch
           (a <- components anchor ;;
            s <- components size ;;
            ret (num_div (fst a) (fst s), num_div (snd a) (snd s)))
           (fun error =>
              emit (LogError "Failed to compute icon anchor") ;;;
              ret (num_lit 0, num_lit 0)) ;;
       ret (if jsstring_truthy url then
              Some {| di_name := name iconArgs;
                      di_imageURL := nullish url [];
                      di_imageTemplateURL := nullish url [];
                      di_iconSetName := set iconArgs;
                      di_anchor := anchor |}
            else None))%eff
  | _, _ => ret None
  end.

Definition getIcon (iconArgs : option IconArgs)
  (iconStyle : option (IconStyle N))
  (availableIconSets : option (list (DrawingIconSet N)))
  : Eff LogEntry (option (DrawingIcon N)) :=
  match iconArgs with
  | None => ret None
  | Some args =>
      match availableIconSets with
      | None =>
          (emit (LogError "Iconset not yet available fallback to default icon") ;;;
           generateIconFromStyle iconStyle iconArgs)%eff
      | Some sets =>
          match
            find (fun drawingIconSet =>
                    jsstring_eqb (dis_name drawingIconSet) (set args)) sets
          with
          | None =>
              (emit (LogError "Iconset not found, fallback to default icon") ;;;
               generateIconFromStyle iconStyle iconArgs)%eff
          | Some iconSet =>
              let namePrefix :=
                if isLegacy args then str "(\d+-)?" else [] in
              (nameRegex <-
                 lift (RegExp_new
                         (str "^" ++ namePrefix ++ name args ++ str "$")) ;;
               match
                 find (fun drawingIcon => nameRegex (di_name drawingIcon))
                   (dis_icons iconSet)
               with
               | None =>
                   emit (LogError
                     "Can not find icon in set, fallback to default icon") ;;;
                   generateIconFromStyle iconStyle iconArgs
               | Some icon => ret (Some icon)
               end)%eff
          end
      end
  end.

Definition getIconSize (iconStyle : IconStyle N) : FeatureStyleSize N :=
  let iconScale := icon_scale iconStyle in
  if num_truthy iconScale then
    nullish
      (find (fun size => num_eqb (size_iconScale size) iconScale)
         allStylingSizes)
      SMALL
  else SMALL.

Definition num_of_Z (z : Z) : N := num_lit (inject_Z z).

Definition getFillColor (style : Style N) (geometryType : jsstring)
  (iconArgs : option IconArgs) : FeatureStyleColor :=
  match
    (if jsstring_eqb geometryType (str "Point") then iconArgs else None)
  with
  | Some args =>
      getFeatureStyleColor
        (ColorArray [ num_of_Z (r (color args)); num_of_Z (g (color args));
                      num_of_Z (b (color args)) ])
  | None =>
      match
        (if jsstring_eqb geometryType (str "LineString")
            || jsstring_eqb geometryType (str "Point")
         then style_stroke style else None)
      with
      | Some strokeColor => getFeatureStyleColor strokeColor
      | None =>
          match
            (if jsstring_eqb geometryType (str "Polygon")
             then style_fill style else None)
          with
          | Some fillColor => getFeatureStyleColor fillColor
          | None => RED
          end
      end
  end.

(** [coordinates[0]]: undefined past the end, and on a number. *)
Definition index0 (coordinates : Coords N) : option (Coords N) :=
  match coordinates with
  | CArr (first :: _) => Some first
  | _ => None
  end.

Definition getKmlFeatureCoordinates (feature : Feature N)
  : option (Coords N) :=
  let coordinates := geom_coordinates (feat_geometry feature) in
  if jsstring_eqb (geom_type (feat_geometry feature)) (str "Polygon") then
    index0 coordinates
  else Some coordinates.

Definition getEditableFeatureFromKmlFeature (kmlFeature : FeatureArg N)
  (availableIconSets : option (list (DrawingIconSet N)))
  : Eff LogEntry (option (EditableFeature N)) :=
  (featureType <- getFeatureType kmlFeature ;;
   match kmlFeature with
   | IsFeature feature =>
       match getStyle feature with
       | None =>
           emit (LogError
             "Parsing error: Could not get the style from the ol Feature") ;;;
           ret None
       | Some style =>
           let featureId := feat_id feature in
           let title :=
             nullish (feature_get (feat_properties feature) "name") [] in
           let textScale := getTextScale style in
           let textSize := getTextSize textScale in
           let textColor := getTextColor style in
           let description :=
             nullish (feature_get (feat_properties feature) "description") [] in
           let iconStyle := getIconStyle (Some style) in
           iconArgs <-
             match iconStyle with
             | Some icon =>
                 parseIconUrl (nullish (icon_src icon) (str "undefined"))
             | None => ret None
             end ;;
           (* iconStyle.setScale(iconStyle.getScale() * factor) *)
           let iconStyle :=
             match iconStyle, iconArgs with
             | Some icon, Some args =>
                 if isLegacy args then
                   Some {| icon_src := icon_src icon;
                           icon_scale :=
                             num_mul (icon_scale icon)
                               LEGACY_ICON_XML_SCALE_FACTOR;
                           icon_size := icon_size icon;
                           icon_anchor := icon_anchor icon;
                           icon_displacement := icon_displacement icon |}
                 else iconStyle
             | _, _ => iconStyle
             end in
           icon <-
             match iconArgs with
             | Some _ => getIcon iconArgs iconStyle availableIconSets
             | None => ret None
             end ;;
           let iconSize := option_map getIconSize iconStyle in
           let fillColor :=
             getFillColor style (geom_type (feat_geometry feature)) iconArgs in
           let geometry :=
             {| gj_type := geom_type (feat_geometry feature);
                gj_coordinates := geom_coordinates (feat_geometry feature) |} in
           let coordinates := getKmlFeatureCoordinates feature in
           ret (Some {| ef_id := featureId;
                        ef_featureType := Some featureType;
                        ef_title := Some title;
                        ef_description := Some description;
                        ef_coordinates := coordinates;
                        ef_geometry := Some geometry;
                        ef_textColor := Some textColor;
                        ef_textSize := Some textSize;
                        ef_fillColor := Some fillColor;
                        ef_icon := icon;
                        ef_iconSize := iconSize |})
       end
   | _ =>
       emit (LogError "Cannot generate EditableFeature from KML feature") ;;;
       ret None
   end)%eff.





End KmlUtils.

(* ------------------------------------------------------------------ *)
(** ** addPrimitiveLayer-mixins.js: sniffing and dispatching a file *)
(* ------------------------------------------------------------------ *)

(** [/<kml/.test(fileContent) && /<\/kml\s*>/.test(fileContent)] *)
Definition isKml (fileContent : jsstring) : bool :=
  regex_test (RLit (str "<kml")) fileContent
  && regex_test
       (rseq [ RLit (str "</kml"); RMany false false is_space; RLit (str ">") ])
       fileContent.

(** [/<gpx/.test(fileContent) && /<\/gpx\s*>/.test(fileContent)] *)
Definition isGpx (fileContent : jsstring) : bool :=
  regex_test (RLit (str "<gpx")) fileContent
  && regex_test
       (rseq [ RLit (str "</gpx"); RMany false false is_space; RLit (str ">") ])
       fileContent.

(** Modelled from the spec: the two external layer classes
    (KMLLayer.class, GPXLayer.class.js are not part of the sources), with
    the constructor arguments that [handleFileContent] passes. *)
Record KMLLayer (N : Type) : Type := {
  kml_fileSource : jsstring;
  kml_visible : bool;
  kml_opacity : N;
  kml_adminId : option jsstring;
  kml_data : jsstring
}.

Record GPXLayer (N : Type) : Type := {
  gpx_fileSource : jsstring;
  gpx_visible : bool;
  gpx_opacity : N;
  gpx_data : jsstring;
  gpx_metadata : GpxMetadata
}.

Inductive ExternalLayer (N : Type) : Type :=
| LayerKML (layer : KMLLayer N)
| LayerGPX (layer : GPXLayer N).

(** [store.dispatch(action, payload)] *)
Inductive StoreAction (N : Type) : Type :=
| ZoomToExtent (extent : option (Extent N))
| AddLayer (layer : ExternalLayer N).

(** [store.state.position.projection] *)
Record Store : Type := { state_position_projection : CoordinateSystem }.

Section FileImport.

Context {N : Type} {JN : JsNumber N} {EX : Externals N}.

Definition handleFileContent (store : Store) (content source : jsstring)
  : Eff (StoreAction N) (ExternalLayer N) :=
  if isKml content then
    let layer :=
      LayerKML {| kml_fileSource := source; kml_visible := true;
                  kml_opacity := num_lit 1.0; kml_adminId := None;
                  kml_data := content |} in
    match getKmlExtent content with
    | None => throw EmptyKMLError
    | Some extent =>
        match getExtentForProjection (state_position_projection store) extent
        with
        | None => throw (OutOfBoundsError "KML out of projection bounds")
        | Some projectedExtent =>
            (emit (ZoomToExtent (Some projectedExtent)) ;;;
             emit (AddLayer layer) ;;;
             ret layer)%eff
        end
    end
  else if isGpx content then
    let metadata := gpx_readMetadata content in
    let layer :=
      LayerGPX {| gpx_fileSource := source; gpx_visible := true;
                  gpx_opacity := num_lit 1.0; gpx_data := content;
                  gpx_metadata := metadata |} in
    let extent :=
      getExtentForProjection (state_position_projection store)
        (gpx_bbox content) in
    (emit (ZoomToExtent extent) ;;;
     emit (AddLayer layer) ;;;
     ret layer)%eff
  else throw (GenericError "Unsupported file content").

End FileImport.

(* ------------------------------------------------------------------ *)
(** ** src/api/profile.api.js: the request *)
(* ------------------------------------------------------------------ *)

(** One sample of the backend answer: [{dist, easting, northing, alts: {COMB}}]. *)
Record RawSample (N : Type) : Type := {
  raw_dist : N;
  raw_easting : N;
  raw_northing : N;
  raw_alts_COMB : N
}.

(** [response.data]: the parsed JSON array, or the CSV text. *)
Inductive ResponseData (N : Type) : Type :=
| JsonSamples (samples : list (RawSample N))
| CsvText (text : jsstring).

Arguments CsvText {N} text.

(** How the axios promise ends. *)
Inductive AxiosResult (N : Type) : Type :=
| AxiosResponse (data : option (ResponseData N))
| AxiosError (error : JsError).

Arguments AxiosError {N} error.

(** What is observable of a call of [profile]. *)
Inductive ProfileEvent (N : Type) : Type :=
| ProfileLog (entry : LogEntry)
| HttpPost (url : jsstring) (sr : Z) (coordinates : option (list (N * N))).

Arguments ProfileLog {N} entry.

Inductive Resolved (N : Type) : Type :=
| ResolvedProfile (profile : list (ProfilePoint N))
| ResolvedData (data : ResponseData N).

Inductive Reason : Type :=
| ReasonMessage (msg : string)
| ReasonError (error : JsError).

Inductive PromiseState (N : Type) : Type :=
| Pending
| Fulfilled (value : Resolved N)
| Rejected (reason : Reason).

Arguments Pending {N}.
Arguments Rejected {N} reason.

(** The promise under construction and the events so far. *)
Record PromiseRun (N : Type) : Type := {
  settled : PromiseState N;
  events : list (ProfileEvent N)
}.

Section ProfileRequest.

Context {N : Type} {JN : JsNumber N} {EX : Externals N}.

Definition log_error (msg : string) (run : PromiseRun N) : PromiseRun N :=
  {| settled := settled run;
     events := events run ++ [ProfileLog (LogError msg)] |}.

(** [resolve] and [reject] settle a pending promise and do nothing to a
    settled one. *)
Definition reject (reason : Reason) (run : PromiseRun N) : PromiseRun N :=
  {| settled := match settled run with
                | Pending => Rejected reason
                | state => state
                end;
     events := events run |}.

Definition resolve (value : Resolved N) (run : PromiseRun N) : PromiseRun N :=
  {| settled := match settled run with
                | Pending => Fulfilled value
                | state => state
                end;
     events := events run |}.

Definition axios_post (url : jsstring) (sr : Z)
  (coordinates : option (list (N * N))) (run : PromiseRun N) : PromiseRun N :=
  {| settled := settled run;
     events := events run ++ [HttpPost url sr coordinates] |}.

Definition parseProfileFromBackendResponse (backendResponse : ResponseData N)
  : Outcome (list (ProfilePoint N)) :=
  match backendResponse with
  | JsonSamples samples =>
      Ok (map (fun rawData =>
                 {| dist := raw_dist rawData;
                    coordinate := (raw_easting rawData, raw_northing rawData);
                    elevation := raw_alts_COMB rawData |})
            samples)
  | CsvText _ => Throw (TypeError "backendResponse.forEach is not a function")
  end.

Definition data_truthy (data : option (ResponseData N)) : bool :=
  match data with
  | None => false
  | Some (CsvText []) => false
  | Some _ => true
  end.

Definition profile (coordinates : option (list (N * N)))
  (fileExtension : option jsstring)
  (backend : jsstring -> option (list (N * N)) -> AxiosResult N)
  : PromiseRun N :=
  let fileExtension := nullish fileExtension (str ".json") in
  let run := {| settled := Pending; events := [] |} in
  let run :=
    if negb (jsstring_eqb fileExtension (str ".json"))
       && negb (jsstring_eqb fileExtension (str ".csv"))
    then
      let errorMessage := "Not supported file extension"%string in
      reject (ReasonMessage errorMessage) (log_error errorMessage run)
    else run in
  let run :=
    if match coordinates with
       | None => true
       | Some l => (length l =? 0)%nat
       end
    then
      let errorMessage := "Coordinates not provided"%string in
      reject (ReasonMessage errorMessage) (log_error errorMessage run)
    else run in
  let url :=
    API_SERVICE_ALTI_BASE_URL ++ str "rest/services/profile" ++ fileExtension in
  let run := axios_post url LV95_epsgNumber coordinates run in
  let on_error (error : JsError) (run : PromiseRun N) :=
    reject (ReasonError error) (log_error "Error while getting profile" run) in
  match backend url coordinates with
  | AxiosResponse data =>
      if data_truthy data then
        match data with
        | Some data =>
            if jsstring_eqb fileExtension (str ".json") then
              match parseProfileFromBackendResponse data with
              | Ok parsed => resolve (ResolvedProfile parsed) run
              | Throw error => on_error error run
              end
            else resolve (ResolvedData data) run
        | None => run
        end
      else
        let msg := "Incorrect response while getting profile"%string in
        reject (ReasonMessage msg) (log_error msg run)
  | AxiosError error => on_error error run
  end.

Definition profileJson coordinates backend :=
  profile coordinates (Some (str ".json")) backend.

Definition profileCsv coordinates backend :=
  profile coordinates (Some (str ".csv")) backend.

(** An HTTP request was issued during the run. *)
Definition request_issued (run : PromiseRun N) : bool :=
  existsb (fun e => match e with HttpPost _ _ _ => true | _ => false end)
    (events run).

End ProfileRequest.

(* ------------------------------------------------------------------ *)
(** ** An environment to evaluate the functions in *)
(* ------------------------------------------------------------------ *)

Section ExampleEnvironment.

Context {N : Type} {JN : JsNumber N}.

Definition example_size (label : string) (scale : Q) : FeatureStyleSize N :=
  {| size_label := label; size_textScale := num_lit scale;
     size_iconScale := num_lit scale |}.

Definition example_red : FeatureStyleColor :=
  {| color_name := "red"; color_fill := str "#ff0000" |}.

(** An environment whose KML reader answers [features] for every content,
    whose presets are four sizes and one colour, which keeps every extent
    as it is, and whose [RegExp] reads a pattern as [^literal$]. *)
Definition example_externals (features : list (Feature N)) : Externals N :=
  {| kml_readFeatures := fun _ _ _ => features;
     default_text_scale := Some (num_lit 0.8);
     default_icon_src :=
       Some (str "https://maps.google.com/mapfiles/kml/pushpin/ylw-pushpin.png");
     WGS84 := {| epsg := str "EPSG:4326" |};
     allStylingSizes :=
       [ example_size "small" 1; example_size "medium" 1.5;
         example_size "large" 2; example_size "extra_large" 2.5 ];
     SMALL := example_size "small" 1;
     RED := example_red;
     getFeatureStyleColor := fun _ => example_red;
     getTextColor := fun _ => example_red;
     getTextSize := fun _ => example_size "medium" 1.5;
     RegExp_new :=
       fun pattern =>
         Ok (fun s => jsstring_eqb (str "^" ++ s ++ str "$") pattern);
     getExtentForProjection := fun _ extent => Some extent;
     gpx_readMetadata := fun _ => {| gpx_name := None |};
     gpx_bbox :=
       fun _ => {| minx := num_lit 0; miny := num_lit 0;
                   maxx := num_lit 1; maxy := num_lit 1 |};
     API_SERVICE_ALTI_BASE_URL := str "https://api3.geo.admin.ch/";
     LV95_epsgNumber := 2056 |}.

End ExampleEnvironment.

(* ------------------------------------------------------------------ *)
(** ** The vocabulary of the properties, and example data *)
(* ------------------------------------------------------------------ *)

(** *** Geometries *)




(** *** The profile request *)

Section ProfileRequestVocabulary.

Context {N : Type} {JN : JsNumber N} {EX : Externals N}.

(** The arguments that the validation at the head of [profile] refuses. *)
Definition invalid_request (coordinates : option (list (N * N)))
  (fileExtension : option jsstring) : Prop :=
  coordinates = None \/ coordinates = Some []
  \/ (nullish fileExtension (str ".json") <> str ".json"
      /\ nullish fileExtension (str ".json") <> str ".csv").

Definition validation_message (msg : string) : Prop :=
  msg = "Not supported file extension"%string
  \/ msg = "Coordinates not provided"%string.

End ProfileRequestVocabulary.

(** *** File import *)

Section FileImportVocabulary.

Context {N : Type} {JN : JsNumber N} {EX : Externals N}.


End FileImportVocabulary.



(** *** Icons and placemarks *)

Section IconAnchorVocabulary.

Context {N : Type} {JN : JsNumber N}.

Definition synthesized_icon (iconArgs : IconArgs) (url : jsstring)
  (anchor : N * N) : DrawingIcon N :=
  {| di_name := name iconArgs; di_imageURL := url;
     di_imageTemplateURL := url; di_iconSetName := set iconArgs;
     di_anchor := anchor |}.

End IconAnchorVocabulary.

Definition marker_args : IconArgs :=
  {| set := str "default"; name := str "marker";
     color := {| r := 255; g := 0; b := 0 |}; isLegacy := false |}.

Definition external_pin_url : jsstring := str "https://example.com/pin.png".

(** An icon 32 pixels wide and high, anchored at its centre. *)
Definition centred_icon : IconStyle float :=
  {| icon_src := Some external_pin_url; icon_scale := 1%float;
     icon_size := Some (32, 32)%float; icon_anchor := Some (16, 16)%float;
     icon_displacement := (0, 0)%float |}.

(** An icon whose size is not known yet. *)
Definition unloaded_icon : IconStyle float :=
  {| icon_src := Some external_pin_url; icon_scale := 1%float;
     icon_size := None; icon_anchor := None;
     icon_displacement := (0, 0)%float |}.

(** An icon whose reported width is zero. *)
Definition zero_width_icon : IconStyle float :=
  {| icon_src := Some external_pin_url; icon_scale := 1%float;
     icon_size := Some (0, 32)%float; icon_anchor := Some (16, 16)%float;
     icon_displacement := (0, 0)%float |}.

Definition point_geometry : Geometry float :=
  {| geom_type := str "Point";
     geom_coordinates := CArr [CNum 7.5; CNum 46.75]%float;
     geom_extent := {| minx := 7.5; miny := 46.75;
                       maxx := 7.5; maxy := 46.75 |}%float |}.

Definition icon_style_of (url : jsstring) : Style float :=
  {| style_text_scale := None;
     style_image :=
       Some (ImageIcon
               {| icon_src := Some url; icon_scale := 1%float;
                  icon_size := Some (48, 48)%float;
                  icon_anchor := Some (24, 24)%float;
                  icon_displacement := (0, 0)%float |});
     style_stroke := None;
     style_fill := None |}.



(** *** Extents *)

(** [a <= b] between two numbers, neither of them NaN. *)
Definition xleb (a b : xnum) : bool :=
  negb (xis_nan a) && negb (xis_nan b) && negb (xltb b a).







Section KmlExtentVocabulary.

Context {EX : Externals xnum}.


End KmlExtentVocabulary.


(** *** Profiles *)

Definition sample (d e : float) : ProfilePoint float :=
  {| dist := d; coordinate := (0, d)%float; elevation := e |}.

(** Three samples of a descent: 2618.9 m, 1427.8 m and 483.3 m, as the
    doubles that these decimal numbers denote. *)
Definition descent_profile : list (ProfilePoint float) :=
  [ sample 0 0x1.475cccccccccdp+11;
    sample 1000 0x1.64f3333333333p+10;
    sample 2000 0x1.e34cccccccccdp+8 ]%float.

(** The elevation of a point as a rational (0 where it is not finite). *)
Definition elev_q (p : ProfilePoint xnum) : Q :=
  match elevation p with XFin q => q | _ => 0 end.

Definition finite_elevation (p : ProfilePoint xnum) : Prop :=
  xfinite (elevation p).

(** [Math.max(d, 0)] and [Math.min(d, 0)] on a rational. *)
Definition pos_part (d : Q) : Q := if Qltb d 0 then 0 else d.
Definition neg_part (d : Q) : Q := if Qltb 0 d then 0 else d.

(** The two accumulations, on the rational elevations. *)
Fixpoint ascent_from (acc prev : Q) (rest : list Q) : Q :=
  match rest with
  | [] => acc
  | x :: rest' => ascent_from (acc + pos_part (x - prev)) x rest'
  end.

Fixpoint descent_from (acc prev : Q) (rest : list Q) : Q :=
  match rest with
  | [] => acc
  | x :: rest' => descent_from (acc - neg_part (x - prev)) x rest'
  end.

(** The two [reduce] callbacks of the code. *)
Definition ascent_step (totalAscent : xnum) (currentPoint : ProfilePoint xnum)
  (currentIndex : nat) (points : list (ProfilePoint xnum)) : xnum :=
  if (currentIndex =? 0)%nat then totalAscent
  else
    num_add totalAscent
      (num_max
         (num_sub (elevation currentPoint)
            (elevation (point_at points (currentIndex - 1) currentPoint)))
         (num_lit 0)).

Definition descent_step (totalDescent : xnum) (currentPoint : ProfilePoint xnum)
  (currentIndex : nat) (points : list (ProfilePoint xnum)) : xnum :=
  if (currentIndex =? 0)%nat then totalDescent
  else
    num_sub totalDescent
      (num_min
         (num_sub (elevation currentPoint)
            (elevation (point_at points (currentIndex - 1) currentPoint)))
         (num_lit 0)).

Definition exact_sample (d e : Q) : ProfilePoint xnum :=
  {| dist := XFin d; coordinate := (XFin 0, XFin d); elevation := XFin e |}.

(** The same three samples as [descent_profile], as exact decimals. *)
Definition exact_descent_profile : list (ProfilePoint xnum) :=
  [ exact_sample 0 2618.9; exact_sample 1000 1427.8;
    exact_sample 2000 483.3 ].



(** Five samples with a flat stretch, a steep climb and a final pair that
    the computation leaves out. *)
Definition hike : list (ProfilePoint xnum) :=
  [ exact_sample 0 100; exact_sample 1000 150; exact_sample 2000 120;
    exact_sample 2000 130; exact_sample 2100 500 ].

(** *** Icon URLs *)

Unset Implicit Arguments.

(** A non-empty run of decimal digits. *)
Definition numeral (digits : jsstring) : Prop :=
  digits <> [] /\ forallb is_digit digits = true.

(** A numeral that denotes a colour channel. *)
Definition channel (digits : jsstring) : Prop :=
  numeral digits /\ (decimal_value digits <= 255)%Z.

(** [parseIconUrl] past its three [exec] calls. *)
Definition parseIconUrl_with (legacyDefaultMatch legacySetMatch setMatch
  : option Captures) : Eff LogEntry (option IconArgs) :=
  let match_ :=
    nullish_opt legacyDefaultMatch (nullish_opt legacySetMatch setMatch) in
  match match_ with
  | None =>
      (emit (LogWarn "Could not retrieve icon infos from URL") ;;;
       ret None)%eff
  | Some groups =>
      let setName := nullish (group groups "set") (str "default") in
      let name := nullish (group groups "name") (str "unknown") in
      let isLegacy := is_some legacyDefaultMatch || is_some legacySetMatch in
      (r <- lift (parseRGBColor (channel_or (group groups "r") 255) "R") ;;
       g <- lift (parseRGBColor (channel_or (group groups "g") 0) "B") ;;
       b <- lift (parseRGBColor (channel_or (group groups "b") 0) "G") ;;
       ret (Some {| set := setName; name := name;
                    color := {| r := r; g := g; b := b |};
                    isLegacy := isLegacy |}))%eff
  end.

(** The three grammars, as generators of URLs. *)
Definition legacy_colored_url (prefix r g b name size scale : jsstring)
  : jsstring :=
  prefix ++ str "color/" ++ r ++ str "," ++ g ++ str "," ++ b ++ str "/"
  ++ name ++ str "-" ++ size ++ str "@" ++ scale ++ str "x.png".

Definition legacy_set_url (prefix set name : jsstring) : jsstring :=
  prefix ++ str "images/" ++ set ++ str "/" ++ name ++ str ".png".

(** The scale of a current URL: an integer part and, optionally, a
    fractional part. *)
Definition scale_text (whole : jsstring) (fraction : option jsstring)
  : jsstring :=
  whole ++ match fraction with
           | Some digits => str "." ++ digits
           | None => []
           end.

Definition current_url (prefix set name whole : jsstring)
  (fraction : option jsstring) (r g b : jsstring) : jsstring :=
  prefix ++ str "api/icons/sets/" ++ set ++ str "/icons/" ++ name
  ++ str "@" ++ scale_text whole fraction ++ str "x-"
  ++ r ++ str "," ++ g ++ str "," ++ b ++ str ".png".

Definition other_than (c : ascii) (x : ascii) : bool := negb (ascii_eqb x c).

(** The characters of an icon name in a generated current URL: anything
    that [.] matches, except the two separators. *)
Definition icon_name_char (c : ascii) : bool :=
  any_char c && not_slash c && other_than "@" c.

(** [text] starts nowhere inside [prefix] (not even when it runs over the
    end of [prefix] into a following [text]). *)
Fixpoint no_start_in (text prefix : jsstring) : bool :=
  match prefix with
  | [] => true
  | _ :: prefix' =>
      negb (is_some (strip_prefix text (prefix ++ text)))
      && no_start_in text prefix'
  end.

(** [s] ends with [suffix]. *)
Definition has_suffix (suffix s : jsstring) : bool :=
  is_some (strip_prefix (rev suffix) (rev s)).

(** A fractional part, when there is one, is a numeral. *)
Definition fraction_ok (fraction : option jsstring) : Prop :=
  match fraction with
  | Some digits => numeral digits
  | None => True
  end.

(** The characters of a scale: digits and the decimal point. *)
Definition scale_char (c : ascii) : bool := is_digit c || ascii_eqb c ".".

(** The tail of a current URL, from the set name on. *)
Definition current_tail (set name scale r g b : jsstring) : jsstring :=
  set ++ str "/icons/" ++ name ++ str "@" ++ scale ++ str "x-"
  ++ r ++ str "," ++ g ++ str "," ++ b ++ str ".png".

Set Implicit Arguments.

(* ------------------------------------------------------------------ *)
(** ** src/api/profile.api.js: the other getters of a profile *)
(* ------------------------------------------------------------------ *)

Section GeoAdminProfileStatistics.

Context {N : Type} {JN : JsNumber N}.

(** [Math.max(...values)] and [Math.min(...values)]: the arguments are
    taken in one after the other, from [-Infinity] (from [Infinity]) on. *)
Definition Math_max (values : list N) : N :=
  fold_left num_max values num_neg_infinity.

Definition Math_min (values : list N) : N :=
  fold_left num_min values num_infinity.

(** [(this.hasData && this.points[this.length - 1].dist) || 0]; [None]
    stands for the [false] that [&&] yields without data. *)
Definition maxDist (points : list (ProfilePoint N)) : N :=
  let lastDist :=
    match points with
    | [] => None
    | first :: _ =>
        if hasData points
        then Some (dist (point_at points (profile_length points - 1) first))
        else None
    end in
  match lastDist with
  | Some d => if num_truthy d then d else num_lit 0
  | None => num_lit 0
  end.

Definition maxElevation (points : list (ProfilePoint N)) : N :=
  if negb (hasData points) then num_lit 0
  else Math_max (map (fun point => elevation point) points).

Definition minElevation (points : list (ProfilePoint N)) : N :=
  if negb (hasData points) then num_lit 0
  else Math_min (map (fun point => elevation point) points).

Definition coordinates (points : list (ProfilePoint N)) : list (N * N) :=
  map (fun point => coordinate point) points.

End GeoAdminProfileStatistics.

(** *** Vocabulary *)

(** The point that a backend sample becomes. *)
Definition point_of_sample {N : Type} (rawData : RawSample N) : ProfilePoint N :=
  {| dist := raw_dist rawData;
     coordinate := (raw_easting rawData, raw_northing rawData);
     elevation := raw_alts_COMB rawData |}.

(** The two file extensions that [profile] accepts. *)
Definition accepted_extension (fileExtension : jsstring) : Prop :=
  fileExtension = str ".json" \/ fileExtension = str ".csv".

(** One sample at 4000 m. *)
Definition lone_summit : list (ProfilePoint xnum) := [ exact_sample 0 4000 ].

(** Two samples of the backend. *)
Definition two_samples : list (RawSample xnum) :=
  [ {| raw_dist := XFin 0; raw_easting := XFin 2600000;
       raw_northing := XFin 1200000; raw_alts_COMB := XFin 550 |};
    {| raw_dist := XFin 100; raw_easting := XFin 2600100;
       raw_northing := XFin 1200000; raw_alts_COMB := XFin 560 |} ].

(* ------------------------------------------------------------------ *)
(** ** src/utils/kmlUtils.js: vocabulary of further properties *)
(* ------------------------------------------------------------------ *)

(** [text] occurs in [s]. *)
Definition contains (text s : jsstring) : Prop :=
  exists before after, s = before ++ text ++ after.


(** The icon set "default" with one icon. *)
Definition catalogue_icon : DrawingIcon float :=
  {| di_name := str "001-marker";
     di_imageURL :=
       str "https://map.geo.admin.ch/api/icons/sets/default/icons/001-marker@1x-255,0,0.png";
     di_imageTemplateURL :=
       str "https://map.geo.admin.ch/api/icons/sets/default/icons/001-marker@{icon_scale}-{r},{g},{b}.png";
     di_iconSetName := str "default";
     di_anchor := (0.5, 1)%float |}.

Definition catalogue : list (DrawingIconSet float) :=
  [ {| dis_name := str "default"; dis_icons := [catalogue_icon] |} ].

Definition catalogue_args : IconArgs :=
  {| set := str "default"; name := str "001-marker";
     color := {| r := 255; g := 0; b := 0 |}; isLegacy := false |}.

(** [iconStyle.setScale(scale)] *)
Definition setScale {N : Type} (iconStyle : IconStyle N) (scale : N)
  : IconStyle N :=
  {| icon_src := icon_src iconStyle;
     icon_scale := scale;
     icon_size := icon_size iconStyle;
     icon_anchor := icon_anchor iconStyle;
     icon_displacement := icon_displacement iconStyle |}.

(** One of the two legacy patterns matches the URL. *)
Definition legacy_source (url : jsstring) : bool :=
  is_some (regex_exec legacyDefault_regex url)
  || is_some (regex_exec legacySet_regex url).

(** A placemark of a legacy drawing: an icon of the set "babs" at the scale
    1 of the old viewer. *)
Definition legacy_marker : Feature float :=
  {| feat_id := Some (str "marker-3");
     feat_properties := [("type"%string, str "marker")];
     feat_geometry := point_geometry;
     feat_style :=
       Some (icon_style_of (str "https://api3.geo.admin.ch/images/babs/babs-3.png")) |}.



(** [s] ends with [suffix]. *)
Definition ends_with (suffix s : jsstring) : Prop :=
  exists before, s = before ++ suffix.

(* ------------------------------------------------------------------ *)
(** ** File import: vocabulary of further properties *)
(* ------------------------------------------------------------------ *)

(** [s] holds the closing tag of [tag], with optional white space before
    its [>]. *)
Definition closes (tag s : jsstring) : Prop :=
  exists before space after,
    s = before ++ (str "</" ++ tag) ++ space ++ str ">" ++ after
    /\ forallb is_space space = true.

(** The source and the data of a layer. *)
Definition layer_source {N : Type} (layer : ExternalLayer N) : jsstring :=
  match layer with
  | LayerKML kml => kml_fileSource kml
  | LayerGPX gpx => gpx_fileSource gpx
  end.

Definition layer_data {N : Type} (layer : ExternalLayer N) : jsstring :=
  match layer with
  | LayerKML kml => kml_data kml
  | LayerGPX gpx => gpx_data gpx
  end.

(* ------------------------------------------------------------------ *)
(** ** src/utils/layerUtils.js *)
(* ------------------------------------------------------------------ *)

(** A coordinate system with the resolutions of its zoom levels
    ([projection.getResolutions()]). *)
Record ZoomableSystem (N : Type) : Type := {
  zs_system : CoordinateSystem;
  getResolutions : list N
}.

Section LayerUtils.

Context {N : Type} {JN : JsNumber N}.

(** [array.indexOf(value)]: the first index whose element is [===] to the
    value, or -1. *)
Fixpoint indexOf_from (values : list N) (value : N) (index : Z) : Z :=
  match values with
  | [] => (-1)%Z
  | v :: rest =>
      if num_eqb v value then index else indexOf_from rest value (index + 1)%Z
  end.

Definition indexOf (values : list N) (value : N) : Z :=
  indexOf_from values value 0%Z.

Definition indexOfMaxResolution (projection : ZoomableSystem N)
  (layerMaxResolution : N) : Z :=
  let indexOfResolution :=
    indexOf (getResolutions projection) layerMaxResolution in
  if (indexOfResolution =? -1)%Z
  then Z.of_nat (length (getResolutions projection))
  else indexOfResolution.

End LayerUtils.

(** The element of an array at an index that is in range. *)
Definition at_index {A : Type} (values : list A) (index : Z) : option A :=
  if (index <? 0)%Z then None else nth_error values (Z.to_nat index).

(* ------------------------------------------------------------------ *)
(** ** src/api/layers/WMTSCapabilitiesParser.class.js *)
(* ------------------------------------------------------------------ *)

(** The nodes of a parsed capabilities document, as the OpenLayers parser
    hands them over; an absent property is [None]. *)
Record CapBoundingBox (N : Type) : Type := {
  bbox_crs : option jsstring;
  bbox_extent : list N
}.

Record CapTileMatrixSetLink : Type := {
  link_TileMatrixSet : option jsstring
}.

Record CapLayer (N : Type) : Type := {
  Identifier : option jsstring;
  Title : option jsstring;
  Abstract : option jsstring;
  WGS84BoundingBox : option (list N);
  BoundingBox : option (list (CapBoundingBox N));
  TileMatrixSetLink : option (list CapTileMatrixSetLink)
}.

Record CapTileMatrixSet (N : Type) : Type := {
  tms_Identifier : option jsstring;
  tms_SupportedCRS : option jsstring;
  tms_BoundingBox : option (list N)
}.

(** The parser object: the capabilities assigned to [this] and the origin
    URL ([originUrl.toString()], [originUrl.hostname]). *)
Record WMTSCapabilitiesParser (N : Type) : Type := {
  cap_version : option jsstring;
  Contents_Layer : list (CapLayer N);
  Contents_TileMatrixSet : option (list (CapTileMatrixSet N));
  (* OperationsMetadata?.GetCapabilities?.DCP?.HTTP?.Get[0]?.href *)
  GetCapabilities_href : option jsstring;
  ServiceProvider_ProviderName : option jsstring;
  ServiceProvider_ProviderSite : option jsstring;
  originUrl_toString : jsstring;
  originUrl_hostname : jsstring
}.

(** A point that may lack a component ([box[i]] past the end of [box]). *)
Definition CapPoint (N : Type) : Type := (option N * option N)%type.





(** What the parser imports: the list of the coordinate systems of the
    application, WGS84 among them, and [proj4]. *)
Class CapabilitiesExternals (N : Type) : Type := {
  allCoordinateSystems : list CoordinateSystem;
  capabilities_WGS84 : CoordinateSystem;
  proj4 : jsstring -> jsstring -> CapPoint N -> Outcome (CapPoint N)
}.

(** [s.split(separator)] for a separator of one character. *)
Fixpoint split (separator : ascii) (s : jsstring) : list jsstring :=
  match s with
  | [] => [[]]
  | c :: rest =>
      if ascii_eqb c separator then [] :: split separator rest
      else
        match split separator rest with
        | first :: others => (c :: first) :: others
        | [] => [[c]]
        end
  end.

(** [array.pop()], as far as its value goes. *)
Definition pop {A : Type} (array : list A) : option A :=
  match array with
  | [] => None
  | first :: rest => Some (last rest first)
  end.

Section WMTSCapabilitiesParserMethods.

Context {N : Type} {JN : JsNumber N} {CE : CapabilitiesExternals N}.

(** An absent [crs] is read as the text "undefined" by the pattern and by
    the template alike. *)
Definition parseCrs (crs : option jsstring) : option CoordinateSystem :=
  let epsgNumber :=
    match crs with
    | Some text => nullish (pop (split ":" text)) (str "undefined")
    | None => str "undefined"
    end in
  let epsgNumber :=
    if regex_test (RLit (str "84")) epsgNumber then str "4326"
    else epsgNumber in
  find (fun system => jsstring_eqb (epsg system) (str "EPSG:" ++ epsgNumber))
    allCoordinateSystems.



(** The [forEach] overwrites [tileMatrixSet] at every link: its [return]
    leaves the callback, not the loop. *)
Definition _findTileMatrixSetFromLinks (this : WMTSCapabilitiesParser N)
  (links : option (list CapTileMatrixSetLink)) : option (CapTileMatrixSet N) :=
  match links with
  | None => None
  | Some links =>
      fold_left
        (fun tileMatrixSet link =>
           match Contents_TileMatrixSet this with
           | Some sets =>
               find (fun set =>
                       option_string_eqb (tms_Identifier set)
                         (link_TileMatrixSet link))
                 sets
           | None => None
           end)
        links None
  end.












End WMTSCapabilitiesParserMethods.

(** *** Vocabulary *)




(** Example: the two coordinate systems of the application, a [proj4] that
    leaves every point where it is, and a capabilities document of three
    layers, the last of which has neither identifier nor title. *)
Definition example_capabilities_externals : CapabilitiesExternals xnum :=
  {| allCoordinateSystems :=
       [ {| epsg := str "EPSG:2056" |}; {| epsg := str "EPSG:4326" |} ];
     capabilities_WGS84 := {| epsg := str "EPSG:4326" |};
     proj4 := fun _ _ point => Ok point |}.



(** The tile matrix set that a link names, if the capabilities list it. *)
Definition linked_set {N : Type} (this : WMTSCapabilitiesParser N)
  (link : CapTileMatrixSetLink) : option (CapTileMatrixSet N) :=
  match Contents_TileMatrixSet this with
  | Some sets =>
      find (fun set =>
              option_string_eqb (tms_Identifier set) (link_TileMatrixSet link))
        sets
  | None => None
  end.

(* ------------------------------------------------------------------ *)
(** ** useMouseOnMap (composable of the map module) *)
(* ------------------------------------------------------------------ *)

Inductive ClickType : Type := LEFT_SINGLECLICK | CONTEXTMENU.

(** [new ClickInfo(coordinate, screenPosition, features, clickType)] *)
Record ClickInfo (P F : Type) : Type := {
  click_coordinate : P;
  click_screenPosition : P;
  click_features : list F;
  click_clickType : ClickType
}.

(** What the composable dispatches to the store. *)
Inductive MouseAction (P F : Type) : Type :=
| DispatchClick (info : ClickInfo P F)
| DispatchSetGeolocationTracking (tracking : bool).

Arguments DispatchSetGeolocationTracking {P F} tracking.

(** What the composable imports and reads from the store: the layers and
    their types, and the two identification functions. *)
Class MouseExternals (P F L R : Type) : Type := {
  is_GEOJSON : L -> bool;       (* layer.type === LayerTypes.GEOJSON *)
  is_KML : L -> bool;           (* layer.type === LayerTypes.KML     *)
  identifyGeoJSONFeatureAt : L -> P -> CoordinateSystem -> R -> list F;
  identifyKMLFeatureAt : L -> P -> CoordinateSystem -> R -> list F
}.

(** The values of the computed properties when a handler reads them. *)
Record StoreView (L R : Type) : Type := {
  view_visibleLayers : list L;            (* store.getters.visibleLayers   *)
  view_resolution : R;                    (* store.getters.resolution      *)
  view_projection : CoordinateSystem;     (* store.state.position.projection *)
  view_geolocation_active : bool;
  view_geolocation_tracking : bool
}.

(** A timer set by [setTimeout] and not yet fired or cleared: its
    identifier and what its callback has captured. *)
Record PendingTimer (P : Type) : Type := {
  timer_id : nat;
  timer_screenPosition : P;
  timer_coordinate : P
}.

(** The variables that the closures of [useMouseOnMap] share, and the
    timers of the runtime. *)
Record MouseState (P : Type) : Type := {
  isPointerDown : bool;
  isStillOnStartingPosition : bool;
  hasPointerDownTriggeredLocationPopup : bool;
  contextMenuTimeout : option nat;
  pending_timers : list (PendingTimer P);
  next_timer_id : nat
}.

Definition mouse_initial {P : Type} : MouseState P :=
  {| isPointerDown := false;
     isStillOnStartingPosition := false;
     hasPointerDownTriggeredLocationPopup := false;
     contextMenuTimeout := None;
     pending_timers := [];
     next_timer_id := 1 |}.

Section UseMouseOnMap.

Context {P F L R : Type} {ME : MouseExternals P F L R}.

Definition onRightClick (screenPosition coordinate : P)
  : list (MouseAction P F) :=
  [ DispatchClick
      {| click_coordinate := coordinate;
         click_screenPosition := screenPosition;
         click_features := [];
         click_clickType := CONTEXTMENU |} ].

Definition onLeftClickDown (screenPosition coordinate : P)
  (s : MouseState P) : MouseState P :=
  {| isPointerDown := true;
     isStillOnStartingPosition := true;
     hasPointerDownTriggeredLocationPopup :=
       hasPointerDownTriggeredLocationPopup s;
     contextMenuTimeout := Some (next_timer_id s);
     pending_timers :=
       pending_timers s
       ++ [ {| timer_id := next_timer_id s;
               timer_screenPosition := screenPosition;
               timer_coordinate := coordinate |} ];
     next_timer_id := S (next_timer_id s) |}.

(** The callback of the timer, run when the timer fires. *)
Definition contextMenuTimeout_callback (timer : PendingTimer P)
  (s : MouseState P) : MouseState P * list (MouseAction P F) :=
  if isStillOnStartingPosition s then
    ({| isPointerDown := isPointerDown s;
        isStillOnStartingPosition := isStillOnStartingPosition s;
        hasPointerDownTriggeredLocationPopup := true;
        contextMenuTimeout := contextMenuTimeout s;
        pending_timers := pending_timers s;
        next_timer_id := next_timer_id s |},
     onRightClick (timer_screenPosition timer) (timer_coordinate timer))
  else (s, []).

(** [clearTimeout(id)] *)
Definition clearTimeout (id : option nat) (timers : list (PendingTimer P))
  : list (PendingTimer P) :=
  match id with
  | Some id => filter (fun timer => negb (timer_id timer =? id)%nat) timers
  | None => timers
  end.

Definition onLeftClickUp (screenPosition coordinate : P)
  (view : StoreView L R) (s : MouseState P)
  : MouseState P * list (MouseAction P F) :=
  let timers := clearTimeout (contextMenuTimeout s) (pending_timers s) in
  let dispatched :=
    if negb (hasPointerDownTriggeredLocationPopup s)
       && isStillOnStartingPosition s
    then
      let visibleGeoJsonLayers := filter is_GEOJSON (view_visibleLayers view) in
      let visibleKMLLayers := filter is_KML (view_visibleLayers view) in
      let features :=
        flat_map
          (fun geoJSonLayer =>
             identifyGeoJSONFeatureAt geoJSonLayer coordinate
               (view_projection view) (view_resolution view))
          visibleGeoJsonLayers
        ++ flat_map
             (fun kmlLayer =>
                identifyKMLFeatureAt kmlLayer coordinate
                  (view_projection view) (view_resolution view))
             visibleKMLLayers in
      [ DispatchClick
          {| click_coordinate := coordinate;
             click_screenPosition := screenPosition;
             click_features := features;
             click_clickType := LEFT_SINGLECLICK |} ]
    else [] in
  ({| isPointerDown := false;
      isStillOnStartingPosition := false;
      hasPointerDownTriggeredLocationPopup := false;
      contextMenuTimeout := contextMenuTimeout s;
      pending_timers := timers;
      next_timer_id := next_timer_id s |},
   dispatched).

Definition onMouseMove (view : StoreView L R) (s : MouseState P)
  : MouseState P * list (MouseAction P F) :=
  ({| isPointerDown := isPointerDown s;
      isStillOnStartingPosition :=
        if isPointerDown s then false else isStillOnStartingPosition s;
      hasPointerDownTriggeredLocationPopup :=
        hasPointerDownTriggeredLocationPopup s;
      contextMenuTimeout := contextMenuTimeout s;
      pending_timers := pending_timers s;
      next_timer_id := next_timer_id s |},
   if view_geolocation_active view && view_geolocation_tracking view
   then [DispatchSetGeolocationTracking false]
   else []).

(** What happens to the composable: its four handlers are called, or a
    timer of the runtime fires. *)
Inductive MouseEvent : Type :=
| LeftClickDown (screenPosition coordinate : P)
| LeftClickUp (screenPosition coordinate : P) (view : StoreView L R)
| MouseMove (view : StoreView L R)
| RightClick (screenPosition coordinate : P)
| TimerFires (id : nat).

Definition mouse_step (s : MouseState P) (event : MouseEvent)
  : MouseState P * list (MouseAction P F) :=
  match event with
  | LeftClickDown screenPosition coordinate =>
      (onLeftClickDown screenPosition coordinate s, [])
  | LeftClickUp screenPosition coordinate view =>
      onLeftClickUp screenPosition coordinate view s
  | MouseMove view => onMouseMove view s
  | RightClick screenPosition coordinate =>
      (s, onRightClick screenPosition coordinate)
  | TimerFires id =>
      match find (fun timer => (timer_id timer =? id)%nat) (pending_timers s) with
      | Some timer =>
          contextMenuTimeout_callback timer
            {| isPointerDown := isPointerDown s;
               isStillOnStartingPosition := isStillOnStartingPosition s;
               hasPointerDownTriggeredLocationPopup :=
                 hasPointerDownTriggeredLocationPopup s;
               contextMenuTimeout := contextMenuTimeout s;
               pending_timers :=
                 filter (fun t => negb (timer_id t =? id)%nat) (pending_timers s);
               next_timer_id := next_timer_id s |}
      | None => (s, [])   (* no such timer is pending: nothing fires *)
      end
  end.

(** A sequence of events, from a state on: the state it ends in and what
    has been dispatched, in order. *)
Fixpoint mouse_run (s : MouseState P) (events : list MouseEvent)
  : MouseState P * list (MouseAction P F) :=
  match events with
  | [] => (s, [])
  | event :: rest =>
      let (s1, first) := mouse_step s event in
      let (s2, others) := mouse_run s1 rest in
      (s2, first ++ others)
  end.

(** *** Vocabulary *)

Definition is_press_or_release (event : MouseEvent) : bool :=
  match event with
  | LeftClickDown _ _ | LeftClickUp _ _ _ => true
  | _ => false
  end.

Definition is_move (event : MouseEvent) : bool :=
  match event with MouseMove _ => true | _ => false end.

(** The features under a coordinate: those of the visible GeoJSON layers,
    then those of the visible KML layers. *)
Definition features_under (coordinate : P) (view : StoreView L R) : list F :=
  flat_map
    (fun layer =>
       identifyGeoJSONFeatureAt layer coordinate (view_projection view)
         (view_resolution view))
    (filter is_GEOJSON (view_visibleLayers view))
  ++ flat_map
       (fun layer =>
          identifyKMLFeatureAt layer coordinate (view_projection view)
            (view_resolution view))
       (filter is_KML (view_visibleLayers view)).

(** What holds of the shared variables and of the timers in every state
    that the composable can be in. *)
Definition mouse_invariant (s : MouseState P) : Prop :=
  (isStillOnStartingPosition s = true -> isPointerDown s = true)
  /\ (hasPointerDownTriggeredLocationPopup s = true -> isPointerDown s = true)
  /\ Forall (fun timer => (timer_id timer < next_timer_id s)%nat)
       (pending_timers s).

(** The states that the composable can be in. *)
Definition mouse_reachable (s : MouseState P) : Prop :=
  exists events, fst (mouse_run mouse_initial events) = s.

End UseMouseOnMap.

(** Example: pixels and coordinates are pairs of integers, layers and
    features are numbered; the layers 1 and 2 are GeoJSON and KML layers,
    each with one feature everywhere. *)
Definition example_mouse_externals : MouseExternals (Z * Z) nat nat Z :=
  {| is_GEOJSON := fun layer => (layer =? 1)%nat;
     is_KML := fun layer => (layer =? 2)%nat;
     identifyGeoJSONFeatureAt := fun layer _ _ _ => [(10 * layer)%nat];
     identifyKMLFeatureAt := fun layer _ _ _ => [(10 * layer + 1)%nat] |}.

Definition example_view : StoreView nat Z :=
  {| view_visibleLayers := [2; 3; 1]%nat;
     view_resolution := 10%Z;
     view_projection := {| epsg := str "EPSG:2056" |};
     view_geolocation_active := false;
     view_geolocation_tracking := false |}.

(** The state after a click. *)
Definition after_click : MouseState (Z * Z) :=
  fst (mouse_run (ME := example_mouse_externals) mouse_initial
         [ LeftClickDown (100, 200)%Z (2600000, 1200000)%Z;
           LeftClickUp (100, 200)%Z (2600000, 1200000)%Z example_view ]).

(* ------------------------------------------------------------------ *)
(** ** The click-on-map management plugin *)
(* ------------------------------------------------------------------ *)

Inductive PluginClickType : Type := LEFT_CLICK | RIGHT_CLICK.

(** The payload of the mutation [setClickInfo], as far as the plugin reads
    it. *)
Record PluginClickInfo (P F : Type) : Type := {
  pci_coordinate : P;
  pci_clickType : PluginClickType;
  pci_millisecondsSpentMouseDown : option Z;
  pci_geoJsonFeatures : list F
}.

(** What the plugin dispatches. *)
Inductive ClickPluginAction (F : Type) : Type :=
| SetSelectedFeatures (features : list F)
| ToggleFullscreenMode
| ClearAllSelectedFeatures.

Arguments ToggleFullscreenMode {F}.
Arguments ClearAllSelectedFeatures {F}.

(** What the plugin imports and reads from the store: the type and the
    tooltip flag of a layer, the identity of features ([===]), and
    [identify], whose promise is fulfilled with features or rejected. *)
Class ClickExternals (P F L : Type) : Type := {
  layer_is_GEOJSON : L -> bool;
  layer_hasTooltip : L -> bool;
  same_feature : F -> F -> bool;
  identify : L -> P -> jsstring -> Outcome (list F)
}.

Section ClickOnMapManagementPlugin.

Context {P F L : Type} {CX : ClickExternals P F L}.

(** [array.indexOf(feature)] *)
Fixpoint feature_indexOf_from (features : list F) (feature : F) (index : nat)
  : option nat :=
  match features with
  | [] => None                                   (* -1 *)
  | first :: rest =>
      if same_feature first feature then Some index
      else feature_indexOf_from rest feature (S index)
  end.

Definition feature_indexOf (features : list F) (feature : F) : option nat :=
  feature_indexOf_from features feature 0.

(** [array.filter((element, index) => ...)] *)
Fixpoint filter_indexed {A : Type} (keep : A -> nat -> bool) (index : nat)
  (rest : list A) : list A :=
  match rest with
  | [] => []
  | x :: rest' =>
      if keep x index then x :: filter_indexed keep (S index) rest'
      else filter_indexed keep (S index) rest'
  end.

(** [allFeatures.filter((feature, index) => allFeatures.indexOf(feature) === index)] *)
Definition without_doubles (allFeatures : list F) : list F :=
  filter_indexed
    (fun feature index =>
       match feature_indexOf allFeatures feature with
       | Some found => (found =? index)%nat
       | None => false
       end)
    0 allFeatures.

(** The requests of [runIdentify], one layer after the other: how each
    promise ends.  Reading a property of a null [clickInfo] throws, at once
    where it is an argument of [identify], inside the promise where it is
    read by the executor. *)
Fixpoint identify_requests (clickInfo : option (PluginClickInfo P F))
  (visibleLayers : list L) (lang : jsstring)
  : Outcome (list (Outcome (list F))) :=
  match visibleLayers with
  | [] => Ok []
  | layer :: rest =>
      let others := identify_requests clickInfo rest lang in
      if layer_is_GEOJSON layer then
        let request :=
          match clickInfo with
          | Some info => Ok (pci_geoJsonFeatures info)
          | None => Throw (TypeError "Cannot read properties of null")
          end in
        match others with
        | Ok requests => Ok (request :: requests)
        | Throw e => Throw e
        end
      else if layer_hasTooltip layer then
        match clickInfo with
        | Some info =>
            match others with
            | Ok requests =>
                Ok (identify layer (pci_coordinate info) lang :: requests)
            | Throw e => Throw e
            end
        | None => Throw (TypeError "Cannot read properties of null")
        end
      else others
  end.

(** [Promise.all(requests)]: the values in the order of the requests, or
    the first rejection. *)
Fixpoint Promise_all {A : Type} (requests : list (Outcome A))
  : Outcome (list A) :=
  match requests with
  | [] => Ok []
  | Ok value :: rest =>
      match Promise_all rest with
      | Ok values => Ok (value :: values)
      | Throw e => Throw e
      end
  | Throw e :: _ => Throw e
  end.

(** What [runIdentify] gets dispatched, once its promises are settled; a
    rejection is handled by nobody and dispatches nothing.  [Throw] is an
    exception out of [runIdentify] itself. *)
Definition runIdentify (clickInfo : option (PluginClickInfo P F))
  (visibleLayers : list L) (lang : jsstring)
  : Outcome (list (ClickPluginAction F)) :=
  if (0 <? length visibleLayers)%nat then
    match identify_requests clickInfo visibleLayers lang with
    | Ok allRequests =>
        match Promise_all allRequests with
        | Ok values =>
            let allFeatures := concat values in
            Ok [SetSelectedFeatures (without_doubles allFeatures)]
        | Throw _ => Ok []
        end
    | Throw e => Throw e
    end
  else Ok [].

(** The subscriber of the plugin, on one mutation. *)
Definition clickOnMapManagementPlugin (mutation_type : jsstring)
  (payload : option (PluginClickInfo P F)) (showDrawingOverlay : bool)
  (isDesktopMode : bool) (visibleLayers : list L) (lang : jsstring)
  : Outcome (list (ClickPluginAction F)) :=
  if jsstring_eqb mutation_type (str "setClickInfo") && negb showDrawingOverlay
  then
    let clickInfo := payload in
    let isLeftClick :=
      match clickInfo with
      | Some info =>
          match pci_clickType info with LEFT_CLICK => true | _ => false end
      | None => false
      end in
    let isLongClick :=
      match clickInfo with
      | Some info =>
          match pci_millisecondsSpentMouseDown info with
          | Some ms => (500 <=? ms)%Z
          | None => false
          end
      | None => false
      end in
    if (isDesktopMode && isLeftClick)
       || (negb isDesktopMode && isLeftClick && isLongClick)
       || (negb isDesktopMode && negb isLeftClick)
    then runIdentify clickInfo visibleLayers lang
    else if negb isDesktopMode && isLeftClick && negb isLongClick
    then Ok [ToggleFullscreenMode]
    else if isDesktopMode && negb isLeftClick
    then Ok [ClearAllSelectedFeatures]
    else Ok []
  else Ok [].

(** *** Vocabulary *)

(** [same_feature] tells whether two features are the same object. *)
Definition same_feature_is_identity : Prop :=
  forall a b : F, same_feature a b = true <-> a = b.

(** The features that the requests for the layers answer, layer by layer:
    those of the click for a GeoJSON layer, those that [identify] finds for
    another layer with a tooltip. *)
Fixpoint answered_features (info : PluginClickInfo P F)
  (visibleLayers : list L) (lang : jsstring) : list (list F) :=
  match visibleLayers with
  | [] => []
  | layer :: rest =>
      let others := answered_features info rest lang in
      if layer_is_GEOJSON layer then pci_geoJsonFeatures info :: others
      else if layer_hasTooltip layer then
        match identify layer (pci_coordinate info) lang with
        | Ok features => features :: others
        | Throw _ => others
        end
      else others
  end.

End ClickOnMapManagementPlugin.

(** Example: features and layers are numbered; layer 1 is a GeoJSON layer,
    the layers 2 and 3 have a tooltip and share the feature 7. *)
Definition example_click_externals : ClickExternals (Z * Z) nat nat :=
  {| layer_is_GEOJSON := fun layer => (layer =? 1)%nat;
     layer_hasTooltip := fun layer => (2 <=? layer)%nat && (layer <=? 3)%nat;
     same_feature := Nat.eqb;
     identify := fun layer _ _ => Ok [7; (10 * layer)%nat; 7]%nat |}.

Definition example_click : PluginClickInfo (Z * Z) nat :=
  {| pci_coordinate := (2600000, 1200000)%Z;
     pci_clickType := LEFT_CLICK;
     pci_millisecondsSpentMouseDown := Some 120%Z;
     pci_geoJsonFeatures := [5; 7]%nat |}.

(** The features of [rest] that are neither in [seen] nor earlier in
    [rest], in the order of [rest]. *)
Fixpoint first_occurrences {F : Type} (same : F -> F -> bool)
  (seen rest : list F) : list F :=
  match rest with
  | [] => []
  | x :: rest' =>
      if existsb (fun y => same y x) seen
      then first_occurrences same (seen ++ [x]) rest'
      else x :: first_occurrences same (seen ++ [x]) rest'
  end.

(* ------------------------------------------------------------------ *)
(** ** usePrintAreaRenderer.composable.js *)
(* ------------------------------------------------------------------ *)

(** [store.getters.printLayoutSize] *)
Record LayoutSize (N : Type) : Type := {
  layout_width : N;
  layout_height : N
}.

Section PrintAreaRenderer.

Context {N : Type} {JN : JsNumber N}.

Definition POINTS_PER_INCH : N := num_lit 72.     (* PostScript points, 1/72 inch *)
Definition MM_PER_INCHES : N := num_lit 25.4.
Definition UNITS_RATIO : N := num_lit 39.37.      (* inches per meter *)

(** [array.sort(compare)]: the elements are taken in one after the other,
    each going before the first element that it has to precede
    ([compare(x, y) < 0]); for a comparator that orders the elements this
    is the sorted array the language defines, equal elements keeping
    their order. *)
Fixpoint sort_insert (compare : N -> N -> N) (x : N) (sorted : list N)
  : list N :=
  match sorted with
  | [] => [x]
  | y :: rest =>
      if num_ltb (compare x y) (num_lit 0) then x :: y :: rest
      else y :: sort_insert compare x rest
  end.

Definition Array_sort (compare : N -> N -> N) (array : list N) : list N :=
  fold_left (fun sorted x => sort_insert compare x sorted) array [].

(** The scale that the map shows, by its width or by its height, whichever
    is smaller. *)
Definition print_testScale (resolution mapWidth mapHeight : N)
  (layoutSize : LayoutSize N) : N :=
  let width := num_mul resolution mapWidth in
  let height := num_mul resolution mapHeight in
  let scaleWidth :=
    num_div (num_mul (num_mul width UNITS_RATIO) POINTS_PER_INCH)
      (layout_width layoutSize) in
  let scaleHeight :=
    num_div (num_mul (num_mul height UNITS_RATIO) POINTS_PER_INCH)
      (layout_height layoutSize) in
  let testScale := scaleWidth in
  if num_ltb scaleHeight testScale then scaleHeight else testScale.

(** [resolution] is [map.getView().getResolution()], [scales] is
    [store.state.print.selectedLayout.scales]. *)
Definition getOptimalScale (resolution mapWidth mapHeight : N)
  (layoutSize : LayoutSize N) (scales : list N) : option N :=
  let testScale := print_testScale resolution mapWidth mapHeight layoutSize in
  let selectedLayoutScales := Array_sort (fun a b => num_sub b a) scales in
  nullish_opt
    (find (fun scale => num_ltb scale testScale) selectedLayoutScales)
    (hd_error selectedLayoutScales).

(** [s] is [parseFloat(scale)], [resolution] is the resolution of the view,
    [mapSize] is [map.getSize()] and [DEVICE_PIXEL_RATIO] comes from
    [ol/has]. *)
Definition calculatePageBoundsPixels (s : N) (size : LayoutSize N)
  (resolution : N) (mapSize : N * N) (DEVICE_PIXEL_RATIO : N) : Extent N :=
  let w :=
    num_mul
      (num_div
         (num_mul
            (num_div
               (num_mul (num_div (layout_width size) POINTS_PER_INCH)
                  MM_PER_INCHES)
               (num_lit 1000.0))
            s)
         resolution)
      DEVICE_PIXEL_RATIO in
  let h :=
    num_mul
      (num_div
         (num_mul
            (num_div
               (num_mul (num_div (layout_height size) POINTS_PER_INCH)
                  MM_PER_INCHES)
               (num_lit 1000.0))
            s)
         resolution)
      DEVICE_PIXEL_RATIO in
  let center :=
    (num_div (num_mul (fst mapSize) DEVICE_PIXEL_RATIO) (num_lit 2),
     num_div (num_mul (snd mapSize) DEVICE_PIXEL_RATIO) (num_lit 2)) in
  {| minx := num_sub (fst center) (num_div w (num_lit 2));
     miny := num_sub (snd center) (num_div h (num_lit 2));
     maxx := num_add (fst center) (num_div w (num_lit 2));
     maxy := num_add (snd center) (num_div h (num_lit 2)) |}.

End PrintAreaRenderer.

(** *** Vocabulary *)

(** [a < b] and [a <= b] on the exact number line. *)
Definition xlt (a b : xnum) : Prop := xltb a b = true.
Definition xle (a b : xnum) : Prop := xleb a b = true.

(** From the largest to the smallest. *)
Definition descending (l : list xnum) : Prop :=
  StronglySorted (fun a b => xle b a) l.

(** The scales of a layout, in no particular order, and a map of 1000 by
    800 pixels at 10 m per pixel on an A4 landscape layout. *)
Definition layout_scales : list xnum :=
  [ XFin 25000; XFin 100000; XFin 10000; XFin 50000; XFin 200000 ].

Definition a4_landscape : LayoutSize xnum :=
  {| layout_width := XFin 802; layout_height := XFin 530 |}.

(* ------------------------------------------------------------------ *)
(** ** load-layersconfig-on-lang-change.js *)
(* ------------------------------------------------------------------ *)

(** What the module needs to know of a value that the backend answers:
    whether it is truthy. *)
Class ConfigExternals (V : Type) : Type := {
  config_truthy : V -> bool
}.

(** The names under which an object created by [{}] inherits something
    from [Object.prototype]; what it inherits (functions, and for
    [__proto__] the prototype itself) is truthy. *)
Definition Object_prototype_keys : list jsstring :=
  map str
    [ "constructor"; "__defineGetter__"; "__defineSetter__"; "hasOwnProperty";
      "__lookupGetter__"; "__lookupSetter__"; "isPrototypeOf";
      "propertyIsEnumerable"; "toString"; "valueOf"; "__proto__";
      "toLocaleString" ]%string.

(** What [object[key]] gives. *)
Inductive PropertyValue (V : Type) : Type :=
| OwnValue (value : V)
| InheritedValue (key : jsstring)
| Undefined.

Arguments Undefined {V}.
Arguments InheritedValue {V} key.

(** The module: the own properties of [layersConfigByLang], the latest
    assignment first, and the languages of the backend requests that calls
    of [loadLayersConfig] are awaiting. *)
Record ConfigModule (V : Type) : Type := {
  layersConfigByLang : list (jsstring * V);
  awaited : list jsstring
}.

(** How a call of [loadLayersConfig] goes on: the backend is asked and the
    call awaits the answer, or its promise is settled. *)
Inductive LoadStep (V : Type) : Type :=
| BackendAsked (lang : jsstring)
| CallFulfilled (value : PropertyValue V)
| CallRejected (e : JsError)
| NothingAwaited.

Arguments BackendAsked {V} lang.
Arguments CallRejected {V} e.
Arguments NothingAwaited {V}.

Inductive LoadEvent (V : Type) : Type :=
| Called (lang : jsstring)
| Answered (lang : jsstring) (answer : Outcome V).

Arguments Called {V} lang.

Section LoadLayersConfig.

Context {V : Type} {VX : ConfigExternals V}.

Fixpoint own_property (own : list (jsstring * V)) (key : jsstring)
  : option V :=
  match own with
  | [] => None
  | (k, value) :: rest =>
      if jsstring_eqb k key then Some value else own_property rest key
  end.

(** [object[key]] *)
Definition get_property (own : list (jsstring * V)) (key : jsstring)
  : PropertyValue V :=
  match own_property own key with
  | Some value => OwnValue value
  | None =>
      if existsb (jsstring_eqb key) Object_prototype_keys
      then InheritedValue key
      else Undefined
  end.

Definition truthy (value : PropertyValue V) : bool :=
  match value with
  | OwnValue v => config_truthy v
  | InheritedValue _ => true
  | Undefined => false
  end.

Fixpoint remove_first (lang : jsstring) (langs : list jsstring)
  : list jsstring :=
  match langs with
  | [] => []
  | l :: rest =>
      if jsstring_eqb lang l then rest else l :: remove_first lang rest
  end.

(** [loadLayersConfig(lang)], up to its [await] or its [return]. *)
Definition loadLayersConfig (lang : jsstring) (m : ConfigModule V)
  : ConfigModule V * LoadStep V :=
  if negb (truthy (get_property (layersConfigByLang m) lang)) then
    ({| layersConfigByLang := layersConfigByLang m;
        awaited := lang :: awaited m |},
     BackendAsked lang)
  else (m, CallFulfilled (get_property (layersConfigByLang m) lang)).

(** [loadLayersConfig(lang)] after its [await], once the promise of
    [loadLayersConfigFromBackend(lang)] is settled with [answer]: the
    assignment creates or overwrites the own property (it is only reached
    for a name under which [Object.prototype] holds nothing). *)
Definition loadLayersConfig_resumed (lang : jsstring) (answer : Outcome V)
  (m : ConfigModule V) : ConfigModule V * LoadStep V :=
  if existsb (jsstring_eqb lang) (awaited m) then
    match answer with
    | Ok layersConfig =>
        ({| layersConfigByLang := (lang, layersConfig) :: layersConfigByLang m;
            awaited := remove_first lang (awaited m) |},
         CallFulfilled (OwnValue layersConfig))
    | Throw e =>
        ({| layersConfigByLang := layersConfigByLang m;
            awaited := remove_first lang (awaited m) |},
         CallRejected e)
    end
  else (m, NothingAwaited).

Definition load_step (event : LoadEvent V) (m : ConfigModule V)
  : ConfigModule V * LoadStep V :=
  match event with
  | Called lang => loadLayersConfig lang m
  | Answered lang answer => loadLayersConfig_resumed lang answer m
  end.

(** The calls and the answers of the backend, in the order in which they
    happen; the steps are listed in the order of the events. *)
Fixpoint load_run (events : list (LoadEvent V)) (m : ConfigModule V)
  : ConfigModule V * list (LoadStep V) :=
  match events with
  | [] => (m, [])
  | event :: rest =>
      let (m', step) := load_step event m in
      let (m'', steps) := load_run rest m' in
      (m'', step :: steps)
  end.

(** *** Vocabulary *)

(** The language is in the cache with a truthy value and no call is
    awaiting the backend for it. *)
Definition cached (m : ConfigModule V) (lang : jsstring) (value : V) : Prop :=
  own_property (layersConfigByLang m) lang = Some value
  /\ config_truthy value = true
  /\ ~ In lang (awaited m).

End LoadLayersConfig.

(** Example: the configs are numbered; the module as it is when the page
    has loaded. *)
Definition example_config_externals : ConfigExternals nat :=
  {| config_truthy := fun _ => true |}.

Definition module_loaded : ConfigModule nat :=
  {| layersConfigByLang := []; awaited := [] |}.

(** German is asked for, then French; the backend answers for German
    first.  Later the request for French fails and is made again. *)
Definition first_loads : list (LoadEvent nat) :=
  [Called (str "de"); Called (str "fr"); Answered (str "de") (Ok 1%nat)].

Definition later_loads : list (LoadEvent nat) :=
  [Called (str "de"); Answered (str "fr") (Throw (GenericError "503"));
   Called (str "fr"); Called (str "de"); Answered (str "fr") (Ok 2%nat)].

Definition module_after_first_loads : ConfigModule nat :=
  fst (load_run (VX := example_config_externals) first_loads module_loaded).

(* ================================================================== *)
(** * Part II. Properties *)
(* ================================================================== *)

(** ** Coordinate extraction *)

Section CoordinateExtraction.

Context {N : Type}.

Lemma jsstring_eqb_refl (s : jsstring) : jsstring_eqb s s = true.
Proof.
  induction s as [|c s IH]; simpl; [reflexivity|].
  unfold ascii_eqb. rewrite Ascii.eqb_refl. exact IH.
Qed.

Lemma jsstring_eqb_eq (a b : jsstring) : jsstring_eqb a b = true <-> a = b.
Proof.
  split.
  - revert b. induction a as [|x a IH]; intros [|y b] Hab; simpl in Hab;
      try discriminate; [reflexivity|].
    apply andb_true_iff in Hab. destruct Hab as [Hxy Hrest].
    apply Ascii.eqb_eq in Hxy. subst y. f_equal. apply IH, Hrest.
  - intros ->. apply jsstring_eqb_refl.
Qed.

Lemma jsstring_eqb_neq (a b : jsstring) : a <> b -> jsstring_eqb a b = false.
Proof.
  intros Hne. destruct (jsstring_eqb a b) eqn:E; [|reflexivity].
  apply jsstring_eqb_eq in E. contradiction.
Qed.


End CoordinateExtraction.


(** ** The profile request *)

Section ProfileRequestFacts.

Context {N : Type} {JN : JsNumber N} {EX : Externals N}.

Lemma settled_after_reject (reason : Reason) (run : PromiseRun N) :
  settled run <> Pending -> settled (reject reason run) = settled run.
Proof. unfold reject. simpl. destruct (settled run); congruence. Qed.

(** Refused arguments reject the promise with the validation message, and
    the POST is sent all the same: nothing leaves the executor after
    [reject]. *)
Lemma profile_rejects_and_posts coordinates fileExtension backend :
  invalid_request coordinates fileExtension ->
  (exists msg, validation_message msg
               /\ settled (profile coordinates fileExtension backend)
                  = Rejected (ReasonMessage msg))
  /\ request_issued (profile coordinates fileExtension backend) = true.
Proof.
  intros Hbad. unfold profile.
  set (ext := nullish fileExtension (str ".json")).
  set (run1 := if negb (jsstring_eqb ext (str ".json"))
                  && negb (jsstring_eqb ext (str ".csv"))
               then _ else _).
  set (run2 := if match coordinates with None => true | Some l => _ end
               then _ else _).
  assert (Hset : exists msg, validation_message msg
                   /\ settled run2 = Rejected (ReasonMessage msg)).
  { subst run2 run1. unfold invalid_request in Hbad. fold ext in Hbad.
    destruct (negb (jsstring_eqb ext (str ".json"))
              && negb (jsstring_eqb ext (str ".csv"))) eqn:Hext.
    - exists "Not supported file extension"%string. split; [left; reflexivity|].
      destruct (match coordinates with None => true | Some l => _ end);
        reflexivity.
    - destruct Hbad as [-> | [-> | [Hj Hc]]].
      + exists "Coordinates not provided"%string. split; [right; reflexivity|].
        reflexivity.
      + exists "Coordinates not provided"%string. split; [right; reflexivity|].
        reflexivity.
      + rewrite (jsstring_eqb_neq Hj), (jsstring_eqb_neq Hc) in Hext.
        discriminate. }
  destruct Hset as [msg [Hmsg Hrej]].
  set (run3 := axios_post _ _ _ run2).
  assert (H3 : settled run3 = Rejected (ReasonMessage msg)) by exact Hrej.
  assert (E3 : request_issued run3 = true).
  { unfold request_issued, run3, axios_post. simpl.
    rewrite existsb_app. simpl. apply orb_true_r. }
  clearbody run3. clear Hrej.
  assert (Hkeep : forall reason m,
             settled (reject reason (log_error m run3))
               = Rejected (ReasonMessage msg)
             /\ request_issued (reject reason (log_error m run3)) = true).
  { intros reason m. split.
    - unfold reject, log_error. simpl. rewrite H3. reflexivity.
    - unfold request_issued, reject, log_error. simpl.
      rewrite existsb_app. unfold request_issued in E3. rewrite E3.
      reflexivity. }
  assert (Hres : forall v,
             settled (resolve v run3) = Rejected (ReasonMessage msg)
             /\ request_issued (resolve v run3) = true).
  { intros v. split.
    - unfold resolve. simpl. rewrite H3. reflexivity.
    - exact E3. }
  assert (Hgoal : forall run : PromiseRun N,
             settled run = Rejected (ReasonMessage msg)
             /\ request_issued run = true ->
             (exists msg0, validation_message msg0
                           /\ settled run = Rejected (ReasonMessage msg0))
             /\ request_issued run = true).
  { intros run [Hs He]. split; [exists msg; split; assumption | exact He]. }
  apply Hgoal.
  destruct (backend _ coordinates) as [data | error].
  - destruct (data_truthy data).
    + destruct data as [data|].
      * destruct (jsstring_eqb ext (str ".json")).
        -- destruct (parseProfileFromBackendResponse data).
           ++ apply Hres.
           ++ apply Hkeep.
        -- apply Hres.
      * split; assumption.
    + apply Hkeep.
  - apply Hkeep.
Qed.

End ProfileRequestFacts.

(** C3. The call [profile([], '.json')]: the promise is rejected with
    "Coordinates not provided", and the POST to the backend is issued
    nevertheless, whatever the backend then answers. *)
Theorem profile_empty_coordinates_still_posts
  (backend : jsstring -> option (list (xnum * xnum)) -> AxiosResult xnum) :
  let run :=
    profile (EX := example_externals []) (Some []) (Some (str ".json")) backend in
  settled run = Rejected (ReasonMessage "Coordinates not provided")
  /\ exists later,
       events run
       = [ ProfileLog (LogError "Coordinates not provided");
           HttpPost (str "https://api3.geo.admin.ch/rest/services/profile.json")
             2056 (Some []) ] ++ later.
Proof.
  simpl. unfold profile. simpl.
  destruct (backend _ _) as [data | error]; simpl.
  - destruct (data_truthy data).
    + destruct data as [data|]; simpl.
      * destruct (parseProfileFromBackendResponse data); simpl;
          (split; [reflexivity | eexists; reflexivity]).
      * split; [reflexivity | exists []; reflexivity].
    + split; [reflexivity | eexists; reflexivity].
  - split; [reflexivity | eexists; reflexivity].
Qed.

(** ** Dispatching a file on its content *)

Section FileImportFacts.

Context {N : Type} {JN : JsNumber N} {EX : Externals N}.




End FileImportFacts.



(** ** The anchor of a synthesized icon *)

Section IconAnchor.

Context {N : Type} {JN : JsNumber N}.

(** C5, as the code has it.  For an icon with a source URL: when the size
    and the anchor are both known, the anchor of the result is the
    component-wise quotient [anchor[i] / size[i]] as the division yields
    it, whatever the size is, and nothing is logged; the fallback [0, 0]
    with its log entry is taken exactly when reading a component throws,
    that is when the size or the anchor is null. *)
Theorem generateIconFromStyle_anchor (iconStyle : IconStyle N)
  (iconArgs : IconArgs) (url : jsstring) :
  icon_src iconStyle = Some url ->
  url <> [] ->
  (forall a0 a1 s0 s1,
      icon_anchor iconStyle = Some (a0, a1) ->
      icon_size iconStyle = Some (s0, s1) ->
      run (generateIconFromStyle (Some iconStyle) (Some iconArgs))
      = (Ok (Some (synthesized_icon iconArgs url
                     (num_div a0 s0, num_div a1 s1))), []))
  /\ (icon_anchor iconStyle = None \/ icon_size iconStyle = None ->
      run (generateIconFromStyle (Some iconStyle) (Some iconArgs))
      = (Ok (Some (synthesized_icon iconArgs url (num_lit 0, num_lit 0))),
         [LogError "Failed to compute icon anchor"])).
Proof.
  intros Hsrc Hurl.
  assert (Htruthy : jsstring_truthy (Some url) = true)
    by (destruct url; [contradiction | reflexivity]).
  unfold run, generateIconFromStyle, try_catch, bind, components, ret, throw,
    emit. simpl. rewrite Hsrc, Htruthy. split.
  - intros a0 a1 s0 s1 -> ->. reflexivity.
  - intros [-> | Hsize].
    + reflexivity.
    + rewrite Hsize. destruct (icon_anchor iconStyle); reflexivity.
Qed.

End IconAnchor.

Lemma generateIconFromStyle_anchor_witness :
  run (generateIconFromStyle (Some centred_icon) (Some marker_args))
  = (Ok (Some (synthesized_icon marker_args external_pin_url
                 (0.5, 0.5)%float)), [])
  /\ run (generateIconFromStyle (Some unloaded_icon) (Some marker_args))
     = (Ok (Some (synthesized_icon marker_args external_pin_url
                    (0, 0)%float)),
        [LogError "Failed to compute icon anchor"]).
Proof.
  split.
  - apply (proj1 (generateIconFromStyle_anchor centred_icon marker_args
                    (url := external_pin_url) eq_refl
                    ltac:(vm_compute; discriminate))
             16%float 16%float 32%float 32%float eq_refl eq_refl).
  - apply (proj2 (generateIconFromStyle_anchor unloaded_icon marker_args
                    (url := external_pin_url) eq_refl
                    ltac:(vm_compute; discriminate))).
    left. reflexivity.
Defined.

(** C5 as stated fails: a zero width gives the anchor [Infinity, 0.5], not
    [0, 0], and nothing is logged. *)
Lemma generateIconFromStyle_zero_size_no_fallback :
  run (generateIconFromStyle (Some zero_width_icon) (Some marker_args))
  = (Ok (Some (synthesized_icon marker_args external_pin_url
                 (infinity, 0.5)%float)), [])
  /\ num_eqb infinity (num_lit 0) = false.
Proof. split; vm_compute; reflexivity. Qed.

(** ** Deserialising one feature *)

(** Case analysis on what the goal branches on. *)
Ltac break_match_goal :=
  match goal with
  | |- context [if ?c then _ else _] => destruct c
  | |- context [match ?x with _ => _ end] => destruct x
  end.

Section FeatureDeserializer.

Context {N : Type} {JN : JsNumber N} {EX : Externals N}.

(** [getFeatureType] throws exactly when no method can be called on its
    argument, before anything is logged. *)
Lemma getFeatureType_outcome (kmlFeature : FeatureArg N) (tr : list LogEntry) :
  match kmlFeature with
  | NotAnObject =>
      getFeatureType kmlFeature tr
      = (Throw (TypeError "Cannot read properties of null or undefined"), tr)
  | PlainObject =>
      getFeatureType kmlFeature tr
      = (Throw (TypeError "kmlFeature.get is not a function"), tr)
  | _ => exists t tr', getFeatureType kmlFeature tr = (Ok t, tr')
  end.
Proof.
  destruct kmlFeature as [| |f|f]; try reflexivity;
    unfold getFeatureType, bind, receiver, ret, emit; simpl;
    repeat break_match_goal; eexists; eexists; reflexivity.
Qed.

(** C4, the failing input.  On [null] (and on any value without the
    methods of a feature) the call throws a TypeError out of
    [getFeatureType], which runs before the [instanceof] guard: nothing is
    logged and null is not returned. *)
Theorem getEditableFeatureFromKmlFeature_throws_on_null
  (availableIconSets : option (list (DrawingIconSet N))) :
  run (getEditableFeatureFromKmlFeature NotAnObject availableIconSets)
  = (Throw (TypeError "Cannot read properties of null or undefined"), [])
  /\ run (getEditableFeatureFromKmlFeature PlainObject availableIconSets)
     = (Throw (TypeError "kmlFeature.get is not a function"), []).
Proof. split; reflexivity. Qed.

(** The guard itself answers null, with its log entry, for an object that
    has the methods without being a Feature. *)
Lemma getEditableFeatureFromKmlFeature_guard (f : Feature N)
  (availableIconSets : option (list (DrawingIconSet N))) :
  exists log,
    run (getEditableFeatureFromKmlFeature (FeatureLike f) availableIconSets)
    = (Ok None,
       log ++ [LogError "Cannot generate EditableFeature from KML feature"]).
Proof.
  unfold run, getEditableFeatureFromKmlFeature, bind.
  destruct (getFeatureType_outcome (FeatureLike f) []) as [t [tr' ->]].
  exists tr'. reflexivity.
Qed.

(** A feature without a resolvable style gives null, with the log entry,
    and does not throw. *)
Lemma getEditableFeatureFromKmlFeature_no_style (f : Feature N)
  (availableIconSets : option (list (DrawingIconSet N))) :
  feat_style f = None ->
  exists log,
    run (getEditableFeatureFromKmlFeature (IsFeature f) availableIconSets)
    = (Ok None,
       log ++ [LogError
                 "Parsing error: Could not get the style from the ol Feature"]).
Proof.
  intros Hstyle. unfold run, getEditableFeatureFromKmlFeature, bind.
  destruct (getFeatureType_outcome (IsFeature f) []) as [t [tr' ->]].
  unfold getStyle. rewrite Hstyle. exists tr'. reflexivity.
Qed.


End FeatureDeserializer.



(** ** The extent of a document *)

(** *** Order on the exact number line *)

Lemma Qltb_true (p q : Q) : Qltb p q = true <-> (p < q)%Q.
Proof.
  unfold Qltb. rewrite negb_true_iff. split.
  - intros Hle. apply Qnot_le_lt. intros Hqp.
    apply Qle_bool_iff in Hqp. congruence.
  - intros Hlt. destruct (Qle_bool q p) eqn:E; [|reflexivity].
    apply Qle_bool_iff in E. exfalso. apply (Qlt_not_le _ _ Hlt E).
Qed.

Lemma Qltb_false (p q : Q) : Qltb p q = false <-> (q <= p)%Q.
Proof.
  unfold Qltb. rewrite negb_false_iff. apply Qle_bool_iff.
Qed.

Lemma xleb_refl (a : xnum) : xis_nan a = false -> xleb a a = true.
Proof.
  destruct a as [| | |p]; simpl; intros Hnan; try discriminate;
    try reflexivity.
  unfold xleb. simpl. apply negb_true_iff, Qltb_false, Qle_refl.
Qed.

Lemma xleb_trans (a b c : xnum) :
  xleb a b = true -> xleb b c = true -> xleb a c = true.
Proof.
  unfold xleb.
  destruct a as [| | |p], b as [| | |q], c as [| | |t]; simpl;
    intros Hab Hbc; try discriminate; try reflexivity.
  apply negb_true_iff, Qltb_false in Hab.
  apply negb_true_iff, Qltb_false in Hbc.
  apply negb_true_iff, Qltb_false. apply (Qle_trans _ _ _ Hab Hbc).
Qed.

Lemma xleb_not_nan (a b : xnum) :
  xleb a b = true -> xis_nan a = false /\ xis_nan b = false.
Proof.
  unfold xleb. destruct a, b; simpl; intros Hab; try discriminate;
    split; reflexivity.
Qed.

Lemma xltb_xleb (a b : xnum) : xltb a b = true -> xleb a b = true.
Proof.
  unfold xleb. destruct a as [| | |p], b as [| | |q]; simpl; intros Hab;
    try discriminate; try reflexivity.
  apply Qltb_true in Hab. apply negb_true_iff, Qltb_false.
  apply Qlt_le_weak, Hab.
Qed.

Lemma xltb_false_xleb (a b : xnum) :
  xis_nan a = false -> xis_nan b = false ->
  xltb a b = false -> xleb b a = true.
Proof.
  unfold xleb. intros -> -> ->. reflexivity.
Qed.


(** *** Proper and empty extents *)



Lemma isExtentEmpty_empty : isExtentEmpty (N := xnum) emptyExtent = true.
Proof. reflexivity. Qed.


(** The smaller and the larger of two numbers, as [extend] picks them. *)
Lemma pick_min (u e : xnum) :
  xis_nan u = false -> xis_nan e = false ->
  let m := if xltb e u then e else u in
  xleb m u = true /\ xleb m e = true /\ (m = u \/ m = e).
Proof.
  intros Hu He. simpl. destruct (xltb e u) eqn:E.
  - split; [apply xltb_xleb, E|]. split; [apply xleb_refl, He | right; reflexivity].
  - split; [apply xleb_refl, Hu|].
    split; [apply xltb_false_xleb; assumption | left; reflexivity].
Qed.

Lemma pick_max (u e : xnum) :
  xis_nan u = false -> xis_nan e = false ->
  let m := if xltb u e then e else u in
  xleb u m = true /\ xleb e m = true /\ (m = u \/ m = e).
Proof.
  intros Hu He. simpl. destruct (xltb u e) eqn:E.
  - split; [apply xltb_xleb, E|]. split; [apply xleb_refl, He | right; reflexivity].
  - split; [apply xleb_refl, Hu|].
    split; [apply xltb_false_xleb; assumption | left; reflexivity].
Qed.








(** *** [getKmlExtent] and the empty document *)

Section KmlExtent.

Context {EX : Externals xnum}.




End KmlExtent.


(** ** Ascent, descent and elevation difference *)

(** *** In binary64 *)

(** C6 as stated fails in the arithmetic the code runs in: the descent sums
    to 2135.6000000000004 and the difference is -2135.6 (rounded once). *)
Lemma ascent_minus_descent_differs_in_binary64 :
  hasData descent_profile = true
  /\ totalAscent descent_profile = 0%float
  /\ totalDescent descent_profile = 0x1.0af3333333334p+11%float
  /\ elevationDifference descent_profile = (-0x1.0af3333333333p+11)%float
  /\ num_eqb
       (num_sub (totalAscent descent_profile) (totalDescent descent_profile))
       (elevationDifference descent_profile) = false.
Proof. repeat split; vm_compute; reflexivity. Qed.

(** *** Without rounding *)

Lemma finite_elevation_eq (p : ProfilePoint xnum) :
  finite_elevation p -> elevation p = XFin (elev_q p).
Proof.
  unfold finite_elevation, elev_q. destruct (elevation p); simpl;
    intros Hfin; try contradiction; reflexivity.
Qed.

Lemma pos_neg_part (d : Q) : pos_part d + neg_part d == d.
Proof.
  unfold pos_part, neg_part.
  destruct (Qltb d 0) eqn:E1, (Qltb 0 d) eqn:E2;
    try apply Qltb_true in E1; try apply Qltb_false in E1;
    try apply Qltb_true in E2; try apply Qltb_false in E2; lra.
Qed.

Lemma neg_part_nonpos (d : Q) : neg_part d <= 0.
Proof.
  unfold neg_part. destruct (Qltb 0 d) eqn:E;
    [apply Qle_refl | apply Qltb_false in E; exact E].
Qed.

Lemma telescope (rest : list Q) :
  forall a b prev,
    ascent_from a prev rest - descent_from b prev rest
    == a - b + (last rest prev - prev).
Proof.
  induction rest as [|x rest IH]; intros a b prev; simpl.
  - lra.
  - rewrite IH. pose proof (pos_neg_part (x - prev)) as Hd.
    assert (Hlast : last rest x == match rest with
                                   | [] => x
                                   | _ :: _ => last rest prev
                                   end).
    { destruct rest; simpl; [reflexivity|].
      clear. revert q. induction rest as [|y rest IHr]; intros q; simpl;
        [reflexivity|]. destruct rest; [reflexivity|]. apply (IHr y). }
    destruct rest as [|y rest]; rewrite Hlast; lra.
Qed.

Lemma descent_from_ge (rest : list Q) :
  forall b prev, b <= descent_from b prev rest.
Proof.
  induction rest as [|x rest IH]; intros b prev; simpl.
  - apply Qle_refl.
  - eapply Qle_trans; [|apply IH].
    pose proof (neg_part_nonpos (x - prev)). lra.
Qed.

Lemma point_at_middle (pre : list (ProfilePoint xnum)) (p : ProfilePoint xnum)
  (rest : list (ProfilePoint xnum)) (fallback : ProfilePoint xnum) :
  point_at (pre ++ p :: rest) (length pre) fallback = p.
Proof. unfold point_at. apply nth_middle. Qed.

Lemma totalAscent_reduce (points : list (ProfilePoint xnum)) :
  totalAscent points = array_reduce ascent_step points (XFin 0).
Proof. reflexivity. Qed.

Lemma totalDescent_reduce (points : list (ProfilePoint xnum)) :
  totalDescent points = xabs (array_reduce descent_step points (XFin 0)).
Proof. reflexivity. Qed.

Lemma ascent_step_finite (pre : list (ProfilePoint xnum))
  (prev x : ProfilePoint xnum) (rest : list (ProfilePoint xnum)) (acc : Q) :
  finite_elevation prev -> finite_elevation x ->
  ascent_step (XFin acc) x (S (length pre)) (pre ++ prev :: rest)
  = XFin (acc + pos_part (elev_q x - elev_q prev)).
Proof.
  intros Hprev Hx. unfold ascent_step. cbn [Nat.eqb].
  replace (S (length pre) - 1)%nat with (length pre) by lia.
  rewrite point_at_middle.
  rewrite (finite_elevation_eq x Hx), (finite_elevation_eq prev Hprev).
  unfold pos_part. cbn. unfold Qminus.
  destruct (Qltb (elev_q x + - elev_q prev) 0); reflexivity.
Qed.

Lemma descent_step_finite (pre : list (ProfilePoint xnum))
  (prev x : ProfilePoint xnum) (rest : list (ProfilePoint xnum)) (acc : Q) :
  finite_elevation prev -> finite_elevation x ->
  descent_step (XFin acc) x (S (length pre)) (pre ++ prev :: rest)
  = XFin (acc - neg_part (elev_q x - elev_q prev)).
Proof.
  intros Hprev Hx. unfold descent_step. cbn [Nat.eqb].
  replace (S (length pre) - 1)%nat with (length pre) by lia.
  rewrite point_at_middle.
  rewrite (finite_elevation_eq x Hx), (finite_elevation_eq prev Hprev).
  unfold neg_part. cbn. unfold Qminus.
  destruct (Qltb 0 (elev_q x + - elev_q prev)); reflexivity.
Qed.

(** The accumulations of the code, past the first point. *)
Lemma ascent_reduce (rest : list (ProfilePoint xnum)) :
  forall (pre : list (ProfilePoint xnum)) (prev : ProfilePoint xnum) (acc : Q),
    finite_elevation prev -> Forall finite_elevation rest ->
    reduce_indexed ascent_step (pre ++ prev :: rest) (S (length pre)) rest
      (XFin acc)
    = XFin (ascent_from acc (elev_q prev) (map elev_q rest)).
Proof.
  induction rest as [|x rest IH]; intros pre prev acc Hprev Hrest;
    [reflexivity|].
  inversion Hrest as [|x0 rest0 Hx Hrest']; subst.
  cbn [reduce_indexed map ascent_from].
  rewrite (ascent_step_finite pre prev x (x :: rest) acc Hprev Hx).
  replace (pre ++ prev :: x :: rest) with ((pre ++ [prev]) ++ x :: rest)
    by (rewrite <- app_assoc; reflexivity).
  replace (S (S (length pre))) with (S (length (pre ++ [prev])))
    by (rewrite length_app; simpl; lia).
  apply (IH (pre ++ [prev]) x _ Hx Hrest').
Qed.

Lemma descent_reduce (rest : list (ProfilePoint xnum)) :
  forall (pre : list (ProfilePoint xnum)) (prev : ProfilePoint xnum) (acc : Q),
    finite_elevation prev -> Forall finite_elevation rest ->
    reduce_indexed descent_step (pre ++ prev :: rest) (S (length pre)) rest
      (XFin acc)
    = XFin (descent_from acc (elev_q prev) (map elev_q rest)).
Proof.
  induction rest as [|x rest IH]; intros pre prev acc Hprev Hrest;
    [reflexivity|].
  inversion Hrest as [|x0 rest0 Hx Hrest']; subst.
  cbn [reduce_indexed map descent_from].
  rewrite (descent_step_finite pre prev x (x :: rest) acc Hprev Hx).
  replace (pre ++ prev :: x :: rest) with ((pre ++ [prev]) ++ x :: rest)
    by (rewrite <- app_assoc; reflexivity).
  replace (S (S (length pre))) with (S (length (pre ++ [prev])))
    by (rewrite length_app; simpl; lia).
  apply (IH (pre ++ [prev]) x _ Hx Hrest').
Qed.

Lemma nth_last_index {A} (l : list A) (d : A) :
  nth (length l - 1) l d = last l d.
Proof.
  induction l as [|x l IH]; [reflexivity|].
  destruct l as [|y l]; [reflexivity|].
  simpl in *. rewrite Nat.sub_0_r in IH. exact IH.
Qed.

Lemma last_map_elev (rest : list (ProfilePoint xnum)) (first : ProfilePoint xnum) :
  elev_q (last rest first) = last (map elev_q rest) (elev_q first).
Proof.
  induction rest as [|x rest IH]; [reflexivity|].
  destruct rest as [|y rest]; [reflexivity|]. simpl in *. exact IH.
Qed.

Lemma last_finite (rest : list (ProfilePoint xnum)) (first : ProfilePoint xnum) :
  finite_elevation first -> Forall finite_elevation rest ->
  finite_elevation (last rest first).
Proof.
  intros Hfirst Hrest. induction Hrest as [|x rest Hx Hrest IH];
    [exact Hfirst|].
  destruct rest as [|y rest]; [exact Hx | exact IH].
Qed.

(** C6, as it holds.  Computed without rounding on finite elevations, the
    total ascent minus the total descent is the elevation difference, for
    every sequence of points (with fewer than two points all three are 0). *)
Theorem ascent_minus_descent_exact (points : list (ProfilePoint xnum)) :
  Forall finite_elevation points ->
  xeq (num_sub (totalAscent points) (totalDescent points))
      (elevationDifference points).
Proof.
  intros Hfin. destruct points as [|first rest].
  - vm_compute. reflexivity.
  - inversion Hfin as [|p0 rest0 Hfirst Hrest]; subst.
    rewrite totalAscent_reduce, totalDescent_reduce.
    unfold array_reduce. cbn [reduce_indexed].
    change (ascent_step (XFin 0) first 0 (first :: rest)) with (XFin 0).
    change (descent_step (XFin 0) first 0 (first :: rest)) with (XFin 0).
    pose proof (@ascent_reduce rest [] first 0 Hfirst Hrest) as Hasc.
    pose proof (@descent_reduce rest [] first 0 Hfirst Hrest) as Hdesc.
    cbn [app length] in Hasc, Hdesc. rewrite Hasc, Hdesc. clear Hasc Hdesc.
    pose proof (telescope (map elev_q rest) 0 0 (elev_q first)) as Htel.
    pose proof (descent_from_ge (map elev_q rest) 0 (elev_q first)) as Hge.
    pose proof (Qabs_pos _ Hge) as Habs.
    unfold elevationDifference, hasData, profile_length.
    destruct rest as [|second rest'].
    + simpl. vm_compute. reflexivity.
    + cbn [length Nat.leb negb].
      unfold point_at.
      change (S (S (length rest')) - 1)%nat
        with (length (first :: second :: rest') - 1)%nat.
      rewrite nth_last_index.
      change (last (first :: second :: rest') first)
        with (last (second :: rest') first).
      rewrite (finite_elevation_eq _
                 (@last_finite (second :: rest') first Hfirst Hrest)).
      rewrite (finite_elevation_eq _ Hfirst), last_map_elev.
      cbn [num_sub num_abs xnum_number xsub xabs xadd xneg xeq].
      rewrite Habs. lra.
Qed.

Lemma ascent_minus_descent_exact_witness :
  xeq (num_sub (totalAscent exact_descent_profile)
         (totalDescent exact_descent_profile))
      (elevationDifference exact_descent_profile).
Proof.
  apply (@ascent_minus_descent_exact exact_descent_profile).
  repeat constructor.
Defined.

(** ** The hiking time *)














(** ** The matcher against the matching relation *)

Unset Implicit Arguments.

Section MatcherFacts.

Variable R : Type.

Lemma strip_prefix_sound (text : jsstring) :
  forall s s', strip_prefix text s = Some s' -> s = text ++ s'.
Proof.
  induction text as [|t text IH]; intros s s' Hs; simpl in Hs.
  - injection Hs as ->. reflexivity.
  - destruct s as [|c s]; [discriminate|].
    destruct (ascii_eqb t c) eqn:E; [|discriminate].
    apply Ascii.eqb_eq in E. subst c. simpl. f_equal. apply IH, Hs.
Qed.

Lemma strip_prefix_complete (text s' : jsstring) :
  strip_prefix text (text ++ s') = Some s'.
Proof.
  induction text as [|t text IH]; simpl; [reflexivity|].
  unfold ascii_eqb. rewrite Ascii.eqb_refl. exact IH.
Qed.

Lemma many_greedy_sound (cls : ascii -> bool) (k : jsstring -> option R) :
  forall s r,
    many_greedy cls s k = Some r ->
    exists w s', s = w ++ s' /\ forallb cls w = true /\ k s' = Some r.
Proof.
  induction s as [|c s IH]; intros r Hr; simpl in Hr.
  - exists [], []. auto.
  - destruct (cls c) eqn:Hc.
    + destruct (many_greedy cls s k) as [r'|] eqn:Hdeep.
      * injection Hr as <-. destruct (IH r' eq_refl) as [w [s' [-> [Hw Hk]]]].
        exists (c :: w), s'. simpl. rewrite Hc. auto.
      * exists [], (c :: s). auto.
    + exists [], (c :: s). auto.
Qed.

Lemma many_lazy_sound (cls : ascii -> bool) (k : jsstring -> option R) :
  forall s r,
    many_lazy cls s k = Some r ->
    exists w s', s = w ++ s' /\ forallb cls w = true /\ k s' = Some r.
Proof.
  induction s as [|c s IH]; intros r Hr; simpl in Hr.
  - destruct (k []) eqn:Hk; [|discriminate]. injection Hr as <-.
    exists [], []. auto.
  - destruct (k (c :: s)) as [r'|] eqn:Hk.
    + injection Hr as <-. exists [], (c :: s). auto.
    + destruct (cls c) eqn:Hc; [|discriminate].
      destruct (IH r Hr) as [w [s' [-> [Hw Hk']]]].
      exists (c :: w), s'. simpl. rewrite Hc. auto.
Qed.

Lemma many_sound (lazy atleast1 : bool) (cls : ascii -> bool)
  (k : jsstring -> option R) (s : jsstring) (r : R) :
  many lazy atleast1 cls s k = Some r ->
  exists w s', s = w ++ s' /\ forallb cls w = true
               /\ (atleast1 = true -> w <> []) /\ k s' = Some r.
Proof.
  unfold many. intros Hr.
  assert (Hrest : forall s0 r0,
             (if lazy then many_lazy (R:=R) else many_greedy (R:=R)) cls s0 k
             = Some r0 ->
             exists w s', s0 = w ++ s' /\ forallb cls w = true
                          /\ k s' = Some r0).
  { intros s0 r0. destruct lazy;
      [apply many_lazy_sound | apply many_greedy_sound]. }
  destruct atleast1.
  - destruct s as [|c s]; [discriminate|].
    destruct (cls c) eqn:Hc; [|discriminate].
    destruct (Hrest s r Hr) as [w [s' [-> [Hw Hk]]]].
    exists (c :: w), s'. simpl. rewrite Hc.
    repeat split; auto. discriminate.
  - destruct (Hrest s r Hr) as [w [s' [-> [Hw Hk]]]].
    exists w, s'. repeat split; auto. discriminate.
Qed.

Lemma many_greedy_more (cls : ascii -> bool) (k : jsstring -> option R)
  (s : jsstring) (r : R) :
  k s = Some r -> exists r', many_greedy cls s k = Some r'.
Proof.
  intros Hk. destruct s as [|c s]; simpl; [eauto|].
  destruct (cls c); [|eauto].
  destruct (many_greedy cls s k); eauto.
Qed.

Lemma many_greedy_complete (cls : ascii -> bool) (k : jsstring -> option R)
  (s' : jsstring) (r : R) :
  forall w,
    forallb cls w = true -> k s' = Some r ->
    exists r', many_greedy cls (w ++ s') k = Some r'.
Proof.
  induction w as [|c w IH]; intros Hw Hk.
  - apply (many_greedy_more cls k s' r Hk).
  - simpl in Hw. apply andb_true_iff in Hw. destruct Hw as [Hc Hw].
    simpl. rewrite Hc. destruct (IH Hw Hk) as [r' ->]. eauto.
Qed.

Lemma many_lazy_complete (cls : ascii -> bool) (k : jsstring -> option R)
  (s' : jsstring) (r : R) :
  forall w,
    forallb cls w = true -> k s' = Some r ->
    exists r', many_lazy cls (w ++ s') k = Some r'.
Proof.
  induction w as [|c w IH]; intros Hw Hk.
  - destruct s' as [|c s']; simpl; rewrite Hk; eauto.
  - simpl in Hw. apply andb_true_iff in Hw. destruct Hw as [Hc Hw].
    simpl. destruct (k (c :: w ++ s')); [eauto|].
    rewrite Hc. apply (IH Hw Hk).
Qed.

Lemma many_complete (lazy atleast1 : bool) (cls : ascii -> bool)
  (k : jsstring -> option R) (w s' : jsstring) (r : R) :
  forallb cls w = true -> (atleast1 = true -> w <> []) -> k s' = Some r ->
  exists r', many lazy atleast1 cls (w ++ s') k = Some r'.
Proof.
  intros Hw Hne Hk. unfold many.
  assert (Hrest : forall w0,
             forallb cls w0 = true ->
             exists r',
               (if lazy then many_lazy (R:=R) else many_greedy (R:=R))
                 cls (w0 ++ s') k = Some r').
  { intros w0 Hw0. destruct lazy;
      [apply (many_lazy_complete cls k s' r w0 Hw0 Hk)
      | apply (many_greedy_complete cls k s' r w0 Hw0 Hk)]. }
  destruct atleast1.
  - destruct w as [|c w]; [destruct (Hne eq_refl eq_refl)|].
    simpl in Hw. apply andb_true_iff in Hw. destruct Hw as [Hc Hw].
    simpl. rewrite Hc. apply (Hrest w Hw).
  - apply (Hrest w Hw).
Qed.

(** Whatever the matcher finds is a match. *)
Lemma rmatch_sound (r : regex) :
  forall s caps (k : jsstring -> Captures -> option R) res,
    rmatch r s caps k = Some res ->
    exists s' caps', matches r s s' caps caps' /\ k s' caps' = Some res.
Proof.
  induction r as [text | lazy atleast1 cls | r1 IH1 r2 IH2 | name r1 IH1
                 | r1 IH1 | r1 IH1 | ];
    intros s caps k res Hres; simpl in Hres.
  - destruct (strip_prefix text s) as [s'|] eqn:Hs; [|discriminate].
    exists s', caps. split; [|exact Hres].
    simpl. split; [apply strip_prefix_sound, Hs | reflexivity].
  - apply many_sound in Hres. destruct Hres as [w [s' [-> [Hw [Hne Hk]]]]].
    exists s', caps. split; [|exact Hk]. simpl. exists w. auto.
  - apply IH1 in Hres. destruct Hres as [s1 [caps1 [H1 Hres]]].
    apply IH2 in Hres. destruct Hres as [s' [caps' [H2 Hk]]].
    exists s', caps'. split; [|exact Hk]. simpl. exists s1, caps1. auto.
  - apply IH1 in Hres. destruct Hres as [s' [caps1 [H1 Hk]]].
    exists s', ((name, firstn (length s - length s') s) :: caps1).
    split; [|exact Hk]. simpl. exists caps1. auto.
  - apply IH1 in Hres. exact Hres.
  - destruct (rmatch r1 s caps k) as [res'|] eqn:H1.
    + injection Hres as <-. apply IH1 in H1.
      destruct H1 as [s' [caps' [H1 Hk]]].
      exists s', caps'. split; [left; exact H1 | exact Hk].
    + exists s, caps. split; [right; auto | exact Hres].
  - destruct s as [|c s]; [|discriminate].
    exists [], caps. split; [simpl; auto | exact Hres].
Qed.

(** Whenever there is a match that the rest accepts, the matcher finds
    one. *)
Lemma rmatch_complete (r : regex) :
  forall s s' caps caps' (k : jsstring -> Captures -> option R) res,
    matches r s s' caps caps' -> k s' caps' = Some res ->
    exists res', rmatch r s caps k = Some res'.
Proof.
  induction r as [text | lazy atleast1 cls | r1 IH1 r2 IH2 | name r1 IH1
                 | r1 IH1 | r1 IH1 | ];
    intros s s' caps caps' k res Hm Hk; simpl in Hm; simpl.
  - destruct Hm as [-> ->]. rewrite strip_prefix_complete. eauto.
  - destruct Hm as [w [-> [Hw [Hne ->]]]].
    apply (many_complete lazy atleast1 cls (fun s0 => k s0 caps) w s' res Hw Hne Hk).
  - destruct Hm as [s1 [caps1 [H1 H2]]].
    destruct (IH2 _ _ _ _ k res H2 Hk) as [res2 Hres2].
    apply (IH1 _ _ _ _ (fun s1 caps1 => rmatch r2 s1 caps1 k) res2 H1 Hres2).
  - destruct Hm as [caps1 [H1 ->]].
    apply (IH1 _ _ _ _
             (fun s0 c0 => k s0 ((name, firstn (length s - length s0) s) :: c0))
             res H1 Hk).
  - apply (IH1 _ _ _ _ k res Hm Hk).
  - destruct (rmatch r1 s caps k) as [res'|] eqn:H1; [eauto|].
    destruct Hm as [Hm | [-> ->]]; [|eauto].
    destruct (IH1 _ _ _ _ k res Hm Hk) as [res' Hres']. congruence.
  - destruct Hm as [-> [-> ->]]. eauto.
Qed.

End MatcherFacts.

(** [exec] answers the captures of a match at the leftmost position that
    has one. *)
Lemma regex_exec_sound (r : regex) :
  forall s caps,
    regex_exec r s = Some caps ->
    exists before s0 s',
      s = before ++ s0 /\ matches r s0 s' [] caps
      /\ forall earlier s1 s1' caps1,
           s = earlier ++ s1 -> (length earlier < length before)%nat ->
           ~ matches r s1 s1' [] caps1.
Proof.
  induction s as [|c s IH]; intros caps Hexec; simpl in Hexec.
  - destruct (rmatch r [] [] (fun _ caps0 => Some caps0)) as [caps0|] eqn:H0;
      [|discriminate].
    injection Hexec as <-. apply rmatch_sound in H0.
    destruct H0 as [s' [caps' [Hm Hk]]]. injection Hk as ->.
    exists [], [], s'. split; [reflexivity|]. split; [exact Hm|].
    intros earlier s1 s1' caps1 _ Hlen. simpl in Hlen. lia.
  - destruct (rmatch r (c :: s) [] (fun _ caps0 => Some caps0)) as [caps0|] eqn:H0.
    + injection Hexec as <-. apply rmatch_sound in H0.
      destruct H0 as [s' [caps' [Hm Hk]]]. injection Hk as ->.
      exists [], (c :: s), s'. split; [reflexivity|]. split; [exact Hm|].
      intros earlier s1 s1' caps1 _ Hlen. simpl in Hlen. lia.
    + destruct (IH caps Hexec) as [before [s0 [s' [-> [Hm Hmin]]]]].
      exists (c :: before), s0, s'. split; [reflexivity|]. split; [exact Hm|].
      intros earlier s1 s1' caps1 Heq Hlen Hm1.
      destruct earlier as [|e earlier].
      * simpl in Heq. subst s1.
        destruct (rmatch_complete Captures r (c :: before ++ s0) s1' [] caps1
                    (fun _ caps0 => Some caps0) caps1 Hm1 eq_refl)
          as [res' Hres'].
        congruence.
      * simpl in Heq. injection Heq as -> Heq.
        apply (Hmin earlier s1 s1' caps1 Heq); [simpl in Hlen; lia | exact Hm1].
Qed.

Lemma regex_exec_complete (r : regex) :
  forall before s0 s' caps,
    matches r s0 s' [] caps ->
    exists caps', regex_exec r (before ++ s0) = Some caps'.
Proof.
  induction before as [|c before IH]; intros s0 s' caps Hm.
  - destruct (rmatch_complete Captures r s0 s' [] caps
                (fun _ caps0 => Some caps0) caps Hm eq_refl)
      as [res' Hres'].
    destruct s0; simpl; simpl in Hres'; rewrite Hres'; eauto.
  - simpl.
    destruct (rmatch r (c :: before ++ s0) [] (fun _ caps0 => Some caps0));
      [eauto|].
    apply (IH s0 s' caps Hm).
Qed.

(** ** Cutting a string at a character *)

Lemma forallb_not_In (cls : ascii -> bool) (c : ascii) (w : jsstring) :
  forallb cls w = true -> cls c = false -> ~ In c w.
Proof.
  intros Hw Hc Hin. rewrite forallb_forall in Hw.
  rewrite (Hw c Hin) in Hc. discriminate.
Qed.

(** The first occurrence on both sides. *)
Lemma split_first (c : ascii) :
  forall a a' b b' : jsstring,
    a ++ c :: b = a' ++ c :: b' -> ~ In c a -> ~ In c a' ->
    a = a' /\ b = b'.
Proof.
  induction a as [|x a IH]; intros [|y a'] b b' Heq Ha Ha'; simpl in Heq.
  - injection Heq as ->. auto.
  - injection Heq as <- _. exfalso. apply Ha'. left. reflexivity.
  - injection Heq as -> _. exfalso. apply Ha. left. reflexivity.
  - injection Heq as -> Heq.
    destruct (IH a' b b' Heq) as [-> ->].
    + intros Hin. apply Ha. right. exact Hin.
    + intros Hin. apply Ha'. right. exact Hin.
    + auto.
Qed.

(** The last occurrence on both sides. *)
Lemma split_last (c : ascii) (a a' b b' : jsstring) :
  a ++ c :: b = a' ++ c :: b' -> ~ In c b -> ~ In c b' ->
  a = a' /\ b = b'.
Proof.
  intros Heq Hb Hb'.
  assert (Hrev : rev b ++ c :: rev a = rev b' ++ c :: rev a').
  { apply (f_equal (@rev ascii)) in Heq.
    rewrite !rev_app_distr in Heq. simpl in Heq.
    rewrite <- !app_assoc in Heq. exact Heq. }
  destruct (split_first c (rev b) (rev b') (rev a) (rev a') Hrev) as [H1 H2].
  - intros Hin. apply Hb. apply in_rev. exact Hin.
  - intros Hin. apply Hb'. apply in_rev. exact Hin.
  - split; apply rev_inj; assumption.
Qed.

(** The only occurrence on the right-hand side. *)
Lemma split_only (c : ascii) :
  forall a' a b b' : jsstring,
    a ++ c :: b = a' ++ c :: b' -> ~ In c a' -> ~ In c b' ->
    a = a' /\ b = b'.
Proof.
  induction a' as [|y a' IH]; intros [|x a] b b' Heq Ha' Hb'; simpl in Heq.
  - injection Heq as ->. auto.
  - injection Heq as -> Heq. exfalso. apply Hb'. rewrite <- Heq.
    apply in_or_app. right. left. reflexivity.
  - injection Heq as -> _. exfalso. apply Ha'. left. reflexivity.
  - injection Heq as -> Heq.
    destruct (IH a b b' Heq) as [-> ->].
    + intros Hin. apply Ha'. right. exact Hin.
    + exact Hb'.
    + auto.
Qed.

Lemma firstn_consumed (w t : jsstring) :
  firstn (length (w ++ t) - length t) (w ++ t) = w.
Proof.
  rewrite length_app. replace (length w + length t - length t)%nat
    with (length w + 0)%nat by lia.
  rewrite firstn_app_2. simpl. apply app_nil_r.
Qed.

(** ** Building a match *)

Lemma matches_seq (r1 r2 : regex) (s s1 s' : jsstring)
  (caps caps1 caps' : Captures) :
  matches r1 s s1 caps caps1 -> matches r2 s1 s' caps1 caps' ->
  matches (RSeq r1 r2) s s' caps caps'.
Proof. intros H1 H2. simpl. exists s1, caps1. auto. Qed.

Lemma matches_lit (text s' : jsstring) (caps : Captures) :
  matches (RLit text) (text ++ s') s' caps caps.
Proof. simpl. auto. Qed.

Lemma matches_many (lazy : bool) (cls : ascii -> bool) (w s' : jsstring)
  (caps : Captures) :
  forallb cls w = true -> w <> [] ->
  matches (RMany lazy true cls) (w ++ s') s' caps caps.
Proof. intros Hw Hne. simpl. exists w. auto. Qed.

Lemma matches_named_many (name : string) (lazy : bool) (cls : ascii -> bool)
  (w s' : jsstring) (caps : Captures) :
  forallb cls w = true -> w <> [] ->
  matches (RNamed name (RMany lazy true cls)) (w ++ s') s' caps
    ((name, w) :: caps).
Proof.
  intros Hw Hne. simpl. exists caps. split.
  - exists w. auto.
  - rewrite firstn_consumed. reflexivity.
Qed.

Lemma matches_end (caps : Captures) : matches REnd [] [] caps caps.
Proof. simpl. auto. Qed.

(** ** Decimal numerals and colour channels *)

Lemma digit_value_nonneg (c : ascii) :
  is_digit c = true -> (0 <= digit_value c)%Z.
Proof.
  unfold is_digit, code_between, digit_value. intros Hc.
  apply andb_true_iff in Hc. destruct Hc as [Hlo _].
  apply Nat.leb_le in Hlo. lia.
Qed.

Lemma decimal_value_nonneg (digits : jsstring) :
  forallb is_digit digits = true -> (0 <= decimal_value digits)%Z.
Proof.
  unfold decimal_value.
  assert (Hacc : forall acc,
             (0 <= acc)%Z -> forallb is_digit digits = true ->
             (0 <= fold_left (fun a c => a * 10 + digit_value c) digits acc)%Z).
  { induction digits as [|c digits IH]; intros acc Hacc Hd; simpl;
      [exact Hacc|].
    simpl in Hd. apply andb_true_iff in Hd. destruct Hd as [Hc Hd].
    apply IH; [|exact Hd]. pose proof (digit_value_nonneg c Hc). lia. }
  intros Hd. apply Hacc; [lia | exact Hd].
Qed.

Lemma parseRGBColor_channel (digits : jsstring) (label : string) :
  channel digits ->
  parseRGBColor (ChannelText digits) label = Ok (decimal_value digits).
Proof.
  intros [[Hne Hd] Hmax]. unfold parseRGBColor.
  destruct digits as [|c digits]; [contradiction|].
  rewrite Hd.
  pose proof (decimal_value_nonneg (c :: digits) Hd) as Hmin.
  replace ((0 <=? decimal_value (c :: digits))%Z) with true
    by (symmetry; apply Z.leb_le; exact Hmin).
  replace ((decimal_value (c :: digits) <=? 255)%Z) with true
    by (symmetry; apply Z.leb_le; exact Hmax).
  reflexivity.
Qed.

(** ** The icon URL grammars *)

Lemma parseIconUrl_unfold (url : jsstring) :
  parseIconUrl url
  = parseIconUrl_with (regex_exec legacyDefault_regex url)
      (regex_exec legacySet_regex url) (regex_exec set_regex url).
Proof. reflexivity. Qed.

(** Open every conjunction and existential among the hypotheses. *)
Ltac open_hyps :=
  repeat match goal with
         | H : exists _, _ |- _ => destruct H as [? H]
         | H : _ /\ _ |- _ => destruct H as [? ?]
         end.

(** What a match of the legacy coloured pattern looks like. *)
Lemma legacyDefault_shape (s0 s' : jsstring) (caps : Captures) :
  matches legacyDefault_regex s0 s' [] caps ->
  exists r g b name size scale,
    s0 = str "color/" ++ r ++ str "," ++ g ++ str "," ++ b ++ str "/"
         ++ name ++ str "-" ++ size ++ str "@" ++ scale ++ str "x.png"
    /\ s' = []
    /\ forallb is_digit r = true /\ forallb is_digit g = true
    /\ forallb is_digit b = true /\ forallb not_slash name = true
    /\ forallb is_digit size = true /\ forallb is_digit scale = true
    /\ caps = [ ("scale"%string, scale); ("size"%string, size);
                ("name"%string, name); ("b"%string, b); ("g"%string, g);
                ("r"%string, r) ].
Proof.
  unfold legacyDefault_regex, rseq, digits1. cbn [fold_right matches].
  intros H. open_hyps. cbn [app] in *. subst. rewrite !firstn_consumed.
  do 6 eexists. split; [reflexivity|]. repeat split; assumption.
Qed.

(** What a match of the legacy set pattern looks like. *)
Lemma legacySet_shape (s0 s' : jsstring) (caps : Captures) :
  matches legacySet_regex s0 s' [] caps ->
  exists set name,
    s0 = str "images/" ++ set ++ str "/" ++ name ++ str ".png"
    /\ s' = []
    /\ forallb is_word set = true /\ forallb not_slash name = true
    /\ caps = [ ("name"%string, name); ("set"%string, set) ].
Proof.
  unfold legacySet_regex, rseq. cbn [fold_right matches].
  intros H. open_hyps. cbn [app] in *. subst. rewrite !firstn_consumed.
  do 2 eexists. split; [reflexivity|]. repeat split; assumption.
Qed.

Lemma firstn_consumed_eq (s w t : jsstring) :
  s = w ++ t -> firstn (length s - length t) s = w.
Proof. intros ->. apply firstn_consumed. Qed.

(** What a match of the current pattern looks like. *)
Lemma set_shape (s0 s' : jsstring) (caps : Captures) :
  matches set_regex s0 s' [] caps ->
  exists set name whole fraction r g b,
    s0 = str "api/icons/sets/" ++ set ++ str "/icons/" ++ name ++ str "@"
         ++ scale_text whole fraction ++ str "x-"
         ++ r ++ str "," ++ g ++ str "," ++ b ++ str ".png" ++ s'
    /\ forallb is_word set = true
    /\ forallb is_digit r = true /\ forallb is_digit g = true
    /\ forallb is_digit b = true
    /\ caps = [ ("b"%string, b); ("g"%string, g); ("r"%string, r);
                ("scale"%string, scale_text whole fraction);
                ("name"%string, name); ("set"%string, set) ].
Proof.
  unfold set_regex, rseq, digits1. cbn [fold_right matches].
  intros H. open_hyps.
  match goal with Hopt : _ \/ _ |- _ => destruct Hopt as [Hopt | Hopt] end;
    open_hyps; cbn [app] in *; subst.
  - rewrite !firstn_consumed.
    match goal with
    | |- exists _ _ _ _ _ _ _,
          str "api/icons/sets/" ++ ?st ++ str "/icons/" ++ ?nm ++ str "@"
          ++ ?w ++ str "." ++ ?f ++ str "x-"
          ++ ?r ++ str "," ++ ?g ++ str "," ++ ?b ++ ?t = _ /\ _ =>
        exists st, nm, w, (Some f), r, g, b;
        rewrite (firstn_consumed_eq
                   (w ++ str "." ++ f ++ str "x-"
                    ++ r ++ str "," ++ g ++ str "," ++ b ++ t)
                   (scale_text w (Some f))
                   (str "x-" ++ r ++ str "," ++ g ++ str "," ++ b ++ t))
          by (unfold scale_text; rewrite <- !app_assoc; reflexivity)
    end.
    split; [unfold scale_text; rewrite <- !app_assoc; reflexivity|].
    repeat split; assumption.
  - rewrite !firstn_consumed.
    match goal with
    | |- exists _ _ _ _ _ _ _,
          str "api/icons/sets/" ++ ?st ++ str "/icons/" ++ ?nm ++ str "@"
          ++ ?w ++ str "x-"
          ++ ?r ++ str "," ++ ?g ++ str "," ++ ?b ++ ?t = _ /\ _ =>
        exists st, nm, w, None, r, g, b
    end.
    unfold scale_text. rewrite !app_nil_r.
    split; [reflexivity|]. repeat split; assumption.
Qed.

(** *** Characters that a class excludes *)

Lemma other_than_not_In (c : ascii) (w : jsstring) :
  forallb (other_than c) w = true -> ~ In c w.
Proof.
  intros Hw. apply (forallb_not_In (other_than c) c w Hw).
  unfold other_than, ascii_eqb. rewrite Ascii.eqb_refl. reflexivity.
Qed.

Lemma class_excludes (cls : ascii -> bool) (c : ascii) (w : jsstring) :
  forallb cls w = true -> cls c = false -> forallb (other_than c) w = true.
Proof.
  intros Hw Hc. apply forallb_forall. intros x Hx.
  rewrite forallb_forall in Hw. specialize (Hw x Hx).
  unfold other_than, ascii_eqb. destruct (Ascii.eqb x c) eqn:E; [|reflexivity].
  apply Ascii.eqb_eq in E. subst x. congruence.
Qed.

(** [c] does not occur in a concatenation of literals and of strings that
    a hypothesis confines to a class without [c]. *)
Ltac no_char :=
  apply other_than_not_In; rewrite ?forallb_app;
  repeat (apply andb_true_intro; split);
  first [ reflexivity
        | eapply class_excludes; [eassumption | reflexivity] ].

(** Cut an equation between two concatenations at the last (first, only)
    occurrence of [c]. *)
Ltac cut_last H c a a' b b' Hnew :=
  assert (Hnew : a = a' /\ b = b')
    by (apply (split_last c a a' b b');
        [rewrite <- ?app_assoc; exact H | no_char | no_char]).

Ltac cut_first H c a a' b b' Hnew :=
  assert (Hnew : a = a' /\ b = b')
    by (apply (split_first c a a' b b');
        [rewrite <- ?app_assoc; exact H | no_char | no_char]).

Ltac cut_only H c a a' b b' Hnew :=
  assert (Hnew : a = a' /\ b = b')
    by (apply (split_only c a' a b b');
        [rewrite <- ?app_assoc; exact H | no_char | no_char]).

(** *** The legacy coloured grammar *)

Lemma legacy_colored_unique
  (before prefix r' g' b' name' size' scale' r g b name size scale : jsstring) :
  before ++ str "color/" ++ r' ++ str "," ++ g' ++ str "," ++ b' ++ str "/"
  ++ name' ++ str "-" ++ size' ++ str "@" ++ scale' ++ str "x.png"
  = prefix ++ str "color/" ++ r ++ str "," ++ g ++ str "," ++ b ++ str "/"
    ++ name ++ str "-" ++ size ++ str "@" ++ scale ++ str "x.png" ->
  forallb is_digit r' = true -> forallb is_digit g' = true ->
  forallb is_digit b' = true -> forallb not_slash name' = true ->
  forallb is_digit size' = true -> forallb is_digit scale' = true ->
  forallb is_digit r = true -> forallb is_digit g = true ->
  forallb is_digit b = true -> forallb not_slash name = true ->
  forallb is_digit size = true -> forallb is_digit scale = true ->
  r' = r /\ g' = g /\ b' = b /\ name' = name.
Proof.
  intros Heq Hr' Hg' Hb' Hname' Hsize' Hscale' Hr Hg Hb Hname Hsize Hscale.
  cut_last Heq "/"%char
    (before ++ str "color/" ++ r' ++ str "," ++ g' ++ str "," ++ b')
    (prefix ++ str "color/" ++ r ++ str "," ++ g ++ str "," ++ b)
    (name' ++ str "-" ++ size' ++ str "@" ++ scale' ++ str "x.png")
    (name ++ str "-" ++ size ++ str "@" ++ scale ++ str "x.png") Hcut.
  destruct Hcut as [Hhead Htail].
  (* the tail: name-size@scalex.png *)
  cut_last Htail "@"%char
    (name' ++ str "-" ++ size') (name ++ str "-" ++ size)
    (scale' ++ str "x.png") (scale ++ str "x.png") Hcut.
  destruct Hcut as [Hns _].
  cut_last Hns "-"%char name' name size' size Hcut.
  destruct Hcut as [-> _].
  (* the head: ...color/r,g,b *)
  cut_last Hhead ","%char
    (before ++ str "color/" ++ r' ++ str "," ++ g')
    (prefix ++ str "color/" ++ r ++ str "," ++ g) b' b Hcut.
  destruct Hcut as [Hhead2 ->].
  cut_last Hhead2 ","%char
    (before ++ str "color/" ++ r') (prefix ++ str "color/" ++ r) g' g Hcut.
  destruct Hcut as [Hhead3 ->].
  cut_last Hhead3 "/"%char
    (before ++ str "color") (prefix ++ str "color") r' r Hcut.
  destruct Hcut as [_ ->].
  repeat split; reflexivity.
Qed.

Lemma legacyDefault_intro (r g b name size scale : jsstring) :
  numeral r -> numeral g -> numeral b ->
  name <> [] -> forallb not_slash name = true ->
  numeral size -> numeral scale ->
  matches legacyDefault_regex
    (str "color/" ++ r ++ str "," ++ g ++ str "," ++ b ++ str "/"
     ++ name ++ str "-" ++ size ++ str "@" ++ scale ++ str "x.png" ++ [])
    [] []
    [ ("scale"%string, scale); ("size"%string, size); ("name"%string, name);
      ("b"%string, b); ("g"%string, g); ("r"%string, r) ].
Proof.
  intros [Hr0 Hr] [Hg0 Hg] [Hb0 Hb] Hn0 Hn [Hs0 Hs] [Hc0 Hc].
  unfold legacyDefault_regex, rseq, digits1. cbn [fold_right].
  repeat (eapply matches_seq;
          [ first [ apply matches_lit
                  | apply matches_named_many; assumption
                  | apply matches_end ] | ]).
  apply (matches_lit [] []).
Qed.

Lemma exec_legacy_colored (prefix r g b name size scale : jsstring) :
  numeral r -> numeral g -> numeral b ->
  name <> [] -> forallb not_slash name = true ->
  numeral size -> numeral scale ->
  exists size' scale',
    regex_exec legacyDefault_regex
      (legacy_colored_url prefix r g b name size scale)
    = Some [ ("scale"%string, scale'); ("size"%string, size');
             ("name"%string, name); ("b"%string, b); ("g"%string, g);
             ("r"%string, r) ].
Proof.
  intros Hr Hg Hb Hn0 Hn Hs Hc.
  destruct (regex_exec_complete legacyDefault_regex prefix _ _ _
              (legacyDefault_intro r g b name size scale Hr Hg Hb Hn0 Hn Hs Hc))
    as [caps Hexec].
  change (prefix ++ str "color/" ++ r ++ str "," ++ g ++ str "," ++ b
          ++ str "/" ++ name ++ str "-" ++ size ++ str "@" ++ scale
          ++ str "x.png" ++ [])
    with (legacy_colored_url prefix r g b name size scale) in Hexec.
  destruct (regex_exec_sound _ _ _ Hexec) as [before [s0 [s' [Hurl [Hm _]]]]].
  apply legacyDefault_shape in Hm.
  destruct Hm as [r' [g' [b' [name' [size' [scale' Hm]]]]]].
  destruct Hm as [-> [-> [Hr' [Hg' [Hb' [Hn' [Hs' [Hc' ->]]]]]]]].
  unfold legacy_colored_url in Hurl. symmetry in Hurl.
  destruct Hr as [_ Hr], Hg as [_ Hg], Hb as [_ Hb], Hs as [_ Hs],
           Hc as [_ Hc].
  destruct (legacy_colored_unique _ _ _ _ _ _ _ _ _ _ _ _ _ _ Hurl
              Hr' Hg' Hb' Hn' Hs' Hc' Hr Hg Hb Hn Hs Hc)
    as [-> [-> [-> ->]]].
  exists size', scale'. exact Hexec.
Qed.

(** A URL of the legacy coloured grammar is parsed back. *)
Lemma parseIconUrl_legacy_colored (prefix r g b name size scale : jsstring) :
  channel r -> channel g -> channel b ->
  name <> [] -> forallb not_slash name = true ->
  numeral size -> numeral scale ->
  run (parseIconUrl (legacy_colored_url prefix r g b name size scale))
  = (Ok (Some {| set := str "default"; name := name;
                 color := {| r := decimal_value r; g := decimal_value g;
                             b := decimal_value b |};
                 isLegacy := true |}), []).
Proof.
  intros Hr Hg Hb Hn0 Hn Hs Hc.
  destruct (exec_legacy_colored prefix r g b name size scale
              (proj1 Hr) (proj1 Hg) (proj1 Hb) Hn0 Hn Hs Hc)
    as [size' [scale' Hexec]].
  rewrite parseIconUrl_unfold, Hexec.
  unfold run, parseIconUrl_with, bind, lift, ret. cbn [nullish_opt group].
  cbn [String.eqb Ascii.eqb Bool.eqb nullish channel_or is_some orb].
  rewrite (parseRGBColor_channel r "R" Hr), (parseRGBColor_channel g "B" Hg),
    (parseRGBColor_channel b "G" Hb).
  reflexivity.
Qed.

(** *** The legacy set grammar *)

Lemma In_middle (c : ascii) (a b : jsstring) : In c (a ++ c :: b).
Proof. apply in_or_app. right. left. reflexivity. Qed.

(** No URL of the legacy set grammar matches the legacy coloured pattern. *)
Lemma legacy_set_not_colored (prefix set name : jsstring) :
  forallb is_word set = true -> forallb not_slash name = true ->
  regex_exec legacyDefault_regex (legacy_set_url prefix set name) = None.
Proof.
  intros Hset Hname.
  destruct (regex_exec legacyDefault_regex (legacy_set_url prefix set name))
    as [caps|] eqn:Hexec; [exfalso | reflexivity].
  destruct (regex_exec_sound _ _ _ Hexec) as [before [s0 [s' [Hurl [Hm _]]]]].
  apply legacyDefault_shape in Hm.
  destruct Hm as [r' [g' [b' [name' [size' [scale' Hm]]]]]].
  destruct Hm as [-> [-> [Hr' [Hg' [Hb' [Hn' [Hs' [Hc' ->]]]]]]]].
  unfold legacy_set_url in Hurl. symmetry in Hurl.
  cut_last Hurl "/"%char
    (before ++ str "color/" ++ r' ++ str "," ++ g' ++ str "," ++ b')
    (prefix ++ str "images/" ++ set)
    (name' ++ str "-" ++ size' ++ str "@" ++ scale' ++ str "x.png")
    (name ++ str ".png") Hcut.
  destruct Hcut as [Hhead _].
  cut_last Hhead "/"%char
    (before ++ str "color") (prefix ++ str "images")
    (r' ++ str "," ++ g' ++ str "," ++ b') set Hcut.
  destruct Hcut as [_ Hcomma].
  apply (forallb_not_In is_word ","%char set Hset eq_refl).
  rewrite <- Hcomma. apply (In_middle ","%char r').
Qed.

Lemma legacy_set_unique (before prefix set' name' set name : jsstring) :
  before ++ str "images/" ++ set' ++ str "/" ++ name' ++ str ".png"
  = prefix ++ str "images/" ++ set ++ str "/" ++ name ++ str ".png" ->
  forallb is_word set' = true -> forallb not_slash name' = true ->
  forallb is_word set = true -> forallb not_slash name = true ->
  set' = set /\ name' = name.
Proof.
  intros Heq Hset' Hname' Hset Hname.
  cut_last Heq "/"%char
    (before ++ str "images/" ++ set') (prefix ++ str "images/" ++ set)
    (name' ++ str ".png") (name ++ str ".png") Hcut.
  destruct Hcut as [Hhead Htail].
  apply app_inv_tail in Htail.
  cut_last Hhead "/"%char
    (before ++ str "images") (prefix ++ str "images") set' set Hcut.
  destruct Hcut as [_ ->]. auto.
Qed.

Lemma legacySet_intro (set name : jsstring) :
  set <> [] -> forallb is_word set = true ->
  name <> [] -> forallb not_slash name = true ->
  matches legacySet_regex
    (str "images/" ++ set ++ str "/" ++ name ++ str ".png" ++ []) [] []
    [ ("name"%string, name); ("set"%string, set) ].
Proof.
  intros Hs0 Hs Hn0 Hn.
  unfold legacySet_regex, rseq. cbn [fold_right].
  repeat (eapply matches_seq;
          [ first [ apply matches_lit
                  | apply matches_named_many; assumption
                  | apply matches_end ] | ]).
  apply (matches_lit [] []).
Qed.

Lemma exec_legacy_set (prefix set name : jsstring) :
  set <> [] -> forallb is_word set = true ->
  name <> [] -> forallb not_slash name = true ->
  regex_exec legacySet_regex (legacy_set_url prefix set name)
  = Some [ ("name"%string, name); ("set"%string, set) ].
Proof.
  intros Hs0 Hs Hn0 Hn.
  destruct (regex_exec_complete legacySet_regex prefix _ _ _
              (legacySet_intro set name Hs0 Hs Hn0 Hn)) as [caps Hexec].
  change (prefix ++ str "images/" ++ set ++ str "/" ++ name ++ str ".png" ++ [])
    with (legacy_set_url prefix set name) in Hexec.
  destruct (regex_exec_sound _ _ _ Hexec) as [before [s0 [s' [Hurl [Hm _]]]]].
  apply legacySet_shape in Hm.
  destruct Hm as [set' [name' [-> [-> [Hs' [Hn' ->]]]]]].
  unfold legacy_set_url in Hurl. symmetry in Hurl.
  destruct (legacy_set_unique _ _ _ _ _ _ Hurl Hs' Hn' Hs Hn) as [-> ->].
  exact Hexec.
Qed.

(** A URL of the legacy set grammar is parsed back, with the default
    colour. *)
Lemma parseIconUrl_legacy_set (prefix set name : jsstring) :
  set <> [] -> forallb is_word set = true ->
  name <> [] -> forallb not_slash name = true ->
  run (parseIconUrl (legacy_set_url prefix set name))
  = (Ok (Some {| set := set; name := name;
                 color := {| r := 255; g := 0; b := 0 |};
                 isLegacy := true |}), []).
Proof.
  intros Hs0 Hs Hn0 Hn.
  rewrite parseIconUrl_unfold, (legacy_set_not_colored prefix set name Hs Hn),
    (exec_legacy_set prefix set name Hs0 Hs Hn0 Hn).
  reflexivity.
Qed.

(** *** The current grammar *)

Lemma has_suffix_intro (suffix x : jsstring) :
  has_suffix suffix (x ++ suffix) = true.
Proof.
  unfold has_suffix. rewrite rev_app_distr, strip_prefix_complete. reflexivity.
Qed.

Lemma no_start_in_suffix (text : jsstring) :
  forall p1 l,
    no_start_in text (p1 ++ l) = true -> l <> [] ->
    strip_prefix text (l ++ text) = None.
Proof.
  induction p1 as [|c p1 IH]; intros l Hno Hl.
  - destruct l as [|c l]; [contradiction|].
    simpl app in Hno. cbn [no_start_in] in Hno.
    apply andb_true_iff in Hno. destruct Hno as [Hno _].
    destruct (strip_prefix text ((c :: l) ++ text)); [discriminate|reflexivity].
  - simpl app in Hno. cbn [no_start_in] in Hno.
    apply andb_true_iff in Hno. destruct Hno as [_ Hno].
    apply (IH l Hno Hl).
Qed.

Lemma strip_prefix_None_app (text : jsstring) :
  forall a b,
    strip_prefix text a = None -> (length text <= length a)%nat ->
    strip_prefix text (a ++ b) = None.
Proof.
  induction text as [|t text IH]; intros a b Hnone Hlen; simpl in Hnone.
  - discriminate.
  - destruct a as [|c a]; [simpl in Hlen; lia|].
    simpl. destruct (ascii_eqb t c); [|reflexivity].
    apply IH; [exact Hnone | simpl in Hlen; lia].
Qed.

(** A string that starts with [text] at two positions, the second one
    being the end of [prefix]: the first one is not earlier. *)
Lemma start_at_prefix (text prefix before rest rest' : jsstring) :
  no_start_in text prefix = true ->
  before ++ text ++ rest' = prefix ++ text ++ rest ->
  (length before <= length prefix)%nat ->
  before = prefix.
Proof.
  intros Hno Heq Hlen.
  apply app_eq_app in Heq. destruct Heq as [l [[-> Hrest] | [-> Hrest]]].
  - rewrite length_app in Hlen. destruct l; [apply app_nil_r | simpl in Hlen; lia].
  - destruct l as [|c l]; [symmetry; apply app_nil_r|]. exfalso.
    pose proof (no_start_in_suffix text before (c :: l) Hno ltac:(discriminate))
      as Hnone.
    apply (strip_prefix_None_app text _ rest) in Hnone.
    + rewrite <- app_assoc, <- Hrest, strip_prefix_complete in Hnone.
      discriminate.
    + rewrite length_app. lia.
Qed.

Lemma forallb_weaken (cls cls' : ascii -> bool) (w : jsstring) :
  (forall c, cls c = true -> cls' c = true) ->
  forallb cls w = true -> forallb cls' w = true.
Proof.
  intros Himp Hw. apply forallb_forall. intros c Hc.
  rewrite forallb_forall in Hw. apply Himp, Hw, Hc.
Qed.

Lemma icon_name_any_char (name : jsstring) :
  forallb icon_name_char name = true -> forallb any_char name = true.
Proof.
  apply forallb_weaken. intros c Hc. unfold icon_name_char in Hc.
  apply andb_true_iff in Hc. destruct Hc as [Hc _].
  apply andb_true_iff in Hc. destruct Hc as [Hc _]. exact Hc.
Qed.

Lemma scale_intro (whole : jsstring) (fraction : option jsstring)
  (rest : jsstring) (caps : Captures) :
  numeral whole -> fraction_ok fraction ->
  matches
    (RNamed "scale"
       (rseq [ digits1; ROpt (RGroup (rseq [ RLit (str "."); digits1 ])) ]))
    (scale_text whole fraction ++ rest) rest caps
    (("scale"%string, scale_text whole fraction) :: caps).
Proof.
  intros [Hw0 Hw] Hf. unfold rseq, digits1. cbn [fold_right].
  cbn [matches]. exists caps. split.
  - exists (match fraction with
            | Some digits => str "." ++ digits
            | None => []
            end ++ rest), caps.
    split.
    + exists whole. unfold scale_text. rewrite <- app_assoc. auto.
    + exists rest, caps. split; [|auto].
      destruct fraction as [digits|].
      * left. destruct Hf as [Hd0 Hd].
        exists (digits ++ rest), caps. split.
        -- split; [rewrite <- app_assoc|]; reflexivity.
        -- exists rest, caps. split; [|auto]. exists digits. auto.
      * right. auto.
  - rewrite firstn_consumed. reflexivity.
Qed.

Lemma set_intro (set name whole : jsstring) (fraction : option jsstring)
  (r g b : jsstring) :
  set <> [] -> forallb is_word set = true ->
  name <> [] -> forallb any_char name = true ->
  numeral whole -> fraction_ok fraction ->
  numeral r -> numeral g -> numeral b ->
  matches set_regex
    (str "api/icons/sets/" ++ set ++ str "/icons/" ++ name ++ str "@"
     ++ scale_text whole fraction ++ str "x-"
     ++ r ++ str "," ++ g ++ str "," ++ b ++ str ".png" ++ [])
    [] []
    [ ("b"%string, b); ("g"%string, g); ("r"%string, r);
      ("scale"%string, scale_text whole fraction);
      ("name"%string, name); ("set"%string, set) ].
Proof.
  intros Hs0 Hs Hn0 Hn Hw Hf [Hr0 Hr] [Hg0 Hg] [Hb0 Hb].
  unfold set_regex. unfold rseq at 1. cbn [fold_right].
  eapply matches_seq; [apply matches_lit|].
  eapply matches_seq; [apply matches_named_many; assumption|].
  eapply matches_seq; [apply matches_lit|].
  eapply matches_seq; [apply matches_named_many; assumption|].
  eapply (matches_seq _ _ _ (str ".png" ++ []) _ _ _ _).
  - cbn [matches]. unfold rseq at 1. cbn [fold_right].
    eapply matches_seq; [apply matches_lit|].
    eapply matches_seq; [apply (scale_intro whole fraction); assumption|].
    unfold digits1.
    repeat (eapply matches_seq;
            [ first [ apply matches_lit
                    | apply matches_named_many; assumption ] | ]).
    apply (matches_lit [] (str ".png" ++ [])).
  - eapply matches_seq; [apply matches_lit|]. apply (matches_lit [] []).
Qed.

Lemma scale_text_chars (whole : jsstring) (fraction : option jsstring) :
  numeral whole -> fraction_ok fraction ->
  forallb scale_char (scale_text whole fraction) = true.
Proof.
  assert (Hd : forall w, forallb is_digit w = true ->
                         forallb scale_char w = true).
  { intros w. apply forallb_weaken. intros c Hc. unfold scale_char.
    rewrite Hc. reflexivity. }
  intros [_ Hw] Hf. unfold scale_text. rewrite forallb_app, (Hd whole Hw).
  destruct fraction as [digits|]; [|reflexivity].
  destruct Hf as [_ Hf]. simpl. apply (Hd digits Hf).
Qed.

Lemma current_url_tail (prefix set name whole : jsstring)
  (fraction : option jsstring) (r g b : jsstring) :
  current_url prefix set name whole fraction r g b
  = prefix ++ str "api/icons/sets/"
    ++ current_tail set name (scale_text whole fraction) r g b.
Proof. reflexivity. Qed.

(** No URL of the current grammar matches the legacy coloured pattern. *)
Lemma current_not_colored (prefix set name scale r g b : jsstring) :
  forallb icon_name_char name = true -> forallb scale_char scale = true ->
  forallb is_digit r = true -> forallb is_digit g = true ->
  forallb is_digit b = true ->
  regex_exec legacyDefault_regex
    (prefix ++ str "api/icons/sets/" ++ current_tail set name scale r g b)
  = None.
Proof.
  intros Hname Hscale Hr Hg Hb.
  destruct (regex_exec legacyDefault_regex _) as [caps|] eqn:Hexec;
    [exfalso | reflexivity].
  destruct (regex_exec_sound _ _ _ Hexec) as [before [s0 [s' [Hurl [Hm _]]]]].
  apply legacyDefault_shape in Hm.
  destruct Hm as [r' [g' [b' [name' [size' [scale' Hm]]]]]].
  destruct Hm as [-> [-> [Hr' [Hg' [Hb' [Hn' [Hs' [Hc' ->]]]]]]]].
  unfold current_tail in Hurl. symmetry in Hurl.
  cut_last Hurl "/"%char
    (before ++ str "color/" ++ r' ++ str "," ++ g' ++ str "," ++ b')
    (prefix ++ str "api/icons/sets/" ++ set ++ str "/icons")
    (name' ++ str "-" ++ size' ++ str "@" ++ scale' ++ str "x.png")
    (name ++ str "@" ++ scale ++ str "x-"
     ++ r ++ str "," ++ g ++ str "," ++ b ++ str ".png") Hcut.
  destruct Hcut as [Hhead _].
  cut_last Hhead "/"%char
    (before ++ str "color") (prefix ++ str "api/icons/sets/" ++ set)
    (r' ++ str "," ++ g' ++ str "," ++ b') (str "icons") Hcut.
  destruct Hcut as [_ Hcomma].
  apply (forallb_not_In is_word ","%char (str "icons") eq_refl eq_refl).
  rewrite <- Hcomma. apply (In_middle ","%char r').
Qed.

(** A string that ends with "images" and with [/set]: the set name ends
    with "images". *)
Lemma images_before_set (before head set : jsstring) :
  before ++ str "images" = head ++ str "/" ++ set ->
  has_suffix (str "images") set = true.
Proof.
  intros Heq.
  assert (Hrev : rev (str "images") ++ rev before
                 = rev set ++ "/"%char :: rev head).
  { apply (f_equal (@rev ascii)) in Heq.
    rewrite !rev_app_distr in Heq. simpl in Heq.
    rewrite <- app_assoc in Heq. exact Heq. }
  unfold has_suffix. simpl rev in *.
  destruct (rev set) as [|c1 [|c2 [|c3 [|c4 [|c5 [|c6 rest]]]]]];
    simpl in Hrev; try discriminate;
    try (injection Hrev; intros; subst; discriminate).
  injection Hrev as <- <- <- <- <- <- _. reflexivity.
Qed.

(** No URL of the current grammar whose set name does not end with
    "images" matches the legacy set pattern. *)
Lemma current_not_legacy_set (prefix set name scale r g b : jsstring) :
  has_suffix (str "images") set = false ->
  forallb icon_name_char name = true -> forallb scale_char scale = true ->
  forallb is_digit r = true -> forallb is_digit g = true ->
  forallb is_digit b = true ->
  regex_exec legacySet_regex
    (prefix ++ str "api/icons/sets/" ++ current_tail set name scale r g b)
  = None.
Proof.
  intros Hsuffix Hname Hscale Hr Hg Hb.
  destruct (regex_exec legacySet_regex _) as [caps|] eqn:Hexec;
    [exfalso | reflexivity].
  destruct (regex_exec_sound _ _ _ Hexec) as [before [s0 [s' [Hurl [Hm _]]]]].
  apply legacySet_shape in Hm.
  destruct Hm as [set' [name' [-> [-> [Hs' [Hn' ->]]]]]].
  unfold current_tail in Hurl. symmetry in Hurl.
  cut_last Hurl "/"%char
    (before ++ str "images/" ++ set')
    (prefix ++ str "api/icons/sets/" ++ set ++ str "/icons")
    (name' ++ str ".png")
    (name ++ str "@" ++ scale ++ str "x-"
     ++ r ++ str "," ++ g ++ str "," ++ b ++ str ".png") Hcut.
  destruct Hcut as [Hhead _].
  cut_last Hhead "/"%char
    (before ++ str "images") (prefix ++ str "api/icons/sets/" ++ set)
    set' (str "icons") Hcut.
  destruct Hcut as [Himages _].
  assert (Hend : before ++ str "images"
                 = (prefix ++ str "api/icons/sets") ++ str "/" ++ set)
    by (rewrite <- app_assoc; exact Himages).
  rewrite (images_before_set _ _ _ Hend) in Hsuffix. discriminate.
Qed.

Lemma current_tail_unique
  (set' name' scale' r' g' b' s' set name scale r g b : jsstring) :
  current_tail set' name' scale' r' g' b' ++ s'
  = current_tail set name scale r g b ->
  forallb is_word set' = true -> forallb is_digit r' = true ->
  forallb is_digit g' = true -> forallb is_digit b' = true ->
  forallb is_word set = true -> forallb icon_name_char name = true ->
  forallb scale_char scale = true -> forallb is_digit r = true ->
  forallb is_digit g = true -> forallb is_digit b = true ->
  set' = set /\ name' = name /\ scale' = scale
  /\ r' = r /\ g' = g /\ b' = b.
Proof.
  intros Heq Hset' Hr' Hg' Hb' Hset Hname Hscale Hr Hg Hb.
  unfold current_tail in Heq. rewrite <- !app_assoc in Heq.
  cut_first Heq "/"%char set' set
    (str "icons/" ++ name' ++ str "@" ++ scale' ++ str "x-"
     ++ r' ++ str "," ++ g' ++ str "," ++ b' ++ str ".png" ++ s')
    (str "icons/" ++ name ++ str "@" ++ scale ++ str "x-"
     ++ r ++ str "," ++ g ++ str "," ++ b ++ str ".png") Hcut.
  destruct Hcut as [-> Htail]. apply app_inv_head in Htail.
  cut_only Htail "@"%char name' name
    (scale' ++ str "x-" ++ r' ++ str "," ++ g' ++ str "," ++ b'
     ++ str ".png" ++ s')
    (scale ++ str "x-" ++ r ++ str "," ++ g ++ str "," ++ b ++ str ".png")
    Hcut.
  destruct Hcut as [-> Htail2].
  cut_only Htail2 "x"%char scale' scale
    (str "-" ++ r' ++ str "," ++ g' ++ str "," ++ b' ++ str ".png" ++ s')
    (str "-" ++ r ++ str "," ++ g ++ str "," ++ b ++ str ".png") Hcut.
  destruct Hcut as [-> Htail3]. apply app_inv_head in Htail3.
  cut_first Htail3 ","%char r' r
    (g' ++ str "," ++ b' ++ str ".png" ++ s')
    (g ++ str "," ++ b ++ str ".png") Hcut.
  destruct Hcut as [-> Htail4].
  cut_first Htail4 ","%char g' g
    (b' ++ str ".png" ++ s') (b ++ str ".png") Hcut.
  destruct Hcut as [-> Htail5].
  cut_first Htail5 "."%char b' b (str "png" ++ s') (str "png") Hcut.
  destruct Hcut as [-> _].
  repeat split; reflexivity.
Qed.

Lemma exec_current (prefix set name whole : jsstring)
  (fraction : option jsstring) (r g b : jsstring) :
  no_start_in (str "api/icons/sets/") prefix = true ->
  set <> [] -> forallb is_word set = true ->
  name <> [] -> forallb icon_name_char name = true ->
  numeral whole -> fraction_ok fraction ->
  numeral r -> numeral g -> numeral b ->
  regex_exec set_regex (current_url prefix set name whole fraction r g b)
  = Some [ ("b"%string, b); ("g"%string, g); ("r"%string, r);
           ("scale"%string, scale_text whole fraction);
           ("name"%string, name); ("set"%string, set) ].
Proof.
  intros Hprefix Hs0 Hs Hn0 Hn Hw Hf Hr Hg Hb.
  pose proof (set_intro set name whole fraction r g b Hs0 Hs Hn0
                (icon_name_any_char name Hn) Hw Hf Hr Hg Hb) as Hintended.
  destruct (regex_exec_complete set_regex prefix _ _ _ Hintended)
    as [caps Hexec].
  change (prefix ++ str "api/icons/sets/" ++ set ++ str "/icons/" ++ name
          ++ str "@" ++ scale_text whole fraction ++ str "x-"
          ++ r ++ str "," ++ g ++ str "," ++ b ++ str ".png" ++ [])
    with (current_url prefix set name whole fraction r g b)
    in Hexec.
  destruct (regex_exec_sound _ _ _ Hexec)
    as [before [s0 [s' [Hurl [Hm Hleft]]]]].
  assert (Hlen : (length before <= length prefix)%nat).
  { destruct (Nat.le_gt_cases (length before) (length prefix)) as [Hle | Hgt];
      [exact Hle | exfalso].
    apply (Hleft prefix _ [] _ eq_refl Hgt Hintended). }
  apply set_shape in Hm.
  destruct Hm as [set' [name' [whole' [fraction' [r' [g' [b' Hm]]]]]]].
  destruct Hm as [-> [Hs' [Hr' [Hg' [Hb' ->]]]]].
  rewrite current_url_tail in Hurl. symmetry in Hurl.
  change (str "api/icons/sets/" ++ set' ++ str "/icons/" ++ name' ++ str "@"
          ++ scale_text whole' fraction' ++ str "x-"
          ++ r' ++ str "," ++ g' ++ str "," ++ b' ++ str ".png" ++ s')
    with (str "api/icons/sets/"
          ++ (set' ++ str "/icons/" ++ name' ++ str "@"
              ++ scale_text whole' fraction' ++ str "x-"
              ++ r' ++ str "," ++ g' ++ str "," ++ b' ++ str ".png" ++ s'))
    in Hurl.
  pose proof (start_at_prefix _ _ _ _ _ Hprefix Hurl Hlen) as Hbefore.
  subst before. apply app_inv_head in Hurl. apply app_inv_head in Hurl.
  assert (Htails : current_tail set' name' (scale_text whole' fraction') r' g' b'
                   ++ s'
                   = current_tail set name (scale_text whole fraction) r g b).
  { unfold current_tail. rewrite <- !app_assoc. exact Hurl. }
  destruct (current_tail_unique _ _ _ _ _ _ _ _ _ _ _ _ _ Htails
              Hs' Hr' Hg' Hb' Hs Hn (scale_text_chars whole fraction Hw Hf)
              (proj2 Hr) (proj2 Hg) (proj2 Hb))
    as [-> [-> [Hscale [-> [-> ->]]]]].
  rewrite Hscale in Hexec. exact Hexec.
Qed.

(** A URL of the current grammar is parsed back, when nothing in it can be
    read as an earlier start of the pattern or as a legacy URL. *)
Lemma parseIconUrl_current (prefix set name whole : jsstring)
  (fraction : option jsstring) (r g b : jsstring) :
  no_start_in (str "api/icons/sets/") prefix = true ->
  set <> [] -> forallb is_word set = true ->
  has_suffix (str "images") set = false ->
  name <> [] -> forallb icon_name_char name = true ->
  numeral whole -> fraction_ok fraction ->
  channel r -> channel g -> channel b ->
  run (parseIconUrl (current_url prefix set name whole fraction r g b))
  = (Ok (Some {| set := set; name := name;
                 color := {| r := decimal_value r; g := decimal_value g;
                             b := decimal_value b |};
                 isLegacy := false |}), []).
Proof.
  intros Hprefix Hs0 Hs Hsuffix Hn0 Hn Hw Hf Hr Hg Hb.
  pose proof (scale_text_chars whole fraction Hw Hf) as Hscale.
  rewrite parseIconUrl_unfold.
  rewrite (exec_current prefix set name whole fraction r g b Hprefix Hs0 Hs
             Hn0 Hn Hw Hf (proj1 Hr) (proj1 Hg) (proj1 Hb)).
  rewrite current_url_tail.
  rewrite (current_not_colored prefix set name _ r g b Hn Hscale
             (proj2 (proj1 Hr)) (proj2 (proj1 Hg)) (proj2 (proj1 Hb))).
  rewrite (current_not_legacy_set prefix set name _ r g b Hsuffix Hn Hscale
             (proj2 (proj1 Hr)) (proj2 (proj1 Hg)) (proj2 (proj1 Hb))).
  unfold run, parseIconUrl_with, bind, lift, ret. cbn [nullish_opt group].
  cbn [String.eqb Ascii.eqb Bool.eqb nullish channel_or is_some orb].
  rewrite (parseRGBColor_channel r "R" Hr), (parseRGBColor_channel g "B" Hg),
    (parseRGBColor_channel b "G" Hb).
  reflexivity.
Qed.

(** A URL that none of the three patterns matches gives null, with a
    warning, and nothing is thrown. *)
Lemma parseIconUrl_unmatched (url : jsstring) :
  regex_exec legacyDefault_regex url = None ->
  regex_exec legacySet_regex url = None ->
  regex_exec set_regex url = None ->
  run (parseIconUrl url)
  = (Ok None, [LogWarn "Could not retrieve icon infos from URL"]).
Proof.
  intros H1 H2 H3. rewrite parseIconUrl_unfold, H1, H2, H3. reflexivity.
Qed.

(** C7, as the code has it.  [parseIconUrl] recovers the set, the name,
    the colour and the legacy flag

    - of every legacy coloured URL
      [<prefix>color/<r>,<g>,<b>/<name>-<size>@<scale>x.png]
      (set "default", legacy);
    - of every legacy set URL [<prefix>images/<set>/<name>.png]
      (default colour 255,0,0, legacy);
    - of a current URL
      [<prefix>api/icons/sets/<set>/icons/<name>@<scale>x-<r>,<g>,<b>.png]
      (not legacy) provided that the pattern cannot start earlier, inside
      the prefix, that the set name does not end with "images", and that
      the name contains neither [/] nor [@] nor a line terminator;

    where a prefix is any string, a set name is a non-empty run of word
    characters, a name is non-empty without [/], and the channels are
    decimal numerals of at most 255.  A URL that none of the three
    patterns matches gives null, with a warning, and nothing is thrown. *)
Theorem parseIconUrl_round_trip :
  (forall prefix r g b name size scale : jsstring,
      channel r -> channel g -> channel b ->
      name <> [] -> forallb not_slash name = true ->
      numeral size -> numeral scale ->
      run (parseIconUrl (legacy_colored_url prefix r g b name size scale))
      = (Ok (Some {| set := str "default"; name := name;
                     color := {| r := decimal_value r; g := decimal_value g;
                                 b := decimal_value b |};
                     isLegacy := true |}), []))
  /\ (forall prefix set name : jsstring,
        set <> [] -> forallb is_word set = true ->
        name <> [] -> forallb not_slash name = true ->
        run (parseIconUrl (legacy_set_url prefix set name))
        = (Ok (Some {| set := set; name := name;
                       color := {| r := 255; g := 0; b := 0 |};
                       isLegacy := true |}), []))
  /\ (forall (prefix set name whole : jsstring) (fraction : option jsstring)
             (r g b : jsstring),
        no_start_in (str "api/icons/sets/") prefix = true ->
        set <> [] -> forallb is_word set = true ->
        has_suffix (str "images") set = false ->
        name <> [] -> forallb icon_name_char name = true ->
        numeral whole -> fraction_ok fraction ->
        channel r -> channel g -> channel b ->
        run (parseIconUrl (current_url prefix set name whole fraction r g b))
        = (Ok (Some {| set := set; name := name;
                       color := {| r := decimal_value r; g := decimal_value g;
                                   b := decimal_value b |};
                       isLegacy := false |}), []))
  /\ (forall url : jsstring,
        regex_exec legacyDefault_regex url = None ->
        regex_exec legacySet_regex url = None ->
        regex_exec set_regex url = None ->
        run (parseIconUrl url)
        = (Ok None, [LogWarn "Could not retrieve icon infos from URL"])).
Proof.
  split; [exact parseIconUrl_legacy_colored|].
  split; [exact parseIconUrl_legacy_set|].
  split; [exact parseIconUrl_current | exact parseIconUrl_unmatched].
Qed.

(** Discharge a side condition on concrete strings by evaluation. *)
Ltac by_evaluation :=
  repeat split;
  first [ reflexivity
        | vm_compute; first [ reflexivity | discriminate
                            | intro; discriminate ] ].

Lemma parseIconUrl_round_trip_witness :
  run (parseIconUrl
         (str "https://api3.geo.admin.ch/color/255,0,0/marker-24@2x.png"))
  = (Ok (Some {| set := str "default"; name := str "marker";
                 color := {| r := 255; g := 0; b := 0 |};
                 isLegacy := true |}), [])
  /\ run (parseIconUrl (str "https://api3.geo.admin.ch/images/babs/babs-3.png"))
     = (Ok (Some {| set := str "babs"; name := str "babs-3";
                    color := {| r := 255; g := 0; b := 0 |};
                    isLegacy := true |}), [])
  /\ run (parseIconUrl
            (str "https://map.geo.admin.ch/api/icons/sets/default/icons/001-marker@1.5x-0,128,255.png"))
     = (Ok (Some {| set := str "default"; name := str "001-marker";
                    color := {| r := 0; g := 128; b := 255 |};
                    isLegacy := false |}), [])
  /\ run (parseIconUrl external_pin_url)
     = (Ok None, [LogWarn "Could not retrieve icon infos from URL"]).
Proof.
  destruct parseIconUrl_round_trip as [Hcolored [Hset [Hcurrent Hnone]]].
  split; [|split; [|split]].
  - apply (Hcolored (str "https://api3.geo.admin.ch/") (str "255") (str "0")
             (str "0") (str "marker") (str "24") (str "2")); by_evaluation.
  - apply (Hset (str "https://api3.geo.admin.ch/") (str "babs")
             (str "babs-3")); by_evaluation.
  - apply (Hcurrent (str "https://map.geo.admin.ch/") (str "default")
             (str "001-marker") (str "1") (Some (str "5")) (str "0")
             (str "128") (str "255")); by_evaluation.
  - apply (Hnone external_pin_url); by_evaluation.
Defined.

(** C7 as stated fails: the current URL of the icon "marker" of a set named
    "images", in blue, also matches the legacy set pattern, which is tried
    first; it comes back as the legacy icon "marker@1x-0,0,255" of the set
    "icons", in the default red. *)
Lemma parseIconUrl_current_read_as_legacy :
  current_url (str "https://map.geo.admin.ch/") (str "images") (str "marker")
    (str "1") None (str "0") (str "0") (str "255")
  = str "https://map.geo.admin.ch/api/icons/sets/images/icons/marker@1x-0,0,255.png"
  /\ run (parseIconUrl
            (current_url (str "https://map.geo.admin.ch/") (str "images")
               (str "marker") (str "1") None (str "0") (str "0") (str "255")))
     = (Ok (Some {| set := str "icons"; name := str "marker@1x-0,0,255";
                    color := {| r := 255; g := 0; b := 0 |};
                    isLegacy := true |}), [])
  /\ run (parseIconUrl
            (current_url (str "https://map.geo.admin.ch/") (str "images")
               (str "marker") (str "1") None (str "0") (str "0") (str "255")))
     <> (Ok (Some {| set := str "images"; name := str "marker";
                     color := {| r := 0; g := 0; b := 255 |};
                     isLegacy := false |}), []).
Proof.
  split; [vm_compute; reflexivity|].
  split; [vm_compute; reflexivity|].
  vm_compute. discriminate.
Qed.

(* ------------------------------------------------------------------ *)
(** ** The other getters of a profile *)
(* ------------------------------------------------------------------ *)

(** *** Highest and lowest elevation *)

Lemma xmax_pick (a b : xnum) :
  xis_nan a = false -> xis_nan b = false ->
  xleb a (xmax a b) = true /\ xleb b (xmax a b) = true
  /\ (xmax a b = a \/ xmax a b = b).
Proof.
  intros Ha Hb. unfold xmax. rewrite Ha, Hb. cbn [orb].
  exact (pick_max a b Ha Hb).
Qed.

Lemma xmin_pick (a b : xnum) :
  xis_nan a = false -> xis_nan b = false ->
  xleb (xmin a b) a = true /\ xleb (xmin a b) b = true
  /\ (xmin a b = a \/ xmin a b = b).
Proof.
  intros Ha Hb. unfold xmin. rewrite Ha, Hb. cbn [orb].
  exact (pick_min a b Ha Hb).
Qed.

Lemma xfinite_not_nan (a : xnum) : xfinite a -> xis_nan a = false.
Proof. destruct a; simpl; intros H; try contradiction; reflexivity. Qed.

Lemma fold_xmax (values : list xnum) :
  forall acc,
    xis_nan acc = false -> Forall xfinite values ->
    let m := fold_left xmax values acc in
    (m = acc \/ In m values) /\ xleb acc m = true
    /\ forall x, In x values -> xleb x m = true.
Proof.
  induction values as [|v values IH]; intros acc Hacc Hfin; cbn [fold_left].
  - split; [left; reflexivity|].
    split; [apply xleb_refl, Hacc | intros x []].
  - inversion Hfin as [|v0 values0 Hv Hrest]; subst.
    pose proof (xfinite_not_nan v Hv) as Hvn.
    destruct (xmax_pick acc v Hacc Hvn) as [Hle1 [Hle2 Hpick]].
    assert (Hm : xis_nan (xmax acc v) = false)
      by (destruct Hpick as [-> | ->]; assumption).
    destruct (IH (xmax acc v) Hm Hrest) as [Horigin [Hge Hall]].
    split; [|split].
    + destruct Horigin as [Heq | Hin]; [|right; right; exact Hin].
      rewrite Heq. destruct Hpick as [-> | ->];
        [left; reflexivity | right; left; reflexivity].
    + exact (xleb_trans _ _ _ Hle1 Hge).
    + intros x [<- | Hin]; [exact (xleb_trans _ _ _ Hle2 Hge) | exact (Hall x Hin)].
Qed.

Lemma fold_xmin (values : list xnum) :
  forall acc,
    xis_nan acc = false -> Forall xfinite values ->
    let m := fold_left xmin values acc in
    (m = acc \/ In m values) /\ xleb m acc = true
    /\ forall x, In x values -> xleb m x = true.
Proof.
  induction values as [|v values IH]; intros acc Hacc Hfin; cbn [fold_left].
  - split; [left; reflexivity|].
    split; [apply xleb_refl, Hacc | intros x []].
  - inversion Hfin as [|v0 values0 Hv Hrest]; subst.
    pose proof (xfinite_not_nan v Hv) as Hvn.
    destruct (xmin_pick acc v Hacc Hvn) as [Hle1 [Hle2 Hpick]].
    assert (Hm : xis_nan (xmin acc v) = false)
      by (destruct Hpick as [-> | ->]; assumption).
    destruct (IH (xmin acc v) Hm Hrest) as [Horigin [Hge Hall]].
    split; [|split].
    + destruct Horigin as [Heq | Hin]; [|right; right; exact Hin].
      rewrite Heq. destruct Hpick as [-> | ->];
        [left; reflexivity | right; left; reflexivity].
    + exact (xleb_trans _ _ _ Hge Hle1).
    + intros x [<- | Hin]; [exact (xleb_trans _ _ _ Hge Hle2) | exact (Hall x Hin)].
Qed.

Lemma Forall_finite_elevations (points : list (ProfilePoint xnum)) :
  Forall finite_elevation points ->
  Forall xfinite (map (fun point => elevation point) points).
Proof.
  intros Hfin. induction Hfin as [|p points Hp _ IH]; constructor; assumption.
Qed.

(** X1.  On a profile with data and finite elevations, [maxElevation] and
    [minElevation] are elevations of points of the profile, and every
    elevation lies between them. *)
Theorem maxElevation_minElevation_bounds (points : list (ProfilePoint xnum)) :
  hasData points = true ->
  Forall finite_elevation points ->
  (exists p, In p points /\ maxElevation points = elevation p)
  /\ (exists p, In p points /\ minElevation points = elevation p)
  /\ forall p, In p points ->
       xleb (minElevation points) (elevation p) = true
       /\ xleb (elevation p) (maxElevation points) = true.
Proof.
  intros Hdata Hfin. unfold maxElevation, minElevation. rewrite Hdata.
  cbn [negb]. unfold Math_max, Math_min.
  pose proof (Forall_finite_elevations points Hfin) as Hfinite.
  destruct (fold_xmax (map (fun point => elevation point) points)
              XNegInf eq_refl Hfinite) as [Hmax_in [_ Hmax]].
  destruct (fold_xmin (map (fun point => elevation point) points)
              XPosInf eq_refl Hfinite) as [Hmin_in [_ Hmin]].
  cbn [num_max num_min num_infinity num_neg_infinity xnum_number] in *.
  destruct points as [|first rest]; [discriminate|].
  inversion Hfin as [|p0 rest0 Hfirst _]; subst.
  assert (Hfirst_in : In (elevation first)
                        (map (fun point => elevation point) (first :: rest)))
    by (left; reflexivity).
  split; [|split].
  - destruct Hmax_in as [Heq | Hin].
    + pose proof (Hmax _ Hfirst_in) as Hle. rewrite Heq in Hle.
      unfold finite_elevation in Hfirst.
      destruct (elevation first); simpl in Hfirst; try contradiction;
        discriminate.
    + apply in_map_iff in Hin. destruct Hin as [p [Hp Hin]].
      exists p. split; [exact Hin | symmetry; exact Hp].
  - destruct Hmin_in as [Heq | Hin].
    + pose proof (Hmin _ Hfirst_in) as Hle. rewrite Heq in Hle.
      unfold finite_elevation in Hfirst.
      destruct (elevation first); simpl in Hfirst; try contradiction;
        discriminate.
    + apply in_map_iff in Hin. destruct Hin as [p [Hp Hin]].
      exists p. split; [exact Hin | symmetry; exact Hp].
  - intros p Hp.
    assert (Hin : In (elevation p)
                    (map (fun point => elevation point) (first :: rest)))
      by (apply in_map_iff; exists p; split; [reflexivity | exact Hp]).
    split; [exact (Hmin _ Hin) | exact (Hmax _ Hin)].
Qed.

Lemma maxElevation_minElevation_bounds_witness :
  maxElevation hike = XFin 500 /\ minElevation hike = XFin 100
  /\ forall p, In p hike ->
       xleb (minElevation hike) (elevation p) = true
       /\ xleb (elevation p) (maxElevation hike) = true.
Proof.
  split; [vm_compute; reflexivity|].
  split; [vm_compute; reflexivity|].
  apply (maxElevation_minElevation_bounds hike);
    [reflexivity | repeat constructor].
Defined.

(** *** Fewer than two points *)

Section ProfileWithoutData.

Context {N : Type} {JN : JsNumber N} {JM : JsMath N}.

(** X2.  A profile of fewer than two points has no data: every getter
    guarded by [hasData] answers 0 whatever the point is, and the two
    accumulations have nothing to add to their initial 0. *)
Theorem profile_without_data (points : list (ProfilePoint N)) :
  (length points < 2)%nat ->
  hasData points = false
  /\ maxDist points = num_lit 0
  /\ maxElevation points = num_lit 0
  /\ minElevation points = num_lit 0
  /\ elevationDifference points = num_lit 0
  /\ totalAscent points = num_lit 0
  /\ totalDescent points = num_abs (num_lit 0)
  /\ hikingTime points = Ok (num_lit 0).
Proof.
  intros Hshort.
  destruct points as [|p [|q rest]]; [| |simpl in Hshort; lia];
    repeat split; reflexivity.
Qed.

End ProfileWithoutData.

Lemma profile_without_data_witness :
  maxElevation lone_summit = XFin 0 /\ hikingTime lone_summit = Ok (XFin 0).
Proof.
  pose proof (profile_without_data lone_summit) as H.
  cbn [length lone_summit] in H.
  destruct (H ltac:(lia)) as [_ [_ [Hmax [_ [_ [_ [_ Htime]]]]]]].
  split; [exact Hmax | exact Htime].
Defined.

(** *** The length of the profile *)

Lemma float_truthy_not_nan (x : float) :
  float_truthy x = true -> PrimFloat.is_nan x = false.
Proof.
  unfold float_truthy. intros H. apply negb_true_iff in H.
  apply orb_false_iff in H. exact (proj2 H).
Qed.

(** X3.  In binary64, [maxDist] is the distance of the last point when the
    profile has data and that distance is a number other than 0; in every
    other case it is 0.  So [maxDist] is never NaN, even where the backend
    sent a sample without a usable distance. *)
Theorem maxDist_never_NaN (points : list (ProfilePoint float))
  (fallback : ProfilePoint float) :
  PrimFloat.is_nan (maxDist points) = false
  /\ (if hasData points && float_truthy (dist (last points fallback))
      then maxDist points = dist (last points fallback)
      else maxDist points = num_lit 0).
Proof.
  unfold maxDist. destruct points as [|first rest].
  - split; vm_compute; reflexivity.
  - destruct (hasData (first :: rest)) eqn:Hdata; cbn [andb].
    + unfold point_at, profile_length.
      rewrite (nth_last_index (first :: rest) first).
      assert (Hlast : last (first :: rest) first = last (first :: rest) fallback).
      { clear. generalize first at 1 3. induction rest as [|x rest IH];
          intros y; [reflexivity|].
        destruct rest as [|z rest]; [reflexivity|]. exact (IH x). }
      rewrite Hlast. cbn [num_truthy float_number].
      destruct (float_truthy (dist (last (first :: rest) fallback))) eqn:Ht.
      * split; [apply float_truthy_not_nan, Ht | reflexivity].
      * split; [vm_compute; reflexivity | reflexivity].
    + split; [vm_compute; reflexivity | reflexivity].
Qed.

(** *** Ascent and descent against the elevation difference *)

Lemma pos_part_nonneg (d : Q) : 0 <= pos_part d.
Proof.
  unfold pos_part. destruct (Qltb d 0) eqn:E;
    [apply Qle_refl | apply Qltb_false in E; exact E].
Qed.

Lemma ascent_from_ge (rest : list Q) :
  forall a prev, a <= ascent_from a prev rest.
Proof.
  induction rest as [|x rest IH]; intros a prev; simpl.
  - apply Qle_refl.
  - eapply Qle_trans; [|apply IH].
    pose proof (pos_part_nonneg (x - prev)). lra.
Qed.

(** X4.  Computed without rounding on finite elevations, the total ascent
    and the total descent are finite and not negative, and the elevation
    difference lies between minus the descent and the ascent. *)
Theorem ascent_descent_bound_difference (points : list (ProfilePoint xnum)) :
  Forall finite_elevation points ->
  exists ascent descent difference : Q,
    totalAscent points = XFin ascent
    /\ totalDescent points = XFin descent
    /\ elevationDifference points = XFin difference
    /\ 0 <= ascent /\ 0 <= descent
    /\ - descent <= difference /\ difference <= ascent.
Proof.
  intros Hfin. destruct points as [|first rest].
  - exists 0, (Qabs 0), 0. repeat split; try reflexivity; vm_compute;
      discriminate.
  - inversion Hfin as [|p0 rest0 Hfirst Hrest]; subst.
    rewrite totalAscent_reduce, totalDescent_reduce.
    unfold array_reduce. cbn [reduce_indexed].
    change (ascent_step (XFin 0) first 0 (first :: rest)) with (XFin 0).
    change (descent_step (XFin 0) first 0 (first :: rest)) with (XFin 0).
    pose proof (@ascent_reduce rest [] first 0 Hfirst Hrest) as Hasc.
    pose proof (@descent_reduce rest [] first 0 Hfirst Hrest) as Hdesc.
    cbn [app length] in Hasc, Hdesc. rewrite Hasc, Hdesc. clear Hasc Hdesc.
    pose proof (telescope (map elev_q rest) 0 0 (elev_q first)) as Htel.
    pose proof (descent_from_ge (map elev_q rest) 0 (elev_q first)) as Hge.
    pose proof (ascent_from_ge (map elev_q rest) 0 (elev_q first)) as Hup.
    pose proof (Qabs_pos _ Hge) as Habs.
    exists (ascent_from 0 (elev_q first) (map elev_q rest)),
      (Qabs (descent_from 0 (elev_q first) (map elev_q rest))).
    unfold elevationDifference, hasData, profile_length.
    destruct rest as [|second rest'].
    + exists 0. cbn. repeat split; try reflexivity; vm_compute; discriminate.
    + cbn [length Nat.leb negb].
      unfold point_at.
      change (S (S (length rest')) - 1)%nat
        with (length (first :: second :: rest') - 1)%nat.
      rewrite nth_last_index.
      change (last (first :: second :: rest') first)
        with (last (second :: rest') first).
      rewrite (finite_elevation_eq _
                 (@last_finite (second :: rest') first Hfirst Hrest)).
      rewrite (finite_elevation_eq _ Hfirst), last_map_elev.
      cbn [num_sub num_abs xnum_number xsub xabs xadd xneg].
      eexists. split; [reflexivity|]. split; [reflexivity|].
      split; [reflexivity|]. rewrite Habs.
      repeat split; lra.
Qed.

Lemma ascent_descent_bound_difference_witness :
  exists ascent descent difference : Q,
    totalAscent hike = XFin ascent
    /\ totalDescent hike = XFin descent
    /\ elevationDifference hike = XFin difference
    /\ 0 <= ascent /\ 0 <= descent
    /\ - descent <= difference /\ difference <= ascent.
Proof.
  apply (ascent_descent_bound_difference hike). repeat constructor.
Defined.

(** *** The request, once its arguments are accepted *)

Section ProfileRequestOutcomes.

Context {N : Type} {JN : JsNumber N} {EX : Externals N}.

Lemma profile_accepted (coordinates : list (N * N)) (fileExtension : jsstring)
  (backend : jsstring -> option (list (N * N)) -> AxiosResult N) :
  coordinates <> [] ->
  accepted_extension fileExtension ->
  let url :=
    API_SERVICE_ALTI_BASE_URL ++ str "rest/services/profile" ++ fileExtension in
  let posted :=
    {| settled := Pending;
       events := [HttpPost url LV95_epsgNumber (Some coordinates)] |} in
  profile (Some coordinates) (Some fileExtension) backend
  = match backend url (Some coordinates) with
    | AxiosResponse data =>
        if data_truthy data then
          match data with
          | Some data =>
              if jsstring_eqb fileExtension (str ".json") then
                match parseProfileFromBackendResponse data with
                | Ok parsed => resolve (ResolvedProfile parsed) posted
                | Throw error =>
                    reject (ReasonError error)
                      (log_error "Error while getting profile" posted)
                end
              else resolve (ResolvedData data) posted
          | None => posted
          end
        else
          reject (ReasonMessage "Incorrect response while getting profile")
            (log_error "Incorrect response while getting profile" posted)
    | AxiosError error =>
        reject (ReasonError error)
          (log_error "Error while getting profile" posted)
    end.
Proof.
  intros Hcoords Hext url posted. unfold profile. cbn [nullish].
  assert (Hguard : negb (jsstring_eqb fileExtension (str ".json"))
                   && negb (jsstring_eqb fileExtension (str ".csv")) = false).
  { destruct Hext as [-> | ->]; reflexivity. }
  rewrite Hguard.
  destruct coordinates as [|c cs]; [contradiction|].
  cbn [length Nat.eqb]. reflexivity.
Qed.

(** X5.  A request with coordinates succeeds as follows.  [profileJson]
    fulfils the promise with one profile point per sample of the answer,
    in the order of the answer, carrying the sample's distance, its
    easting and northing as coordinate, and its COMB altitude as
    elevation (an empty answer gives the empty profile); [profileCsv]
    fulfils it with the answer as it came.  In both cases the run consists
    of the one POST and logs nothing. *)
Theorem profile_fulfilled (coordinates : list (N * N))
  (backend : jsstring -> option (list (N * N)) -> AxiosResult N) :
  coordinates <> [] ->
  let posted (fileExtension : jsstring) :=
    [ HttpPost
        (API_SERVICE_ALTI_BASE_URL ++ str "rest/services/profile"
         ++ fileExtension)
        LV95_epsgNumber (Some coordinates) ] in
  (forall samples,
      backend (API_SERVICE_ALTI_BASE_URL ++ str "rest/services/profile.json")
        (Some coordinates)
      = AxiosResponse (Some (JsonSamples samples)) ->
      profileJson (Some coordinates) backend
      = {| settled := Fulfilled (ResolvedProfile (map point_of_sample samples));
           events := posted (str ".json") |})
  /\ (forall data,
         backend (API_SERVICE_ALTI_BASE_URL ++ str "rest/services/profile.csv")
           (Some coordinates)
         = AxiosResponse (Some data) ->
         data_truthy (Some data) = true ->
         profileCsv (Some coordinates) backend
         = {| settled := Fulfilled (ResolvedData data);
              events := posted (str ".csv") |}).
Proof.
  intros Hcoords posted. split.
  - intros samples Hanswer. unfold profileJson.
    rewrite (profile_accepted coordinates (str ".json") backend Hcoords
               (or_introl eq_refl)).
    change (str "rest/services/profile" ++ str ".json")
      with (str "rest/services/profile.json").
    rewrite Hanswer. reflexivity.
  - intros data Hanswer Htruthy. unfold profileCsv.
    rewrite (profile_accepted coordinates (str ".csv") backend Hcoords
               (or_intror eq_refl)).
    change (str "rest/services/profile" ++ str ".csv")
      with (str "rest/services/profile.csv").
    rewrite Hanswer, Htruthy. reflexivity.
Qed.


Lemma settled_after_resolve (value : Resolved N) (run : PromiseRun N) :
  settled (resolve value run)
  = match settled run with Pending => Fulfilled value | state => state end.
Proof. reflexivity. Qed.

(** X7.  Whatever the arguments and whatever the backend answers, the
    promise that [profile] returns is settled, and it is fulfilled only
    for a request that passed both validations and got an answer with
    data: a refused request stays rejected when its answer arrives. *)
Theorem profile_settles (coordinates : option (list (N * N)))
  (fileExtension : option jsstring)
  (backend : jsstring -> option (list (N * N)) -> AxiosResult N) :
  let run := profile coordinates fileExtension backend in
  settled run <> Pending
  /\ forall value,
       settled run = Fulfilled value ->
       (exists c cs, coordinates = Some (c :: cs))
       /\ accepted_extension (nullish fileExtension (str ".json"))
       /\ exists data,
            backend
              (API_SERVICE_ALTI_BASE_URL ++ str "rest/services/profile"
               ++ nullish fileExtension (str ".json"))
              coordinates
            = AxiosResponse (Some data).
Proof.
  cbn zeta. unfold profile.
  set (ext := nullish fileExtension (str ".json")).
  set (url := API_SERVICE_ALTI_BASE_URL ++ str "rest/services/profile" ++ ext).
  set (run0 := {| settled := Pending; events := [] |}).
  set (run1 := if negb (jsstring_eqb ext (str ".json"))
                  && negb (jsstring_eqb ext (str ".csv"))
               then reject (ReasonMessage "Not supported file extension")
                      (log_error "Not supported file extension" run0)
               else run0).
  set (run2 := if match coordinates with
                  | Some l => (length l =? 0)%nat
                  | None => true
                  end
               then reject (ReasonMessage "Coordinates not provided")
                      (log_error "Coordinates not provided" run1)
               else run1).
  set (run3 := axios_post url LV95_epsgNumber coordinates run2).
  assert (Hext : settled run1 = Pending -> accepted_extension ext).
  { subst run1.
    destruct (jsstring_eqb ext (str ".json")) eqn:Ejson.
    - intros _. left. apply jsstring_eqb_eq, Ejson.
    - destruct (jsstring_eqb ext (str ".csv")) eqn:Ecsv.
      + intros _. right. apply jsstring_eqb_eq, Ecsv.
      + cbn. discriminate. }
  assert (Hrun1 : settled run1 = Pending
                  \/ exists reason, settled run1 = Rejected reason).
  { subst run1.
    destruct (negb (jsstring_eqb ext (str ".json"))
              && negb (jsstring_eqb ext (str ".csv")));
      [right; eexists; reflexivity | left; reflexivity]. }
  assert (Hrun3 : (settled run3 = Pending
                   /\ accepted_extension ext
                   /\ exists c cs, coordinates = Some (c :: cs))
                  \/ exists reason, settled run3 = Rejected reason).
  { subst run3 run2. cbn [axios_post settled].
    destruct coordinates as [[|c cs]|]; cbn [length Nat.eqb].
    - right. destruct Hrun1 as [H | [reason H]]; cbn; rewrite H;
        eexists; reflexivity.
    - destruct Hrun1 as [H | [reason H]].
      + left. split; [exact H|]. split; [exact (Hext H)|].
        exists c, cs. reflexivity.
      + right. exists reason. exact H.
    - right. destruct Hrun1 as [H | [reason H]]; cbn; rewrite H;
        eexists; reflexivity. }
  clearbody run3. clear run2 run1 Hext Hrun1 run0.
  assert (Hkeep : forall reason msg,
             settled (reject reason (log_error msg run3)) <> Pending
             /\ forall value,
                  settled (reject reason (log_error msg run3)) = Fulfilled value ->
                  False).
  { intros reason msg. cbn.
    destruct Hrun3 as [[H _] | [r H]]; rewrite H; split;
      intros; discriminate. }
  destruct (backend url coordinates) as [data | error] eqn:Hanswer.
  - destruct (data_truthy data) eqn:Htruthy.
    + destruct data as [data|]; [|discriminate].
      assert (Hresolved : forall v,
                 settled (resolve v run3) <> Pending
                 /\ forall value,
                      settled (resolve v run3) = Fulfilled value ->
                      (exists c cs, coordinates = Some (c :: cs))
                      /\ accepted_extension ext
                      /\ exists data0,
                           AxiosResponse (Some data) = AxiosResponse (Some data0)).
      { intros v. rewrite settled_after_resolve.
        destruct Hrun3 as [[H [Hext Hcoords]] | [r H]]; rewrite H.
        - split; [discriminate|]. intros value _.
          split; [exact Hcoords|]. split; [exact Hext|].
          exists data. reflexivity.
        - split; discriminate. }
      destruct (jsstring_eqb ext (str ".json")).
      * destruct (parseProfileFromBackendResponse data) as [parsed | error].
        -- apply Hresolved.
        -- destruct (Hkeep (ReasonError error) "Error while getting profile"%string)
             as [Hs Hf].
           split; [exact Hs | intros value Hv; destruct (Hf value Hv)].
      * apply Hresolved.
    + destruct (Hkeep (ReasonMessage "Incorrect response while getting profile")
                  "Incorrect response while getting profile"%string) as [Hs Hf].
      split; [exact Hs | intros value Hv; destruct (Hf value Hv)].
  - destruct (Hkeep (ReasonError error) "Error while getting profile"%string)
      as [Hs Hf].
    split; [exact Hs | intros value Hv; destruct (Hf value Hv)].
Qed.

End ProfileRequestOutcomes.

Lemma profile_fulfilled_witness :
  profileJson (EX := example_externals []) (Some [(XFin 2600000, XFin 1200000)])
    (fun _ _ => AxiosResponse (Some (JsonSamples two_samples)))
  = {| settled := Fulfilled (ResolvedProfile (map point_of_sample two_samples));
       events :=
         [ HttpPost (str "https://api3.geo.admin.ch/rest/services/profile.json")
             2056 (Some [(XFin 2600000, XFin 1200000)]) ] |}.
Proof.
  apply (proj1 (profile_fulfilled (EX := example_externals [])
                  [(XFin 2600000, XFin 1200000)]
                  (fun _ _ => AxiosResponse (Some (JsonSamples two_samples)))
                  ltac:(discriminate))).
  reflexivity.
Defined.


(* ------------------------------------------------------------------ *)
(** ** Further properties of kmlUtils.js *)
(* ------------------------------------------------------------------ *)

(** *** The type of a feature *)

Section FeatureTypeFacts.

Context {N : Type} {JN : JsNumber N} {EX : Externals N}.


End FeatureTypeFacts.

(** *** The icon of a style *)

Lemma regex_test_literal (text s : jsstring) :
  regex_test (RLit text) s = true <-> contains text s.
Proof.
  unfold regex_test, contains. split.
  - destruct (regex_exec (RLit text) s) as [caps|] eqn:E; [|discriminate].
    intros _. apply regex_exec_sound in E.
    destruct E as [before [s0 [s' [Hs [Hm _]]]]].
    simpl in Hm. destruct Hm as [-> _]. exists before, s'. exact Hs.
  - intros [before [after ->]].
    destruct (regex_exec_complete (RLit text) before (text ++ after) after []
                (matches_lit text after [])) as [caps ->].
    reflexivity.
Qed.

Lemma option_string_eqb_eq (a b : option jsstring) :
  option_string_eqb a b = true <-> a = b.
Proof.
  destruct a as [x|], b as [y|]; simpl; split; intros H;
    try discriminate; try reflexivity.
  - apply jsstring_eqb_eq in H. subst. reflexivity.
  - injection H as ->. apply jsstring_eqb_refl.
Qed.

Section IconStyleFacts.

Context {N : Type} {JN : JsNumber N} {EX : Externals N}.

(** X9.  [getIconStyle] answers an icon exactly when it is the image of the
    style, an icon image whose source does not contain "google" and is not
    the source of the icon of the default KML style; so the pushpin that
    the KML reader adds to a placemark without icon is never returned. *)
Theorem getIconStyle_own_icon (style : Style N) (icon : IconStyle N) :
  getIconStyle (Some style) = Some icon
  <-> style_image style = Some (ImageIcon icon)
      /\ (forall src, icon_src icon = Some src -> ~ contains (str "google") src)
      /\ icon_src icon <> default_icon_src.
Proof.
  unfold getIconStyle. split.
  - destruct (style_image style) as [[image|scale]|]; try discriminate.
    destruct (match icon_src image with
              | Some src => regex_test (RLit (str "google")) src
              | None => false
              end) eqn:Egoogle; [discriminate|].
    destruct (option_string_eqb (icon_src image) default_icon_src) eqn:Edefault;
      [discriminate|].
    cbn [orb]. intros Hicon. injection Hicon as <-.
    split; [reflexivity|]. split.
    + intros src Hsrc Hcontains. rewrite Hsrc in Egoogle.
      apply regex_test_literal in Hcontains. congruence.
    + intros Heq. apply option_string_eqb_eq in Heq. congruence.
  - intros [-> [Hgoogle Hdefault]].
    assert (Egoogle : match icon_src icon with
                      | Some src => regex_test (RLit (str "google")) src
                      | None => false
                      end = false).
    { destruct (icon_src icon) as [src|] eqn:Hsrc; [|reflexivity].
      destruct (regex_test (RLit (str "google")) src) eqn:E; [|reflexivity].
      apply regex_test_literal in E. destruct (Hgoogle src eq_refl E). }
    rewrite Egoogle.
    destruct (option_string_eqb (icon_src icon) default_icon_src) eqn:Edefault.
    + apply option_string_eqb_eq in Edefault. contradiction.
    + reflexivity.
Qed.

End IconStyleFacts.

(** *** Where a drawing icon comes from *)

Section IconProvenance.

Context {N : Type} {JN : JsNumber N} {EX : Externals N}.

(** The icon that [generateIconFromStyle] builds carries the name and the
    set of the icon arguments and the source of the style; the call never
    throws and only adds to the log. *)
Lemma generateIconFromStyle_result (iconStyle : option (IconStyle N))
  (iconArgs : option IconArgs) (tr : list LogEntry) :
  exists result more,
    generateIconFromStyle iconStyle iconArgs tr = (Ok result, tr ++ more)
    /\ forall icon,
         result = Some icon ->
         exists style args,
           iconStyle = Some style /\ iconArgs = Some args
           /\ di_name icon = name args /\ di_iconSetName icon = set args
           /\ icon_src style = Some (di_imageURL icon).
Proof.
  destruct iconStyle as [style|], iconArgs as [args|];
    try (exists None, []; rewrite app_nil_r; split;
         [reflexivity | intros icon H; discriminate]).
  unfold generateIconFromStyle, bind, try_catch, components, ret, throw, emit.
  cbn [icon_src icon_size icon_anchor].
  assert (Hicon : forall (anchor : N * N) (icon : DrawingIcon N),
             (if jsstring_truthy (icon_src style)
              then Some {| di_name := name args;
                           di_imageURL := nullish (icon_src style) [];
                           di_imageTemplateURL := nullish (icon_src style) [];
                           di_iconSetName := set args;
                           di_anchor := anchor |}
              else None) = Some icon ->
             exists style0 args0,
               Some style = Some style0 /\ Some args = Some args0
               /\ di_name icon = name args0 /\ di_iconSetName icon = set args0
               /\ icon_src style0 = Some (di_imageURL icon)).
  { intros anchor icon H. exists style, args.
    destruct (icon_src style) as [[|c url]|]; try discriminate.
    injection H as <-. repeat split; reflexivity. }
  destruct (icon_anchor style) as [a|], (icon_size style) as [s|];
    eexists; eexists; (split; [| apply Hicon]);
    try (rewrite app_nil_r; reflexivity); reflexivity.
Qed.

(** X10.  An icon that [getIcon] returns is either an icon of a catalogue
    set that bears the name of the icon arguments, returned without any log
    entry, or, after at least one logged error, the icon synthesized from
    the style, which carries the name and set of the icon arguments and the
    source of the style.  No icon of another set is ever returned. *)
Theorem getIcon_catalogue_or_synthesized (args : IconArgs)
  (iconStyle : option (IconStyle N))
  (availableIconSets : option (list (DrawingIconSet N)))
  (icon : DrawingIcon N) (log : list LogEntry) :
  run (getIcon (Some args) iconStyle availableIconSets) = (Ok (Some icon), log) ->
  (log = []
   /\ exists sets iconSet,
        availableIconSets = Some sets /\ In iconSet sets
        /\ dis_name iconSet = set args /\ In icon (dis_icons iconSet))
  \/ (log <> []
      /\ di_name icon = name args /\ di_iconSetName icon = set args
      /\ exists style,
           iconStyle = Some style /\ icon_src style = Some (di_imageURL icon)).
Proof.
  unfold run, getIcon.
  assert (Hfallback : forall msg,
             (emit (LogError msg) ;;; generateIconFromStyle iconStyle (Some args))%eff
               [] = (Ok (Some icon), log) ->
             log <> []
             /\ di_name icon = name args /\ di_iconSetName icon = set args
             /\ exists style,
                  iconStyle = Some style
                  /\ icon_src style = Some (di_imageURL icon)).
  { intros msg. unfold bind, emit. cbn [app].
    destruct (generateIconFromStyle_result iconStyle (Some args) [LogError msg])
      as [result [more [-> Hicon]]].
    intros H. injection H as -> <-.
    destruct (Hicon icon eq_refl) as [style [args0 [Hs [Ha [Hn [Hset Hsrc]]]]]].
    injection Ha as <-.
    split; [discriminate|]. split; [exact Hn|]. split; [exact Hset|].
    exists style. split; assumption. }
  destruct availableIconSets as [sets|]; [|intros H; right; exact (Hfallback _ H)].
  destruct (find (fun drawingIconSet =>
                    jsstring_eqb (dis_name drawingIconSet) (set args)) sets)
    as [iconSet|] eqn:Hset; [|intros H; right; exact (Hfallback _ H)].
  apply find_some in Hset. destruct Hset as [Hin Hname].
  apply jsstring_eqb_eq in Hname.
  unfold bind at 1, lift.
  destruct (RegExp_new _) as [nameRegex|error]; [|discriminate].
  destruct (find (fun drawingIcon => nameRegex (di_name drawingIcon))
              (dis_icons iconSet)) as [found|] eqn:Hfound.
  - unfold ret. intros H. injection H as <- <-. left.
    split; [reflexivity|]. exists sets, iconSet.
    apply find_some in Hfound. destruct Hfound as [Hfound _].
    repeat split; assumption.
  - intros H. right. exact (Hfallback _ H).
Qed.

End IconProvenance.

Lemma getIcon_catalogue_or_synthesized_witness :
  ([] = @nil LogEntry
   /\ exists sets iconSet,
        Some catalogue = Some sets /\ In iconSet sets
        /\ dis_name iconSet = set catalogue_args
        /\ In catalogue_icon (dis_icons iconSet))
  \/ (@nil LogEntry <> []
      /\ di_name catalogue_icon = name catalogue_args
      /\ di_iconSetName catalogue_icon = set catalogue_args
      /\ exists style,
           Some centred_icon = Some style
           /\ icon_src style = Some (di_imageURL catalogue_icon)).
Proof.
  apply (getIcon_catalogue_or_synthesized (EX := example_externals [])
           catalogue_args (Some centred_icon) (Some catalogue)
           catalogue_icon []).
  vm_compute. reflexivity.
Defined.

(** *** The icon size of an editable feature *)

Lemma parseIconUrl_isLegacy (url : jsstring) (args : IconArgs)
  (tr tr' : list LogEntry) :
  parseIconUrl url tr = (Ok (Some args), tr') ->
  isLegacy args = legacy_source url.
Proof.
  rewrite parseIconUrl_unfold. unfold parseIconUrl_with, legacy_source.
  destruct (nullish_opt (regex_exec legacyDefault_regex url)
              (nullish_opt (regex_exec legacySet_regex url)
                 (regex_exec set_regex url))) as [groups|].
  - unfold bind, lift, ret.
    destruct (parseRGBColor _ "R"); [|discriminate].
    destruct (parseRGBColor _ "B"); [|discriminate].
    destruct (parseRGBColor _ "G"); [|discriminate].
    intros H. injection H as <- _. reflexivity.
  - unfold bind, emit, ret. discriminate.
Qed.

Section IconSizeFacts.

Context {N : Type} {JN : JsNumber N} {EX : Externals N}.

(** X11.  The icon size of an editable feature is looked up from the scale
    of the icon of the style, multiplied by 1.5 when one of the two legacy
    URL patterns matches the source of the icon, and taken as it is
    otherwise; a feature whose style has no icon of its own has neither
    icon nor icon size. *)
Theorem editable_feature_icon_size (f : Feature N) (style : Style N)
  (availableIconSets : option (list (DrawingIconSet N)))
  (feature : EditableFeature N) (log : list LogEntry) :
  feat_style f = Some style ->
  run (getEditableFeatureFromKmlFeature (IsFeature f) availableIconSets)
  = (Ok (Some feature), log) ->
  match getIconStyle (Some style) with
  | Some icon =>
      ef_iconSize feature
      = Some (getIconSize
                (if legacy_source (nullish (icon_src icon) (str "undefined"))
                 then setScale icon (num_mul (icon_scale icon) (num_lit 1.5))
                 else icon))
  | None => ef_iconSize feature = None /\ ef_icon feature = None
  end.
Proof.
  intros Hstyle. unfold run, getEditableFeatureFromKmlFeature, bind.
  destruct (getFeatureType (IsFeature f) []) as [[t|e] tr]; [|discriminate].
  unfold getStyle. rewrite Hstyle.
  destruct (getIconStyle (Some style)) as [icon|].
  - destruct (parseIconUrl _ tr) as [[[args|]|e] tr2] eqn:Hparse;
      try discriminate.
    + apply parseIconUrl_isLegacy in Hparse. rewrite <- Hparse.
      destruct (getIcon _ _ _ tr2) as [[drawingIcon|e] tr3]; [|discriminate].
      unfold ret. intros Hrun. injection Hrun as <- _. cbn [ef_iconSize].
      destruct (isLegacy args); reflexivity.
    + assert (Hnot : legacy_source (nullish (icon_src icon) (str "undefined"))
                     = false).
      { revert Hparse. rewrite parseIconUrl_unfold.
        unfold parseIconUrl_with, legacy_source.
        destruct (regex_exec legacyDefault_regex _) as [caps|].
        - cbn [nullish_opt]. unfold bind, lift, ret.
          destruct (parseRGBColor _ "R"); [|discriminate].
          destruct (parseRGBColor _ "B"); [|discriminate].
          destruct (parseRGBColor _ "G"); discriminate.
        - destruct (regex_exec legacySet_regex _) as [caps|]; [|reflexivity].
          cbn [nullish_opt]. unfold bind, lift, ret.
          destruct (parseRGBColor _ "R"); [|discriminate].
          destruct (parseRGBColor _ "B"); [|discriminate].
          destruct (parseRGBColor _ "G"); discriminate. }
      rewrite Hnot. unfold ret. intros Hrun. injection Hrun as <- _.
      reflexivity.
  - unfold ret. intros Hrun. injection Hrun as <- _. split; reflexivity.
Qed.

End IconSizeFacts.

Lemma editable_feature_icon_size_witness :
  exists feature log,
    run (getEditableFeatureFromKmlFeature
           (EX := example_externals (N := float) [])
           (IsFeature legacy_marker) None)
    = (Ok (Some feature), log)
    /\ match
         getIconStyle (EX := example_externals (N := float) [])
           (feat_style legacy_marker)
       with
       | Some icon =>
           ef_iconSize feature
           = Some (getIconSize (EX := example_externals (N := float) [])
                     (if legacy_source (nullish (icon_src icon) (str "undefined"))
                      then setScale icon (num_mul (icon_scale icon) (num_lit 1.5))
                      else icon))
       | None => ef_iconSize feature = None /\ ef_icon feature = None
       end
    /\ option_map (fun size => size_label size) (ef_iconSize feature)
       = Some "medium"%string.
Proof.
  eexists. eexists. split; [vm_compute; reflexivity|]. split.
  - eapply (editable_feature_icon_size (EX := example_externals (N := float) [])
              legacy_marker
              (icon_style_of (str "https://api3.geo.admin.ch/images/babs/babs-3.png"))
              None); [reflexivity|].
    vm_compute. reflexivity.
  - vm_compute. reflexivity.
Defined.

(** *** Parsing a document *)

Section ParseKmlFacts.

Context {N : Type} {JN : JsNumber N} {EX : Externals N}.






End ParseKmlFacts.

(** *** What the arguments of an icon say about its URL *)

(** A captured run of one or more characters is not empty. *)
Ltac captured_nonempty :=
  match goal with
  | Hne : true = true -> ?w <> [] |- ?w <> [] => exact (Hne eq_refl)
  end.

Lemma legacyDefault_name_nonempty (s0 s' : jsstring) (caps : Captures) :
  matches legacyDefault_regex s0 s' [] caps ->
  forall name, group caps "name" = Some name -> name <> [].
Proof.
  unfold legacyDefault_regex, rseq, digits1. cbn [fold_right matches].
  intros H name Hname. open_hyps. cbn [app] in *. subst.
  rewrite !firstn_consumed in Hname. cbn in Hname. injection Hname as <-.
  captured_nonempty.
Qed.

Lemma legacySet_captures_nonempty (s0 s' : jsstring) (caps : Captures) :
  matches legacySet_regex s0 s' [] caps ->
  forall key text,
    key = "name"%string \/ key = "set"%string ->
    group caps key = Some text -> text <> [].
Proof.
  unfold legacySet_regex, rseq. cbn [fold_right matches].
  intros H key text Hkey Htext. open_hyps. cbn [app] in *. subst.
  rewrite !firstn_consumed in Htext.
  destruct Hkey as [-> | ->]; cbn in Htext; injection Htext as <-;
    captured_nonempty.
Qed.

Lemma set_captures_nonempty (s0 s' : jsstring) (caps : Captures) :
  matches set_regex s0 s' [] caps ->
  forall key text,
    key = "name"%string \/ key = "set"%string ->
    group caps key = Some text -> text <> [].
Proof.
  unfold set_regex, rseq, digits1. cbn [fold_right matches].
  intros H key text Hkey Htext. open_hyps.
  match goal with
  | Hopt : (exists _, _) \/ _ |- _ => destruct Hopt as [Hopt | Hopt]
  end;
    open_hyps; cbn [app] in *; subst; rewrite !firstn_consumed in Htext;
    (destruct Hkey as [-> | ->];
     cbn [group String.eqb Ascii.eqb Bool.eqb] in Htext;
     injection Htext as <-; captured_nonempty).
Qed.

Lemma parseRGBColor_then (channels : ChannelInput * ChannelInput * ChannelInput)
  (setName iconName : jsstring) (legacy : bool) (args : IconArgs)
  (tr log : list LogEntry) :
  (r <- lift (parseRGBColor (fst (fst channels)) "R") ;;
   g <- lift (parseRGBColor (snd (fst channels)) "B") ;;
   b <- lift (parseRGBColor (snd channels) "G") ;;
   ret (Some {| set := setName; name := iconName;
                color := {| r := r; g := g; b := b |};
                isLegacy := legacy |}))%eff tr
  = (Ok (Some args), log) ->
  log = tr /\ set args = setName /\ name args = iconName
  /\ isLegacy args = legacy.
Proof.
  unfold bind, lift, ret.
  destruct (parseRGBColor (fst (fst channels)) "R"); [|discriminate].
  destruct (parseRGBColor (snd (fst channels)) "B"); [|discriminate].
  destruct (parseRGBColor (snd channels) "G"); [|discriminate].
  intros H. injection H as <- <-. repeat split; reflexivity.
Qed.

(** X13.  Whenever [parseIconUrl] returns icon arguments, for whatever URL,
    nothing has been logged, the set is a non-empty run of word characters,
    the name is not empty and occurs in the URL; arguments flagged as legacy
    have a name without [/] and come from a URL that ends in ".png", and
    arguments not flagged as legacy come from a URL that contains
    [api/icons/sets/<set>/icons/<name>@]. *)
Theorem parseIconUrl_arguments (url : jsstring) (args : IconArgs)
  (log : list LogEntry) :
  run (parseIconUrl url) = (Ok (Some args), log) ->
  log = []
  /\ set args <> [] /\ forallb is_word (set args) = true
  /\ name args <> [] /\ contains (name args) url
  /\ (if isLegacy args
      then forallb not_slash (name args) = true /\ ends_with (str ".png") url
      else contains (str "api/icons/sets/" ++ set args ++ str "/icons/"
                     ++ name args ++ str "@") url).
Proof.
  rewrite parseIconUrl_unfold. unfold run, parseIconUrl_with.
  destruct (regex_exec legacyDefault_regex url) as [caps|] eqn:E1.
  - cbn [nullish_opt is_some orb].
    apply regex_exec_sound in E1.
    destruct E1 as [before [s0 [s' [Hurl [Hm _]]]]].
    pose proof (legacyDefault_name_nonempty s0 s' caps Hm) as Hne.
    destruct (legacyDefault_shape s0 s' caps Hm)
      as [r [g [b [iconName [size [scale [Hs0 [Hs' [_ [_ [_ [Hname [_ [_ Hcaps]]]]]]]]]]]]]].
    subst caps. cbn [group String.eqb Ascii.eqb Bool.eqb nullish] in *.
    intros Hrun.
    apply (parseRGBColor_then
             (channel_or (Some r) 255, channel_or (Some g) 0,
              channel_or (Some b) 0)) in Hrun.
    destruct Hrun as [-> [-> [-> ->]]].
    split; [reflexivity|]. split; [discriminate|]. split; [reflexivity|].
    split; [exact (Hne iconName eq_refl)|]. subst url s0.
    split; [|split; [exact Hname|]].
    + exists (before ++ str "color/" ++ r ++ str "," ++ g ++ str "," ++ b
              ++ str "/"),
        (str "-" ++ size ++ str "@" ++ scale ++ str "x.png").
      rewrite <- !app_assoc. reflexivity.
    + exists (before ++ str "color/" ++ r ++ str "," ++ g ++ str "," ++ b
              ++ str "/" ++ iconName ++ str "-" ++ size ++ str "@" ++ scale
              ++ str "x").
      rewrite <- !app_assoc. reflexivity.
  - destruct (regex_exec legacySet_regex url) as [caps|] eqn:E2.
    + cbn [nullish_opt is_some orb].
      apply regex_exec_sound in E2.
      destruct E2 as [before [s0 [s' [Hurl [Hm _]]]]].
      pose proof (legacySet_captures_nonempty s0 s' caps Hm) as Hne.
      destruct (legacySet_shape s0 s' caps Hm)
        as [setName [iconName [Hs0 [Hs' [Hset [Hname Hcaps]]]]]].
      subst caps. cbn [group String.eqb Ascii.eqb Bool.eqb nullish] in *.
      intros Hrun.
      apply (parseRGBColor_then
               (channel_or None 255, channel_or None 0, channel_or None 0))
        in Hrun.
      destruct Hrun as [-> [-> [-> ->]]].
      split; [reflexivity|].
      split; [exact (Hne "set"%string setName (or_intror eq_refl) eq_refl)|].
      split; [exact Hset|].
      split; [exact (Hne "name"%string iconName (or_introl eq_refl) eq_refl)|].
      subst url s0. split; [|split; [exact Hname|]].
      * exists (before ++ str "images/" ++ setName ++ str "/"), (str ".png").
        rewrite <- !app_assoc. reflexivity.
      * exists (before ++ str "images/" ++ setName ++ str "/" ++ iconName).
        rewrite <- !app_assoc. reflexivity.
    + destruct (regex_exec set_regex url) as [caps|] eqn:E3.
      * cbn [nullish_opt is_some orb].
        apply regex_exec_sound in E3.
        destruct E3 as [before [s0 [s' [Hurl [Hm _]]]]].
        pose proof (set_captures_nonempty s0 s' caps Hm) as Hne.
        destruct (set_shape s0 s' caps Hm)
          as [setName [iconName [whole [fraction [r [g [b
               [Hs0 [Hset [_ [_ [_ Hcaps]]]]]]]]]]]].
        subst caps. cbn [group String.eqb Ascii.eqb Bool.eqb nullish] in *.
        intros Hrun.
        apply (parseRGBColor_then
                 (channel_or (Some r) 255, channel_or (Some g) 0,
                  channel_or (Some b) 0)) in Hrun.
        destruct Hrun as [-> [-> [-> ->]]].
        split; [reflexivity|].
        split; [exact (Hne "set"%string setName (or_intror eq_refl) eq_refl)|].
        split; [exact Hset|].
        split; [exact (Hne "name"%string iconName (or_introl eq_refl) eq_refl)|].
        subst url s0. split.
        -- exists (before ++ str "api/icons/sets/" ++ setName ++ str "/icons/"),
             (str "@" ++ scale_text whole fraction ++ str "x-" ++ r ++ str ","
              ++ g ++ str "," ++ b ++ str ".png" ++ s').
           rewrite <- !app_assoc. reflexivity.
        -- exists before,
             (scale_text whole fraction ++ str "x-" ++ r ++ str ","
              ++ g ++ str "," ++ b ++ str ".png" ++ s').
           rewrite <- !app_assoc. reflexivity.
      * cbn [nullish_opt]. unfold bind, emit, ret. discriminate.
Qed.

Lemma parseIconUrl_arguments_witness :
  name catalogue_args <> []
  /\ contains (str "api/icons/sets/default/icons/001-marker@")
       (di_imageURL catalogue_icon).
Proof.
  destruct (parseIconUrl_arguments (di_imageURL catalogue_icon) catalogue_args []
              ltac:(vm_compute; reflexivity))
    as [_ [_ [_ [Hname [_ Hurl]]]]].
  split; [exact Hname | exact Hurl].
Defined.

(* ------------------------------------------------------------------ *)
(** ** Further properties of the file import *)
(* ------------------------------------------------------------------ *)

(** *** Sniffing *)

Lemma regex_test_closing (text s : jsstring) :
  regex_test
    (rseq [ RLit text; RMany false false is_space; RLit (str ">") ]) s = true
  <-> exists before space after,
        s = before ++ text ++ space ++ str ">" ++ after
        /\ forallb is_space space = true.
Proof.
  unfold regex_test. split.
  - destruct (regex_exec _ s) as [caps|] eqn:E; [|discriminate].
    intros _. apply regex_exec_sound in E.
    destruct E as [before [s0 [s' [Hs [Hm _]]]]].
    revert Hm. unfold rseq. cbn [fold_right matches]. intros Hm. open_hyps.
    subst. eexists before, _, _. split; [reflexivity | assumption].
  - intros [before [space [after [-> Hspace]]]].
    destruct (regex_exec_complete
                (rseq [ RLit text; RMany false false is_space; RLit (str ">") ])
                before (text ++ space ++ str ">" ++ after) after [])
      as [caps ->]; [|reflexivity].
    unfold rseq. cbn [fold_right matches].
    exists (space ++ str ">" ++ after), []. split; [split; reflexivity|].
    exists (str ">" ++ after), []. split.
    + exists space. repeat split; [exact Hspace | discriminate].
    + exists after, []. repeat split; reflexivity.
Qed.

(** X14.  [isKml] holds exactly for a content in which the text [<kml]
    occurs and in which the closing tag [</kml>], with optional white space
    before its [>], occurs: in whatever order, however often and whatever
    else the content holds; and likewise [isGpx] for [<gpx] and [</gpx>]. *)
Theorem isKml_isGpx_sniff (fileContent : jsstring) :
  (isKml fileContent = true
   <-> contains (str "<kml") fileContent /\ closes (str "kml") fileContent)
  /\ (isGpx fileContent = true
      <-> contains (str "<gpx") fileContent /\ closes (str "gpx") fileContent).
Proof.
  unfold isKml, isGpx, closes. split;
    rewrite andb_true_iff, regex_test_literal, regex_test_closing;
    reflexivity.
Qed.

(** *** Dispatching *)

Section FileImportAtomicity.

Context {N : Type} {JN : JsNumber N} {EX : Externals N}.

(** X15.  [handleFileContent] dispatches all or nothing: when it returns a
    layer it has dispatched exactly [zoomToExtent] and then [addLayer] with
    that layer, which carries the source and the content it was given; when
    it throws it has dispatched nothing, so the store is left as it was. *)
Theorem handleFileContent_all_or_nothing (store : Store)
  (content source : jsstring) :
  match run (handleFileContent store content source) with
  | (Ok layer, dispatched) =>
      (exists extent, dispatched = [ZoomToExtent extent; AddLayer layer])
      /\ layer_source layer = source /\ layer_data layer = content
  | (Throw _, dispatched) => dispatched = []
  end.
Proof.
  unfold run, handleFileContent.
  destruct (isKml content).
  - destruct (getKmlExtent content) as [extent|]; [|reflexivity].
    destruct (getExtentForProjection (state_position_projection store) extent)
      as [projected|]; [|reflexivity].
    cbn. split; [eexists; reflexivity | split; reflexivity].
  - destruct (isGpx content); [|reflexivity].
    cbn. split; [eexists; reflexivity | split; reflexivity].
Qed.

End FileImportAtomicity.

(* ------------------------------------------------------------------ *)
(** ** Properties of layerUtils.js *)
(* ------------------------------------------------------------------ *)

Section LayerUtilsFacts.

Context {N : Type} {JN : JsNumber N}.

Lemma indexOf_from_spec (values : list N) (value : N) :
  forall start,
    (0 <= start)%Z ->
    let i := indexOf_from values value start in
    (i = (-1)%Z /\ forall v, In v values -> num_eqb v value = false)
    \/ ((start <= i < start + Z.of_nat (length values))%Z
        /\ (exists v, nth_error values (Z.to_nat (i - start)) = Some v
                      /\ num_eqb v value = true)
        /\ forall j v,
             (j < Z.to_nat (i - start))%nat -> nth_error values j = Some v ->
             num_eqb v value = false).
Proof.
  induction values as [|x values IH]; intros start Hstart; cbn [indexOf_from].
  - left. split; [reflexivity | intros v []].
  - destruct (num_eqb x value) eqn:Ex.
    + right. cbn [length]. split; [lia|].
      replace (start - start)%Z with 0%Z by lia. cbn.
      split; [exists x; split; [reflexivity | exact Ex]|].
      intros j v Hj. lia.
    + destruct (IH (start + 1)%Z ltac:(lia)) as [[Hi Hnone] | [Hrange [Hat Hfirst]]].
      * left. split; [exact Hi|].
        intros v [<- | Hin]; [exact Ex | exact (Hnone v Hin)].
      * right. cbn zeta in *.
        set (i := indexOf_from values value (start + 1)) in *.
        cbn [length]. split; [lia|].
        replace (Z.to_nat (i - start)) with (S (Z.to_nat (i - (start + 1))))
          by lia.
        cbn [nth_error]. split; [exact Hat|].
        intros [|j] v Hj Hv.
        -- cbn in Hv. injection Hv as <-. exact Ex.
        -- cbn in Hv. apply (Hfirst j v); [lia | exact Hv].
Qed.

(** X16.  [indexOfMaxResolution] answers the first zoom level whose
    resolution is [===] to the resolution asked for, and the number of zoom
    levels when there is none (so always for NaN): the answer is never
    negative and never beyond the number of levels. *)
Theorem indexOfMaxResolution_first_level (projection : ZoomableSystem N)
  (layerMaxResolution : N) :
  let levels := getResolutions projection in
  let i := indexOfMaxResolution projection layerMaxResolution in
  (0 <= i <= Z.of_nat (length levels))%Z
  /\ (i = Z.of_nat (length levels)
      <-> forall v, In v levels -> num_eqb v layerMaxResolution = false)
  /\ ((i < Z.of_nat (length levels))%Z ->
      (exists v, at_index levels i = Some v
                 /\ num_eqb v layerMaxResolution = true)
      /\ forall j v,
           (0 <= j < i)%Z -> at_index levels j = Some v ->
           num_eqb v layerMaxResolution = false).
Proof.
  intros levels i. subst i. unfold indexOfMaxResolution, indexOf. fold levels.
  destruct (indexOf_from_spec levels layerMaxResolution 0%Z ltac:(lia))
    as [[Hi Hnone] | [Hrange [[v [Hv Heq]] Hfirst]]]; cbn zeta in *.
  - rewrite Hi, Z.eqb_refl. split; [lia|]. split.
    + split; [intros _; exact Hnone | reflexivity].
    + lia.
  - set (i := indexOf_from levels layerMaxResolution 0) in *.
    replace (i - 0)%Z with i in * by lia.
    destruct (i =? -1)%Z eqn:Ei; [apply Z.eqb_eq in Ei; lia|].
    split; [lia|]. split.
    + split; [lia|]. intros Hnone.
      apply nth_error_In in Hv. rewrite (Hnone v Hv) in Heq. discriminate.
    + intros _. split.
      * exists v. unfold at_index.
        destruct (i <? 0)%Z eqn:Eneg; [apply Z.ltb_lt in Eneg; lia|].
        split; assumption.
      * intros j w Hj. unfold at_index.
        destruct (j <? 0)%Z eqn:Eneg; [apply Z.ltb_lt in Eneg; lia|].
        intros Hw. apply (Hfirst (Z.to_nat j) w); [lia | exact Hw].
Qed.

End LayerUtilsFacts.

(* ------------------------------------------------------------------ *)
(** ** Properties of WMTSCapabilitiesParser.class.js *)
(* ------------------------------------------------------------------ *)

(** *** Looking a layer up *)

Section FindLayerFacts.

Context {N : Type}.




End FindLayerFacts.

(** *** Listing the layers *)

Section ListingFacts.

Context {N : Type} {JN : JsNumber N} {CE : CapabilitiesExternals N}.










End ListingFacts.




(** *** Reading a coordinate reference system *)

Lemma split_without_separator (separator : ascii) (s : jsstring) :
  ~ In separator s -> split separator s = [s].
Proof.
  induction s as [|c s IH]; intros Hnot; [reflexivity|].
  cbn [split]. unfold ascii_eqb.
  destruct (Ascii.eqb c separator) eqn:E.
  - apply Ascii.eqb_eq in E. subst. destruct Hnot. left. reflexivity.
  - rewrite IH; [reflexivity|]. intros Hin. apply Hnot. right. exact Hin.
Qed.

Lemma split_last_segment (separator : ascii) (code : jsstring) :
  ~ In separator code ->
  forall before,
  exists segments,
    split separator (before ++ separator :: code) = segments ++ [code]
    /\ segments <> [].
Proof.
  intros Hnot. induction before as [|c before IH]; cbn [app split].
  - unfold ascii_eqb. rewrite Ascii.eqb_refl.
    rewrite (split_without_separator separator code Hnot).
    exists [[]]. split; [reflexivity | discriminate].
  - destruct IH as [segments [-> Hne]].
    destruct (ascii_eqb c separator).
    + exists ([] :: segments). split; [reflexivity | discriminate].
    + destruct segments as [|first others]; [contradiction|].
      exists ((c :: first) :: others). split; [reflexivity | discriminate].
Qed.

Lemma pop_last {A : Type} (array : list A) (x : A) :
  pop (array ++ [x]) = Some x.
Proof.
  destruct array as [|first rest]; [reflexivity|].
  cbn [app pop]. f_equal. apply last_last.
Qed.

Section ParseCrsFacts.

Context {N : Type} {JN : JsNumber N} {CE : CapabilitiesExternals N}.

(** X20.  [parseCrs] reads only what follows the last colon of the
    reference: whatever precedes it (an authority, a URN) changes nothing.
    A code in which "84" occurs is read as EPSG:4326, whatever else it
    holds; any other code is looked up as it is among the coordinate
    systems of the application. *)
Theorem parseCrs_last_segment (before code : jsstring) :
  ~ In ":"%char code ->
  parseCrs (Some (before ++ ":"%char :: code)) = parseCrs (Some code)
  /\ (contains (str "84") code ->
      parseCrs (Some code)
      = find (fun system => jsstring_eqb (epsg system) (str "EPSG:4326"))
          allCoordinateSystems)
  /\ (~ contains (str "84") code ->
      parseCrs (Some code)
      = find (fun system => jsstring_eqb (epsg system) (str "EPSG:" ++ code))
          allCoordinateSystems).
Proof.
  intros Hnot. unfold parseCrs.
  destruct (split_last_segment ":"%char code Hnot before) as [segments [-> _]].
  rewrite pop_last, (split_without_separator ":"%char code Hnot).
  cbn [pop last nullish].
  split; [reflexivity|]. split.
  - intros H84. apply regex_test_literal in H84. rewrite H84. reflexivity.
  - intros H84.
    destruct (regex_test (RLit (str "84")) code) eqn:E; [|reflexivity].
    apply regex_test_literal in E. contradiction.
Qed.

End ParseCrsFacts.

Lemma parseCrs_last_segment_witness :
  parseCrs (CE := example_capabilities_externals)
    (Some (str "urn:ogc:def:crs:OGC:1.3:CRS84"))
  = Some {| epsg := str "EPSG:4326" |}
  /\ parseCrs (CE := example_capabilities_externals)
       (Some (str "urn:ogc:def:crs:EPSG::2056"))
     = Some {| epsg := str "EPSG:2056" |}.
Proof.
  split.
  - destruct (parseCrs_last_segment (CE := example_capabilities_externals)
                (N := xnum) (str "urn:ogc:def:crs:OGC:1.3") (str "CRS84"))
      as [Hprefix [H84 _]].
    + intros Hin. cbn in Hin. intuition discriminate.
    + etransitivity; [exact Hprefix|].
      etransitivity; [apply H84; exists (str "CRS"), []; reflexivity|].
      reflexivity.
  - destruct (parseCrs_last_segment (CE := example_capabilities_externals)
                (N := xnum) (str "urn:ogc:def:crs:EPSG:") (str "2056"))
      as [Hprefix _].
    + intros Hin. cbn in Hin. intuition discriminate.
    + etransitivity; [exact Hprefix | reflexivity].
Defined.

(** *** The tile matrix set of a layer *)

Section TileMatrixSetFacts.

Context {N : Type} {JN : JsNumber N} {CE : CapabilitiesExternals N}.

(** X21.  [_findTileMatrixSetFromLinks] answers the tile matrix set that
    the last link names: the [return] in its [forEach] does not end the
    loop, so the set found for an earlier link is overwritten, also by a
    last link that names no set of the capabilities.  Without links the
    answer is null. *)
Theorem _findTileMatrixSetFromLinks_last_link (this : WMTSCapabilitiesParser N)
  (links : list CapTileMatrixSetLink) (link : CapTileMatrixSetLink) :
  _findTileMatrixSetFromLinks this (Some (links ++ [link])) = linked_set this link
  /\ _findTileMatrixSetFromLinks this (Some []) = None
  /\ _findTileMatrixSetFromLinks this None = None.
Proof.
  unfold _findTileMatrixSetFromLinks, linked_set.
  rewrite fold_left_app. repeat split; reflexivity.
Qed.

End TileMatrixSetFacts.

(* ------------------------------------------------------------------ *)
(** ** Properties of useMouseOnMap *)
(* ------------------------------------------------------------------ *)

Section MouseFacts.

Context {P F L R : Type} {ME : MouseExternals P F L R}.

Lemma Forall_filter_keep {A : Type} (Q : A -> Prop) (f : A -> bool)
  (l : list A) : Forall Q l -> Forall Q (filter f l).
Proof.
  intros H. induction H as [|x l Hx _ IH]; cbn [filter]; [constructor|].
  destruct (f x); [constructor; assumption | assumption].
Qed.

Lemma mouse_step_invariant (s : MouseState P) (event : MouseEvent) :
  mouse_invariant s -> mouse_invariant (fst (mouse_step s event)).
Proof.
  intros [Hstill [Hpopup Htimers]].
  destruct event as [p c | p c view | view | p c | id]; cbn [mouse_step fst].
  - split; [reflexivity|]. split; [reflexivity|].
    cbn [onLeftClickDown pending_timers next_timer_id].
    apply Forall_app. split.
    + eapply Forall_impl; [|exact Htimers]. cbn. intros t Ht. lia.
    + constructor; [cbn; lia | constructor].
  - unfold onLeftClickUp. cbn [fst]. split; [discriminate|].
    split; [discriminate|]. cbn [pending_timers next_timer_id].
    unfold clearTimeout. destruct (contextMenuTimeout s);
      [apply Forall_filter_keep|]; exact Htimers.
  - unfold onMouseMove. cbn [fst]. split; [|split; assumption].
    cbn. destruct (isPointerDown s); [discriminate | exact Hstill].
  - split; [|split]; assumption.
  - destruct (find (fun timer => (timer_id timer =? id)%nat) (pending_timers s))
      as [timer|]; [|split; [|split]; assumption].
    unfold contextMenuTimeout_callback.
    cbn [isStillOnStartingPosition isPointerDown
         hasPointerDownTriggeredLocationPopup pending_timers next_timer_id
         contextMenuTimeout].
    destruct (isStillOnStartingPosition s) eqn:Es; cbn [fst].
    + split; [cbn; intros _; exact (Hstill eq_refl)|].
      split; [cbn; intros _; exact (Hstill eq_refl)|].
      cbn. apply Forall_filter_keep, Htimers.
    + split; [cbn; discriminate|].
      split; [exact Hpopup|]. cbn. apply Forall_filter_keep, Htimers.
Qed.

Lemma mouse_run_invariant (events : list MouseEvent) :
  forall s, mouse_invariant s -> mouse_invariant (fst (mouse_run s events)).
Proof.
  induction events as [|event events IH]; intros s Hs; [exact Hs|].
  cbn [mouse_run].
  pose proof (mouse_step_invariant s event Hs) as Hstep.
  destruct (mouse_step s event) as [s1 first]. cbn [fst] in Hstep.
  specialize (IH s1 Hstep).
  destruct (mouse_run s1 events) as [s2 others]. exact IH.
Qed.

Lemma mouse_initial_invariant : mouse_invariant (P := P) mouse_initial.
Proof. split; [discriminate|]. split; [discriminate | constructor]. Qed.

Lemma mouse_reachable_invariant (s : MouseState P) :
  mouse_reachable s -> mouse_invariant s.
Proof.
  intros [events <-]. apply mouse_run_invariant, mouse_initial_invariant.
Qed.

(** X22.  Whatever has happened to the composable before, while no button
    is held nothing answers to a release or to a timer: a release that no
    press precedes dispatches nothing, and a timer that fires after the
    release of the button, however late, opens no location popup. *)
Theorem released_pointer_dispatches_nothing (s : MouseState P) :
  mouse_reachable s ->
  isPointerDown s = false ->
  (forall id, snd (mouse_step s (TimerFires id)) = [])
  /\ (forall screenPosition coordinate view,
         snd (mouse_step s (LeftClickUp screenPosition coordinate view)) = []).
Proof.
  intros Hreach Hup.
  destruct (mouse_reachable_invariant s Hreach) as [Hstill [Hpopup _]].
  assert (Es : isStillOnStartingPosition s = false).
  { destruct (isStillOnStartingPosition s); [|reflexivity].
    rewrite (Hstill eq_refl) in Hup. discriminate. }
  split.
  - intros id. cbn [mouse_step].
    destruct (find (fun timer => (timer_id timer =? id)%nat) (pending_timers s));
      [|reflexivity].
    unfold contextMenuTimeout_callback. cbn [isStillOnStartingPosition].
    rewrite Es. reflexivity.
  - intros p c view. cbn [mouse_step]. unfold onLeftClickUp. cbn [snd].
    rewrite Es, andb_false_r. reflexivity.
Qed.

Lemma mouse_run_app (events later : list MouseEvent) :
  forall s,
    mouse_run s (events ++ later)
    = let (s1, first) := mouse_run s events in
      let (s2, others) := mouse_run s1 later in
      (s2, first ++ others).
Proof.
  induction events as [|event events IH]; intros s; cbn [app mouse_run].
  - destruct (mouse_run s later). reflexivity.
  - destruct (mouse_step s event) as [s1 first]. rewrite IH.
    destruct (mouse_run s1 events) as [s2 others].
    destruct (mouse_run s2 later) as [s3 last_ones].
    rewrite app_assoc. reflexivity.
Qed.

(** Once the pointer has moved during a press, it stays off its starting
    position until the next press. *)
Lemma moved_stays_moved (events : list MouseEvent) :
  forall s,
    forallb (fun event => negb (is_press_or_release event)) events = true ->
    isStillOnStartingPosition s = false ->
    isStillOnStartingPosition (fst (mouse_run s events)) = false.
Proof.
  induction events as [|event events IH]; intros s Hno Hs; [exact Hs|].
  cbn [forallb] in Hno. apply andb_true_iff in Hno. destruct Hno as [He Hno].
  cbn [mouse_run].
  assert (Hstep : isStillOnStartingPosition (fst (mouse_step s event)) = false).
  { destruct event as [p c | p c view | view | p c | id];
      try discriminate; cbn [mouse_step fst].
    - cbn. rewrite Hs. destruct (isPointerDown s); reflexivity.
    - exact Hs.
    - destruct (find _ (pending_timers s)); [|exact Hs].
      unfold contextMenuTimeout_callback. cbn [isStillOnStartingPosition].
      rewrite Hs. reflexivity. }
  destruct (mouse_step s event) as [s1 first]. cbn [fst] in Hstep.
  specialize (IH s1 Hno Hstep).
  destruct (mouse_run s1 events) as [s2 others]. exact IH.
Qed.

Lemma pressed_stays_pressed (events : list MouseEvent) :
  forall s,
    forallb (fun event => negb (is_press_or_release event)) events = true ->
    isPointerDown s = true ->
    isPointerDown (fst (mouse_run s events)) = true.
Proof.
  induction events as [|event events IH]; intros s Hno Hs; [exact Hs|].
  cbn [forallb] in Hno. apply andb_true_iff in Hno. destruct Hno as [He Hno].
  cbn [mouse_run].
  assert (Hstep : isPointerDown (fst (mouse_step s event)) = true).
  { destruct event as [p c | p c view | view | p c | id];
      try discriminate; cbn [mouse_step fst]; try exact Hs.
    destruct (find _ (pending_timers s)); [|exact Hs].
    unfold contextMenuTimeout_callback. cbn [isStillOnStartingPosition].
    destruct (isStillOnStartingPosition s); exact Hs. }
  destruct (mouse_step s event) as [s1 first]. cbn [fst] in Hstep.
  specialize (IH s1 Hno Hstep).
  destruct (mouse_run s1 events) as [s2 others]. exact IH.
Qed.

(** X23.  A press during which the pointer moves is a drag, not a click:
    from any state, after a press and any sequence of moves, right clicks
    and timers that holds at least one move, the release dispatches
    nothing. *)
Theorem drag_is_no_click (s : MouseState P) (screenPosition coordinate : P)
  (during : list MouseEvent) (upPosition upCoordinate : P)
  (view : StoreView L R) :
  forallb (fun event => negb (is_press_or_release event)) during = true ->
  existsb is_move during = true ->
  let pressed := onLeftClickDown screenPosition coordinate s in
  snd (mouse_step (fst (mouse_run pressed during))
         (LeftClickUp upPosition upCoordinate view)) = [].
Proof.
  intros Hno Hmove pressed.
  apply existsb_exists in Hmove. destruct Hmove as [event [Hin Hmove]].
  apply in_split in Hin. destruct Hin as [before [after ->]].
  rewrite forallb_app in Hno. apply andb_true_iff in Hno.
  destruct Hno as [Hbefore Hafter]. cbn [forallb] in Hafter.
  apply andb_true_iff in Hafter. destruct Hafter as [_ Hafter].
  rewrite mouse_run_app.
  pose proof (pressed_stays_pressed before pressed Hbefore eq_refl) as Hdown.
  destruct (mouse_run pressed before) as [s1 first]. cbn [fst] in Hdown.
  destruct event as [p c | p c v | v | p c | id]; try discriminate.
  cbn [mouse_run mouse_step]. unfold onMouseMove at 1.
  match goal with
  | |- context [mouse_run ?moved after] =>
      pose proof (moved_stays_moved after moved Hafter) as Hstays;
      destruct (mouse_run moved after) as [s2 others]
  end.
  cbn [fst snd] in *. unfold onLeftClickUp. cbn [snd].
  rewrite Hstays; [rewrite andb_false_r; reflexivity|].
  cbn. rewrite Hdown. reflexivity.
Qed.

(** X24.  A press is answered once.  In a state of the composable in which
    no button is held, a press followed at once by its release dispatches
    exactly one click, a left single click at the place of the release with
    the features of the visible GeoJSON layers and then of the visible KML
    layers under it; and a press whose timer fires before the release
    dispatches exactly one click, a context menu click at the place of the
    press without features, the release then dispatching nothing. *)
Theorem press_is_answered_once (s : MouseState P)
  (screenPosition coordinate upPosition upCoordinate : P)
  (view : StoreView L R) :
  mouse_reachable s ->
  isPointerDown s = false ->
  snd (mouse_run s [ LeftClickDown screenPosition coordinate;
                     LeftClickUp upPosition upCoordinate view ])
  = [ DispatchClick
        {| click_coordinate := upCoordinate;
           click_screenPosition := upPosition;
           click_features := features_under upCoordinate view;
           click_clickType := LEFT_SINGLECLICK |} ]
  /\ snd (mouse_run s [ LeftClickDown screenPosition coordinate;
                        TimerFires (next_timer_id s);
                        LeftClickUp upPosition upCoordinate view ])
     = [ DispatchClick
           {| click_coordinate := coordinate;
              click_screenPosition := screenPosition;
              click_features := [];
              click_clickType := CONTEXTMENU |} ].
Proof.
  intros Hreach Hup.
  destruct (mouse_reachable_invariant s Hreach) as [_ [Hpopup Htimers]].
  assert (Ep : hasPointerDownTriggeredLocationPopup s = false).
  { destruct (hasPointerDownTriggeredLocationPopup s); [|reflexivity].
    rewrite (Hpopup eq_refl) in Hup. discriminate. }
  split.
  - cbn [mouse_run mouse_step]. unfold onLeftClickUp.
    cbn [onLeftClickDown hasPointerDownTriggeredLocationPopup
         isStillOnStartingPosition snd app].
    rewrite Ep. reflexivity.
  - cbn [mouse_run mouse_step].
    cbn [onLeftClickDown pending_timers].
    assert (Hfind :
              find (fun timer => (timer_id timer =? next_timer_id s)%nat)
                (pending_timers s
                 ++ [ {| timer_id := next_timer_id s;
                         timer_screenPosition := screenPosition;
                         timer_coordinate := coordinate |} ])
              = Some {| timer_id := next_timer_id s;
                        timer_screenPosition := screenPosition;
                        timer_coordinate := coordinate |}).
    { induction Htimers as [|t ts Ht _ IH]; cbn [app find].
      - cbn [timer_id]. rewrite Nat.eqb_refl. reflexivity.
      - replace (timer_id t =? next_timer_id s)%nat with false
          by (symmetry; apply Nat.eqb_neq; lia).
        exact IH. }
    rewrite Hfind. unfold contextMenuTimeout_callback.
    cbn [isStillOnStartingPosition timer_screenPosition timer_coordinate].
    unfold onLeftClickUp.
    cbn [hasPointerDownTriggeredLocationPopup negb andb snd app onRightClick].
    reflexivity.
Qed.

End MouseFacts.

Lemma released_pointer_dispatches_nothing_witness :
  (forall id,
      snd (mouse_step (ME := example_mouse_externals) after_click
             (TimerFires id)) = [])
  /\ (forall screenPosition coordinate view,
         snd (mouse_step (ME := example_mouse_externals) after_click
                (LeftClickUp screenPosition coordinate view)) = []).
Proof.
  apply (released_pointer_dispatches_nothing (ME := example_mouse_externals)
           after_click).
  - eexists. reflexivity.
  - reflexivity.
Defined.

Lemma drag_is_no_click_witness :
  snd (mouse_step (ME := example_mouse_externals)
         (fst (mouse_run (ME := example_mouse_externals)
                 (onLeftClickDown (100, 200)%Z (2600000, 1200000)%Z
                    mouse_initial)
                 [MouseMove example_view; TimerFires 1]))
         (LeftClickUp (130, 240)%Z (2600300, 1199600)%Z example_view)) = [].
Proof.
  apply (drag_is_no_click (ME := example_mouse_externals) mouse_initial
           (100, 200)%Z (2600000, 1200000)%Z
           [MouseMove example_view; TimerFires 1]); reflexivity.
Defined.

Lemma press_is_answered_once_witness :
  snd (mouse_run (ME := example_mouse_externals) mouse_initial
         [ LeftClickDown (100, 200)%Z (2600000, 1200000)%Z;
           LeftClickUp (100, 200)%Z (2600000, 1200000)%Z example_view ])
  = [ DispatchClick
        {| click_coordinate := (2600000, 1200000)%Z;
           click_screenPosition := (100, 200)%Z;
           click_features := [10; 21]%nat;
           click_clickType := LEFT_SINGLECLICK |} ]
  /\ snd (mouse_run (ME := example_mouse_externals) mouse_initial
            [ LeftClickDown (100, 200)%Z (2600000, 1200000)%Z;
              TimerFires 1;
              LeftClickUp (100, 200)%Z (2600000, 1200000)%Z example_view ])
     = [ DispatchClick
           {| click_coordinate := (2600000, 1200000)%Z;
              click_screenPosition := (100, 200)%Z;
              click_features := [];
              click_clickType := CONTEXTMENU |} ].
Proof.
  apply (press_is_answered_once (ME := example_mouse_externals) mouse_initial
           (100, 200)%Z (2600000, 1200000)%Z (100, 200)%Z
           (2600000, 1200000)%Z example_view).
  - exists []. reflexivity.
  - reflexivity.
Defined.

(* ------------------------------------------------------------------ *)
(** ** Properties of the click-on-map management plugin *)
(* ------------------------------------------------------------------ *)

Section ClickPluginFacts.

Context {P F L : Type} {CX : ClickExternals P F L}.

Hypothesis same_feature_identity : same_feature_is_identity.

Lemma existsb_same (seen : list F) (x : F) :
  existsb (fun y => same_feature y x) seen = true <-> In x seen.
Proof.
  rewrite existsb_exists. split.
  - intros [y [Hin Hsame]]. apply same_feature_identity in Hsame. subst.
    exact Hin.
  - intros Hin. exists x. split; [exact Hin|].
    apply same_feature_identity. reflexivity.
Qed.

Lemma feature_indexOf_from_seen (seen : list F) (x : F) (rest : list F) :
  forall start,
    feature_indexOf_from (seen ++ x :: rest) x start
    = if existsb (fun y => same_feature y x) seen
      then feature_indexOf_from seen x start
      else Some (start + length seen)%nat.
Proof.
  induction seen as [|y seen IH]; intros start; cbn [app feature_indexOf_from existsb length].
  - replace (same_feature x x) with true
      by (symmetry; apply same_feature_identity; reflexivity).
    f_equal. lia.
  - destruct (same_feature y x); cbn [orb]; [reflexivity|].
    rewrite IH. destruct (existsb _ seen); [reflexivity|]. f_equal. lia.
Qed.

Lemma feature_indexOf_from_bound (seen : list F) (x : F) :
  forall start found,
    feature_indexOf_from seen x start = Some found ->
    (found < start + length seen)%nat.
Proof.
  induction seen as [|y seen IH]; intros start found; cbn [feature_indexOf_from length].
  - discriminate.
  - destruct (same_feature y x).
    + intros H. injection H as <-. lia.
    + intros H. apply IH in H. lia.
Qed.

Lemma filter_indexed_first_occurrences (rest : list F) :
  forall seen,
    filter_indexed
      (fun feature index =>
         match feature_indexOf (seen ++ rest) feature with
         | Some found => (found =? index)%nat
         | None => false
         end)
      (length seen) rest
    = first_occurrences same_feature seen rest.
Proof.
  induction rest as [|x rest IH]; intros seen; [reflexivity|].
  cbn [filter_indexed first_occurrences]. unfold feature_indexOf at 1.
  rewrite feature_indexOf_from_seen.
  specialize (IH (seen ++ [x])).
  rewrite <- app_assoc in IH. cbn [app] in IH.
  rewrite length_app in IH. cbn [length] in IH.
  replace (length seen + 1)%nat with (S (length seen)) in IH by lia.
  destruct (existsb (fun y => same_feature y x) seen) eqn:Eseen.
  - destruct (feature_indexOf_from seen x 0) as [found|] eqn:Efound.
    + apply feature_indexOf_from_bound in Efound.
      replace (found =? length seen)%nat with false
        by (symmetry; apply Nat.eqb_neq; lia).
      exact IH.
    + exact IH.
  - cbn [Nat.add]. rewrite Nat.eqb_refl. rewrite IH. reflexivity.
Qed.

Lemma first_occurrences_spec (rest : list F) :
  forall seen,
    NoDup (first_occurrences same_feature seen rest)
    /\ forall f,
         In f (first_occurrences same_feature seen rest)
         <-> In f rest /\ ~ In f seen.
Proof.
  induction rest as [|x rest IH]; intros seen; cbn [first_occurrences].
  - split; [constructor|]. intros f. split; [intros [] | intros [[] _]].
  - destruct (IH (seen ++ [x])) as [Hnodup Hmem].
    assert (Hsplit : forall f, ~ In f (seen ++ [x]) <-> ~ In f seen /\ f <> x).
    { intros f. rewrite in_app_iff. cbn [In]. split.
      - intros H. split; [intros Hs; apply H; left; exact Hs|].
        intros ->. apply H. right. left. reflexivity.
      - intros [Hs Hx] [H | [H | []]]; [exact (Hs H) | exact (Hx (eq_sym H))]. }
    destruct (existsb (fun y => same_feature y x) seen) eqn:Eseen.
    + apply existsb_same in Eseen. split; [exact Hnodup|].
      intros f. rewrite Hmem, Hsplit. cbn [In]. split.
      * intros [Hin [Hs _]]. split; [right; exact Hin | exact Hs].
      * intros [[<- | Hin] Hs]; [contradiction|].
        split; [exact Hin|]. split; [exact Hs|]. intros ->. contradiction.
    + assert (Hnot : ~ In x seen).
      { intros Hin. apply existsb_same in Hin. congruence. }
      split.
      * constructor; [|exact Hnodup].
        intros Hin. apply Hmem in Hin. destruct Hin as [_ Hin].
        apply Hsplit in Hin. destruct Hin as [_ Hin]. apply Hin. reflexivity.
      * intros f. cbn [In]. rewrite Hmem, Hsplit. split.
        -- intros [<- | [Hin [Hs _]]];
             [split; [left; reflexivity | exact Hnot]
             | split; [right; exact Hin | exact Hs]].
        -- intros [[<- | Hin] Hs]; [left; reflexivity|].
           destruct (same_feature x f) eqn:E.
           ++ apply same_feature_identity in E. left. exact E.
           ++ right. split; [exact Hin|]. split; [exact Hs|].
              intros ->. 
              assert (Hrefl : same_feature x x = true)
                by (apply same_feature_identity; reflexivity).
              congruence.
Qed.

Lemma without_doubles_spec (allFeatures : list F) :
  NoDup (without_doubles allFeatures)
  /\ forall f, In f (without_doubles allFeatures) <-> In f allFeatures.
Proof.
  unfold without_doubles.
  pose proof (filter_indexed_first_occurrences allFeatures []) as Hfirst.
  cbn [app length] in Hfirst. rewrite Hfirst. clear Hfirst.
  destruct (first_occurrences_spec allFeatures []) as [Hnodup Hmem].
  split; [exact Hnodup|]. intros f. rewrite Hmem. split.
  - intros [H _]. exact H.
  - intros H. split; [exact H | intros []].
Qed.

Lemma requests_answered (info : PluginClickInfo P F) (lang : jsstring)
  (visibleLayers : list L) :
  forall requests values,
    identify_requests (Some info) visibleLayers lang = Ok requests ->
    Promise_all requests = Ok values ->
    values = answered_features info visibleLayers lang.
Proof.
  induction visibleLayers as [|layer rest IH]; intros requests values;
    cbn [identify_requests answered_features].
  - intros H. injection H as <-. cbn. intros H. injection H as <-. reflexivity.
  - destruct (identify_requests (Some info) rest lang) as [others|e] eqn:Hothers.
    + specialize (IH others).
      destruct (layer_is_GEOJSON layer).
      * intros H. injection H as <-. cbn [Promise_all].
        destruct (Promise_all others) as [vs|e]; [|discriminate].
        intros H. injection H as <-. rewrite (IH vs eq_refl eq_refl).
        reflexivity.
      * destruct (layer_hasTooltip layer).
        -- intros H. injection H as <-. cbn [Promise_all].
           destruct (identify layer (pci_coordinate info) lang) as [fs|e];
             [|discriminate].
           destruct (Promise_all others) as [vs|e]; [|discriminate].
           intros H. injection H as <-. rewrite (IH vs eq_refl eq_refl).
           reflexivity.
        -- intros H. injection H as <-. intros H. exact (IH values eq_refl H).
    + destruct (layer_is_GEOJSON layer); [discriminate|].
      destruct (layer_hasTooltip layer); discriminate.
Qed.

(** X25.  Where [===] on features is identity: when [runIdentify] gets the
    selected features set, the selection holds every feature that the
    requests of the visible layers answered (the GeoJSON features of the
    click for a GeoJSON layer, what [identify] found for another layer with
    a tooltip) and holds none of them twice, however many layers answered
    it.  With no visible layer nothing is dispatched, so the selection
    stays as it was. *)
Theorem runIdentify_selects_each_feature_once (info : PluginClickInfo P F)
  (visibleLayers : list L) (lang : jsstring) (selected : list F) :
  runIdentify (Some info) visibleLayers lang = Ok [SetSelectedFeatures selected] ->
  NoDup selected
  /\ (forall f,
         In f selected
         <-> exists answer,
               In answer (answered_features info visibleLayers lang)
               /\ In f answer)
  /\ runIdentify (Some info) [] lang = Ok [].
Proof.
  unfold runIdentify at 1.
  destruct (0 <? length visibleLayers)%nat; [|discriminate].
  destruct (identify_requests (Some info) visibleLayers lang)
    as [allRequests|e] eqn:Hrequests; [|discriminate].
  destruct (Promise_all allRequests) as [values|e] eqn:Hall; [|discriminate].
  intros H. injection H as <-.
  rewrite (requests_answered info lang visibleLayers allRequests values
             Hrequests Hall).
  destruct (without_doubles_spec
              (concat (answered_features info visibleLayers lang)))
    as [Hnodup Hmem].
  split; [exact Hnodup|]. split; [|reflexivity].
  intros f. rewrite Hmem, in_concat. reflexivity.
Qed.

End ClickPluginFacts.

Lemma runIdentify_selects_each_feature_once_witness :
  runIdentify (CX := example_click_externals) (Some example_click)
    [3; 1; 4; 2]%nat (str "de")
  = Ok [SetSelectedFeatures [7; 30; 5; 20]%nat]
  /\ NoDup [7; 30; 5; 20]%nat.
Proof.
  split; [reflexivity|].
  apply (runIdentify_selects_each_feature_once (CX := example_click_externals)
           (fun a b => Nat.eqb_eq a b)
           example_click [3; 1; 4; 2]%nat (str "de") [7; 30; 5; 20]%nat).
  reflexivity.
Defined.

(* ------------------------------------------------------------------ *)
(** ** Properties of usePrintAreaRenderer *)
(* ------------------------------------------------------------------ *)

(** *** The optimal scale *)

Lemma compare_descending (x y : xnum) :
  xfinite x -> xfinite y ->
  num_ltb (num_sub y x) (num_lit 0) = xltb y x.
Proof.
  destruct x as [| | |p], y as [| | |q]; cbn; try contradiction.
  intros _ _.
  destruct (Qltb (q + - p) 0) eqn:E1, (Qltb q p) eqn:E2; try reflexivity;
    try apply Qltb_true in E1; try apply Qltb_false in E1;
    try apply Qltb_true in E2; try apply Qltb_false in E2; lra.
Qed.

Lemma sort_insert_descending (x : xnum) (sorted : list xnum) :
  xfinite x -> Forall xfinite sorted -> descending sorted ->
  descending (sort_insert (fun a b => num_sub b a) x sorted)
  /\ Forall xfinite (sort_insert (fun a b => num_sub b a) x sorted)
  /\ forall y,
       In y (sort_insert (fun a b => num_sub b a) x sorted)
       <-> y = x \/ In y sorted.
Proof.
  intros Hx Hfin Hsorted. unfold descending in *.
  induction sorted as [|y rest IH]; cbn [sort_insert].
  - split; [repeat constructor|]. split; [repeat constructor; exact Hx|].
    intros z. cbn. intuition.
  - inversion Hfin as [|y0 rest0 Hy Hrest]; subst.
    inversion Hsorted as [|y0 rest0 Hsrest Hall]; subst.
    rewrite (compare_descending x y Hx Hy).
    destruct (xltb y x) eqn:E.
    + split; [|split].
      * constructor; [exact Hsorted|].
        constructor; [exact (xltb_xleb y x E)|].
        eapply Forall_impl; [|exact Hall]. cbn. intros z Hz.
        exact (xleb_trans z y x Hz (xltb_xleb y x E)).
      * constructor; assumption.
      * intros z. cbn. intuition.
    + destruct (IH Hrest Hsrest) as [Hs [Hf Hmem]].
      split; [|split].
      * constructor; [exact Hs|].
        apply Forall_forall. intros z Hz. apply Hmem in Hz.
        destruct Hz as [-> | Hz].
        -- apply xltb_false_xleb;
             [apply xfinite_not_nan, Hy | apply xfinite_not_nan, Hx | exact E].
        -- rewrite Forall_forall in Hall. exact (Hall z Hz).
      * constructor; assumption.
      * intros z. cbn [In]. rewrite Hmem. intuition.
Qed.

Lemma Array_sort_descending (array : list xnum) :
  Forall xfinite array ->
  descending (Array_sort (fun a b => num_sub b a) array)
  /\ Forall xfinite (Array_sort (fun a b => num_sub b a) array)
  /\ forall y,
       In y (Array_sort (fun a b => num_sub b a) array) <-> In y array.
Proof.
  unfold Array_sort.
  assert (Hgen : forall sorted,
             Forall xfinite array -> Forall xfinite sorted ->
             descending sorted ->
             let r := fold_left
                        (fun sorted0 x =>
                           sort_insert (fun a b => num_sub b a) x sorted0)
                        array sorted in
             descending r /\ Forall xfinite r
             /\ forall y, In y r <-> In y array \/ In y sorted).
  { induction array as [|x array IH]; intros sorted Harr Hfin Hs; cbn [fold_left].
    - split; [exact Hs|]. split; [exact Hfin|]. intros y. cbn. intuition.
    - inversion Harr as [|x0 array0 Hx Hrest]; subst.
      destruct (sort_insert_descending x sorted Hx Hfin Hs) as [Hs1 [Hf1 Hm1]].
      destruct (IH _ Hrest Hf1 Hs1) as [Hs2 [Hf2 Hm2]].
      split; [exact Hs2|]. split; [exact Hf2|].
      intros y. rewrite Hm2, Hm1. cbn [In]. intuition. }
  intros Harr.
  destruct (Hgen [] Harr (Forall_nil _) (SSorted_nil _)) as [Hs [Hf Hm]].
  split; [exact Hs|]. split; [exact Hf|].
  intros y. rewrite Hm. cbn. intuition.
Qed.

Lemma find_below_descending (testScale : xnum) (sorted : list xnum) :
  descending sorted ->
  match find (fun scale => xltb scale testScale) sorted with
  | Some s =>
      In s sorted /\ xlt s testScale
      /\ forall other, In other sorted -> xlt other testScale -> xle other s
  | None => forall other, In other sorted -> ~ xlt other testScale
  end.
Proof.
  unfold descending, xlt. intros Hsorted.
  induction Hsorted as [|x rest Hrest IH Hall]; cbn [find].
  - intros other [].
  - destruct (xltb x testScale) eqn:E.
    + split; [left; reflexivity|]. split; [exact E|].
      intros other [<- | Hin] Hother.
      * apply xltb_xleb in Hother. apply xleb_not_nan in Hother.
        apply xleb_refl. exact (proj1 Hother).
      * rewrite Forall_forall in Hall. exact (Hall other Hin).
    + destruct (find (fun scale => xltb scale testScale) rest) as [s|].
      * destruct IH as [Hin [Hs Hmax]].
        split; [right; exact Hin|]. split; [exact Hs|].
        intros other [<- | Hother] Hlt; [congruence | exact (Hmax other Hother Hlt)].
      * intros other [<- | Hother]; [congruence | exact (IH other Hother)].
Qed.

(** X26.  [getOptimalScale], computed without rounding on finite scales:
    when some scale of the layout is below the scale that the map shows,
    the answer is the largest such scale; when none is, the answer is the
    largest scale of the layout; in both cases it is one of the scales of
    the layout, in whatever order the layout lists them, and there is no
    answer only for a layout without scales. *)
Theorem getOptimalScale_largest_below (resolution mapWidth mapHeight : xnum)
  (layoutSize : LayoutSize xnum) (scales : list xnum) :
  Forall xfinite scales ->
  let testScale := print_testScale resolution mapWidth mapHeight layoutSize in
  match getOptimalScale resolution mapWidth mapHeight layoutSize scales with
  | Some s =>
      In s scales
      /\ ((xlt s testScale
           /\ forall other, In other scales -> xlt other testScale -> xle other s)
          \/ ((forall other, In other scales -> ~ xlt other testScale)
              /\ forall other, In other scales -> xle other s))
  | None => scales = []
  end.
Proof.
  intros Hfin testScale. unfold getOptimalScale. fold testScale.
  destruct (Array_sort_descending scales Hfin) as [Hsorted [Hfinite Hmem]].
  pose proof (find_below_descending testScale _ Hsorted) as Hfind.
  destruct (find (fun scale => num_ltb scale testScale)
              (Array_sort (fun a b => num_sub b a) scales)) as [s|] eqn:Efind.
  - cbn [nullish_opt]. cbn [num_ltb xnum_number] in Efind.
    rewrite Efind in Hfind. destruct Hfind as [Hin [Hs Hmax]].
    split; [apply Hmem, Hin|]. left. split; [exact Hs|].
    intros other Hother. apply Hmax, Hmem, Hother.
  - cbn [nullish_opt]. cbn [num_ltb xnum_number] in Efind.
    rewrite Efind in Hfind.
    destruct (Array_sort (fun a b => num_sub b a) scales) as [|top rest] eqn:Esorted.
    + cbn [hd_error]. destruct scales as [|x scales]; [reflexivity|].
      destruct (proj2 (Hmem x) (or_introl eq_refl)).
    + cbn [hd_error]. split; [apply Hmem; left; reflexivity|]. right.
      split; [intros other Hother; apply Hfind, Hmem, Hother|].
      intros other Hother. apply Hmem in Hother.
      unfold descending in Hsorted.
      inversion Hsorted as [|top0 rest0 _ Hall]; subst.
      destruct Hother as [<- | Hother].
      * apply xleb_refl, xfinite_not_nan.
        inversion Hfinite; assumption.
      * rewrite Forall_forall in Hall. exact (Hall other Hother).
Qed.

Lemma getOptimalScale_largest_below_witness :
  getOptimalScale (XFin 10) (XFin 1000) (XFin 800) a4_landscape layout_scales
  = Some (XFin 25000)
  /\ match
       getOptimalScale (XFin 10) (XFin 1000) (XFin 800) a4_landscape
         layout_scales
     with
     | Some s =>
         In s layout_scales
         /\ ((xlt s (print_testScale (XFin 10) (XFin 1000) (XFin 800) a4_landscape)
              /\ forall other,
                   In other layout_scales ->
                   xlt other
                     (print_testScale (XFin 10) (XFin 1000) (XFin 800) a4_landscape) ->
                   xle other s)
             \/ ((forall other,
                     In other layout_scales ->
                     ~ xlt other
                         (print_testScale (XFin 10) (XFin 1000) (XFin 800)
                            a4_landscape))
                 /\ forall other, In other layout_scales -> xle other s))
     | None => layout_scales = []
     end.
Proof.
  split; [vm_compute; reflexivity|].
  apply (getOptimalScale_largest_below (XFin 10) (XFin 1000) (XFin 800)
           a4_landscape layout_scales).
  repeat constructor.
Defined.

(** *** The print rectangle *)

Lemma xdiv_finite (p q : Q) : ~ q == 0 -> xdiv (XFin p) (XFin q) = XFin (p / q).
Proof.
  intros Hq. cbn [xdiv]. unfold Qzerob.
  destruct (Qeq_bool q 0) eqn:E; [|reflexivity].
  apply Qeq_bool_iff in E. contradiction.
Qed.

(** X27.  The print rectangle, computed without rounding from finite sizes
    at a resolution other than 0, is centred on the centre of the map (in
    device pixels), and its sides are to each other as the sides of the
    layout are: the page keeps its proportions at every scale and every
    resolution. *)
Theorem print_rectangle_centred (s width height resolution mapWidth mapHeight
  ratio : Q) :
  ~ resolution == 0 ->
  let rectangle :=
    calculatePageBoundsPixels (XFin s)
      {| layout_width := XFin width; layout_height := XFin height |}
      (XFin resolution) (XFin mapWidth, XFin mapHeight) (XFin ratio) in
  exists x0 y0 x1 y1 : Q,
    rectangle = {| minx := XFin x0; miny := XFin y0;
                   maxx := XFin x1; maxy := XFin y1 |}
    /\ (x0 + x1) / 2 == mapWidth * ratio / 2
    /\ (y0 + y1) / 2 == mapHeight * ratio / 2
    /\ (x1 - x0) * height == (y1 - y0) * width
    /\ x1 - x0 == width / 72 * 25.4 / 1000 * s / resolution * ratio.
Proof.
  intros Hres rectangle. subst rectangle.
  unfold calculatePageBoundsPixels, POINTS_PER_INCH, MM_PER_INCHES.
  cbn [num_mul num_div num_sub num_add num_lit xnum_number fst snd
       layout_width layout_height].
  unfold xsub.
  repeat (rewrite xdiv_finite
            by (first [exact Hres | intros H; vm_compute in H; discriminate]);
          cbn [xmul xadd xneg]).
  eexists. eexists. eexists. eexists.
  split; [reflexivity|].
  repeat split; field; exact Hres.
Qed.

Lemma print_rectangle_centred_witness :
  exists x0 y0 x1 y1 : Q,
    calculatePageBoundsPixels (XFin 25000)
      {| layout_width := XFin 802; layout_height := XFin 530 |}
      (XFin 10) (XFin 1000, XFin 800) (XFin 2)
    = {| minx := XFin x0; miny := XFin y0; maxx := XFin x1; maxy := XFin y1 |}
    /\ (x0 + x1) / 2 == 1000 * 2 / 2
    /\ (y0 + y1) / 2 == 800 * 2 / 2
    /\ (x1 - x0) * 530 == (y1 - y0) * 802
    /\ x1 - x0 == 802 / 72 * 25.4 / 1000 * 25000 / 10 * 2.
Proof.
  apply (print_rectangle_centred 25000 802 530 10 1000 800 2).
  intros H. vm_compute in H. discriminate.
Defined.

(* ------------------------------------------------------------------ *)
(** ** The cache of the layers configs *)
(* ------------------------------------------------------------------ *)

Section LoadLayersConfigFacts.

Context {V : Type} {VX : ConfigExternals V}.

Lemma remove_first_incl (lang : jsstring) (langs : list jsstring) :
  forall l, In l (remove_first lang langs) -> In l langs.
Proof.
  induction langs as [|x langs IH]; intros l Hin; [exact Hin|].
  cbn [remove_first] in Hin. destruct (jsstring_eqb lang x).
  - right. exact Hin.
  - destruct Hin as [<- | Hin]; [left; reflexivity | right; apply IH, Hin].
Qed.

Lemma awaited_In (lang : jsstring) (langs : list jsstring) :
  existsb (jsstring_eqb lang) langs = true -> In lang langs.
Proof.
  intros H. apply existsb_exists in H. destruct H as [l [Hin Heq]].
  apply jsstring_eqb_eq in Heq. subst l. exact Hin.
Qed.

Lemma load_step_cached (event : LoadEvent V) (m : ConfigModule V)
  (lang : jsstring) (value : V) :
  cached m lang value ->
  cached (fst (load_step event m)) lang value
  /\ snd (load_step event m) <> BackendAsked lang
  /\ (event = Called lang ->
      snd (load_step event m) = CallFulfilled (OwnValue value)).
Proof.
  intros [Hown [Htruthy Hawait]].
  destruct event as [called | answered answer]; cbn [load_step].
  - unfold loadLayersConfig.
    destruct (truthy (get_property (layersConfigByLang m) called)) eqn:Et;
      cbn [negb fst snd].
    + split; [repeat split; assumption|]. split; [discriminate|].
      intros Heq. injection Heq as ->.
      unfold get_property. rewrite Hown. reflexivity.
    + assert (Hne : called <> lang).
      { intros ->. unfold get_property in Et. rewrite Hown in Et.
        cbn [truthy] in Et. congruence. }
      split.
      * split; [exact Hown|]. split; [exact Htruthy|].
        cbn [awaited]. intros [Heq | Hin]; [exact (Hne Heq) | exact (Hawait Hin)].
      * split; [intros Heq; injection Heq as Heq; exact (Hne Heq)|].
        intros Heq. injection Heq as Heq. destruct (Hne Heq).
  - unfold loadLayersConfig_resumed.
    destruct (existsb (jsstring_eqb answered) (awaited m)) eqn:Ea.
    + assert (Hne : answered <> lang).
      { intros ->. apply Hawait, awaited_In, Ea. }
      assert (Hrest : ~ In lang (remove_first answered (awaited m))).
      { intros Hin. apply Hawait. exact (remove_first_incl _ _ _ Hin). }
      destruct answer as [layersConfig | e]; cbn [fst snd].
      * split.
        -- split; [|split; [exact Htruthy | exact Hrest]].
           cbn [layersConfigByLang own_property].
           rewrite (jsstring_eqb_neq Hne). exact Hown.
        -- split; [discriminate|]. discriminate.
      * split; [split; [exact Hown | split; [exact Htruthy | exact Hrest]]|].
        split; discriminate.
    + cbn [fst snd].
      split; [repeat split; assumption|]. split; discriminate.
Qed.

(** X28.  Once a language is in the cache with a truthy config and no call
    is awaiting the backend for it, then whatever calls of
    [loadLayersConfig] and answers of the backend follow, in any order and
    for any languages: the config stays in the cache, the backend is never
    asked for that language again, and every call for the language is
    fulfilled at once with that config. *)
Theorem loadLayersConfig_cached_language (m : ConfigModule V)
  (lang : jsstring) (value : V) (events : list (LoadEvent V)) :
  own_property (layersConfigByLang m) lang = Some value ->
  config_truthy value = true ->
  ~ In lang (awaited m) ->
  cached (fst (load_run events m)) lang value
  /\ ~ In (BackendAsked lang) (snd (load_run events m))
  /\ length (snd (load_run events m)) = length events
  /\ forall i,
       nth_error events i = Some (Called lang) ->
       nth_error (snd (load_run events m)) i
       = Some (CallFulfilled (OwnValue value)).
Proof.
  intros Hown Htruthy Hawait.
  assert (Hcached : cached m lang value) by (repeat split; assumption).
  clear Hown Htruthy Hawait. revert m Hcached.
  induction events as [|event events IH]; intros m Hcached.
  - cbn [load_run fst snd length]. split; [exact Hcached|].
    split; [intros []|]. split; [reflexivity|].
    intros [|i] Hi; discriminate.
  - cbn [load_run].
    destruct (load_step_cached event m lang value Hcached)
      as [Hnext [Hasked Hcall]].
    destruct (load_step event m) as [m' step] eqn:Estep.
    cbn [fst snd] in Hnext, Hasked, Hcall.
    specialize (IH m' Hnext).
    destruct (load_run events m') as [m'' steps] eqn:Erun.
    cbn [fst snd] in IH |- *.
    destruct IH as [Hlast [Hnever [Hlen Hcalls]]].
    split; [exact Hlast|]. split.
    + intros [Heq | Hin]; [exact (Hasked Heq) | exact (Hnever Hin)].
    + split; [cbn [length]; rewrite Hlen; reflexivity|].
      intros [|i] Hi; cbn [nth_error] in Hi |- *.
      * injection Hi as ->. rewrite (Hcall eq_refl). reflexivity.
      * exact (Hcalls i Hi).
Qed.

End LoadLayersConfigFacts.

Lemma loadLayersConfig_cached_language_witness :
  snd (load_run (VX := example_config_externals) first_loads module_loaded)
  = [BackendAsked (str "de"); BackendAsked (str "fr");
     CallFulfilled (OwnValue 1%nat)]
  /\ snd (load_run (VX := example_config_externals) later_loads
            module_after_first_loads)
     = [CallFulfilled (OwnValue 1%nat); CallRejected (GenericError "503");
        BackendAsked (str "fr"); CallFulfilled (OwnValue 1%nat);
        CallFulfilled (OwnValue 2%nat)]
  /\ cached (VX := example_config_externals)
       (fst (load_run (VX := example_config_externals) later_loads
               module_after_first_loads))
       (str "de") 1%nat
  /\ ~ In (BackendAsked (str "de"))
         (snd (load_run (VX := example_config_externals) later_loads
                 module_after_first_loads)).
Proof.
  split; [vm_compute; reflexivity|].
  split; [vm_compute; reflexivity|].
  pose proof (loadLayersConfig_cached_language
                (VX := example_config_externals) module_after_first_loads
                (str "de") 1%nat later_loads) as H.
  destruct H as [Hcached [Hnever _]].
  - vm_compute. reflexivity.
  - reflexivity.
  - vm_compute. intros [H | []]. discriminate H.
  - split; [exact Hcached | exact Hnever].
Defined.
